(** * snapchat-export: download orchestrator, retry policy, bundle
      extraction and resume manifest

    A shallow embedding of the parts of [src/compositor.ts] and
    [src/manifest.ts] that carry the retry, expiry, extraction, resume and
    ordering logic, followed by the properties proved about them.
    The embedding extends to what surrounds them: the rest of the
    downloader (bundle fetch, sequential download), the manifest's
    statistics and saving, the saving of results in [src/exporter.ts], the
    processing of one memory, the workers and the limit in [src/cli.ts], and
    the identity and the entries of the export in [src/parser.ts].

    Conventions of the embedding.
    - JavaScript strings are [string]s of 8-bit characters; [toLowerCase]
      acts on the ASCII letters.
    - JavaScript numbers that hold counters, HTTP statuses and epoch
      milliseconds are integers ([nat] or [Z]); numbers that hold delays and
      ages are exact rationals ([Q]), so rounding of binary floating point is
      not part of the model; where a number of the code can leave the finite
      doubles, the statements about its value say on which range they hold.
    - [Math.random()], [Date.now()], the network, [new URL], [JSON.parse] and
      the file system are inputs of the functions that consult them.
    - A plain object used as a dictionary is a finite map ([gmap string _])
      on its own string keys, and the assignment to a key follows the
      language for the key [__proto__], which names the prototype and not a
      property; a [Map] is the list of its pairs in insertion order.
    - A function that can throw returns a sum: [inl] of the thrown value,
      [inr] of the returned one.
    - Code that writes files or runs other programs passes a world along,
      of a type that the statements leave open. *)

From Stdlib Require Import ZArith QArith Qpower Qminmax Qround Lia Lqa Bool Ascii String List.
From stdpp Require Import base option list gmap strings pretty.

Local Open Scope Z_scope.

(* ===================================================================== *)
(** * JavaScript string primitives                                        *)
(* ===================================================================== *)

Module JsString.

(** [c] lowered if it is one of "A".."Z". *)
Definition lowerChar (c : ascii) : ascii :=
  let n := nat_of_ascii c in
  if ((65 <=? n) && (n <=? 90))%nat then ascii_of_nat (n + 32) else c.

(** [s.toLowerCase()] *)
Fixpoint toLowerCase (s : string) : string :=
  match s with
  | EmptyString => EmptyString
  | String c r => String (lowerChar c) (toLowerCase r)
  end.

(** [s.startsWith(t)] *)
Definition startsWith (s t : string) : bool := String.prefix t s.

(** [s.includes(t)]: [t] starts at some position of [s]. *)
Fixpoint includes (s t : string) : bool :=
  startsWith s t ||
  match s with
  | EmptyString => false
  | String _ r => includes r t
  end.

(** [s.endsWith(t)]: some tail of [s] is [t]. *)
Fixpoint endsWith (s t : string) : bool :=
  String.eqb s t ||
  match s with
  | EmptyString => false
  | String _ r => endsWith r t
  end.

(** [s.split(sep)] for a one-character separator; never the empty list. *)
Fixpoint split (sep : ascii) (s : string) : list string :=
  match s with
  | EmptyString => [EmptyString]
  | String c r =>
      if Ascii.eqb c sep then EmptyString :: split sep r
      else match split sep r with
           | [] => [String c EmptyString]
           | h :: t => String c h :: t
           end
  end.

(** Truthiness of a string: the empty string is falsy. *)
Definition truthy (s : string) : bool := negb (String.eqb s "").

(** White space and line terminators among the characters of 8 bits: tab,
    line feed, vertical tab, form feed, carriage return, space and the
    no-break space (code 160). *)
Definition isWhiteSpace (c : ascii) : bool :=
  let n := nat_of_ascii c in
  (((9 <=? n) && (n <=? 13)) || (n =? 32) || (n =? 160))%nat.

Fixpoint trimStart (s : string) : string :=
  match s with
  | EmptyString => EmptyString
  | String c r => if isWhiteSpace c then trimStart r else s
  end.

Fixpoint trimEnd (s : string) : string :=
  match s with
  | EmptyString => EmptyString
  | String c r =>
      match trimEnd r with
      | EmptyString => if isWhiteSpace c then EmptyString else String c EmptyString
      | r' => String c r'
      end
  end.

(** [s.trim()] *)
Definition trim (s : string) : string := trimEnd (trimStart s).

Definition digitValue (c : ascii) : option Z :=
  let n := nat_of_ascii c in
  if ((48 <=? n) && (n <=? 57))%nat then Some (Z.of_nat (n - 48)) else None.

(** The value of the longest prefix of decimal digits; [acc] is the value
    read so far, [None] while no digit has been read. *)
Fixpoint readDigits (s : string) (acc : option Z) : option Z :=
  match s with
  | EmptyString => acc
  | String c r =>
      match digitValue c with
      | Some d => readDigits r (Some (10 * default 0 acc + d))
      | None => acc
      end
  end.

(** [parseInt(s, 10)]: leading white space is skipped, one sign is read,
    then the longest run of digits; [None] is [NaN] (no digit there).  The
    value is the exact integer that the digits denote; the number of the
    code is that integer as long as it is below [2^53] in absolute value. *)
Definition parseInt10 (s : string) : option Z :=
  let s1 := trimStart s in
  let '(sign, s2) :=
    match s1 with
    | String "-"%char r => (-1, r)
    | String "+"%char r => (1, r)
    | _ => (1, s1)
    end in
  (fun n => sign * n) <$> readDigits s2 None.

End JsString.

(* ===================================================================== *)
(** * types.ts                                                            *)
(* ===================================================================== *)

Inductive MediaType := Image | Video.

#[global] Instance MediaType_eq_dec : EqDecision MediaType.
Proof. solve_decision. Defined.

Record GpsCoordinates := { latitude : Q; longitude : Q }.

(** A parsed memory.  [date] is the instant of the [Date] object in epoch
    milliseconds. *)
Record SnapchatMemory := {
  date : Z;
  mediaType : MediaType;
  location : option GpsCoordinates;
  downloadUrl : string;
  mediaDownloadUrl : option string;
  mediaId : string;
}.

(** Values that a [catch] clause can receive.  [DownloadError] keeps the
    constructor's three arguments; any other [Error] keeps its message and
    the [code] property that Node's system errors carry ([None] when the
    error has no such property); [NonError] stands for a thrown value that
    is not an [Error]. *)
Inductive JsError :=
| DownloadError (url : string) (statusCode : Z) (message : string)
| OtherError (code : option string) (message : string)
| NonError.

(** The [message] property: [DownloadError]'s constructor builds
    [Failed to download ${url}: ${message} (status: ${statusCode})]. *)
Definition errorMessage (e : JsError) : option string :=
  match e with
  | DownloadError url statusCode message =>
      Some ("Failed to download " +:+ url +:+ ": " +:+ message
            +:+ " (status: " +:+ pretty statusCode +:+ ")")
  | OtherError _ message => Some message
  | NonError => None
  end.

(* ===================================================================== *)
(** * compositor.ts: backoff policy                                       *)
(* ===================================================================== *)

Definition DEFAULT_MAX_RETRIES : nat := 3.
Definition BACKOFF_BASE_DELAY_MS : Q := 1000.
Definition BACKOFF_MAX_DELAY_MS : Q := 30000.
Definition URL_EXPIRATION_HOURS : Q := 6.

Definition RETRYABLE_STATUS_CODES : list Z := [408; 429; 500; 502; 503; 504].

(** [calculateBackoffDelay(attempt, baseDelay)]; [random] is the value that
    [Math.random()] returns, a number in the interval from 0 (included) to 1
    (excluded).  The arithmetic is exact: it is the one of the code, up to
    rounding, as long as [baseDelay * 2^attempt] is a finite double (with the
    base of 1000 ms, up to attempt 1014); the statements about the value of
    a delay are made within that range. *)
Definition calculateBackoffDelay (random : Q) (attempt : nat) (baseDelay : Q) : Q :=
  let exponentialDelay := (baseDelay * 2 ^ Z.of_nat attempt)%Q in
  let jitter := (exponentialDelay * (25 # 100) * (random * 2 - 1))%Q in
  Qmin (exponentialDelay + jitter) BACKOFF_MAX_DELAY_MS.

(** [isRetryableError(error)] *)
Definition isRetryableError (error : JsError) : bool :=
  match error with
  | DownloadError _ statusCode _ =>
      bool_decide (statusCode ∈ RETRYABLE_STATUS_CODES)
  | OtherError _ msg =>
      let message := JsString.toLowerCase msg in
      JsString.includes message "network" ||
      JsString.includes message "timeout" ||
      JsString.includes message "econnreset" ||
      JsString.includes message "econnrefused" ||
      JsString.includes message "socket"
  | NonError => false
  end.

(* ===================================================================== *)
(** * compositor.ts: URL expiry                                           *)
(* ===================================================================== *)

Record UrlExpirationInfo := {
  isExpired : bool;
  ageHours : Q;
  timestamp : option Z;
}.

(** [urlObj.searchParams.get(name)]: the value of the first pair named
    [name], [None] for JavaScript's [null]. *)
Fixpoint searchParamsGet (params : list (string * string)) (name : string)
  : option string :=
  match params with
  | [] => None
  | (k, v) :: rest => if String.eqb k name then Some v else searchParamsGet rest name
  end.

(** [Math.round(x)]: the integer nearest to [x], halves rounded up. *)
Definition mathRound (x : Q) : Z := Qfloor (x + (1 # 2)).

Definition unknownExpiration : UrlExpirationInfo :=
  {| isExpired := false; ageHours := 0; timestamp := None |}.

Section CheckUrlExpiration.

  (** [new URL(url)] reduced to what the function reads from it: the list
      of decoded query pairs, or [None] when the constructor throws. *)
  Variable newURL : string -> option (list (string * string)).

  (** [Date.now()] *)
  Variable now : Z.

Definition checkUrlExpiration (url : string) (thresholdHours : Q)
  : UrlExpirationInfo :=
  match newURL url with
  | None => unknownExpiration                     (* catch *)
  | Some searchParams =>
      match searchParamsGet searchParams "ts" with
      | None => unknownExpiration                 (* !tsParam: null *)
      | Some tsParam =>
          if negb (JsString.truthy tsParam) then unknownExpiration
          else
            match JsString.parseInt10 tsParam with
            | None => unknownExpiration           (* isNaN(timestamp) *)
            | Some timestamp =>
                let urlDate := timestamp in
                let ageMs := now - timestamp in
                let ageHours := (inject_Z ageMs / inject_Z (1000 * 60 * 60))%Q in
                {| isExpired := negb (Qle_bool ageHours thresholdHours);
                   ageHours := (inject_Z (mathRound (ageHours * 10)) / 10)%Q;
                   timestamp := Some urlDate |}
            end
      end
  end.

End CheckUrlExpiration.

(* ===================================================================== *)
(** * compositor.ts: fetching one memory                                  *)
(* ===================================================================== *)

(** A [Buffer]. *)
Definition Buffer := list Byte.byte.

Record DownloadedMedia := {
  data : Buffer;
  contentType : string;
  extension : string;
}.

(** [getExtensionFromContentType(contentType, mediaType)] *)
Definition getExtensionFromContentType (contentType : string) (mediaType : MediaType)
  : string :=
  let type := JsString.toLowerCase contentType in
  if JsString.includes type "jpeg" || JsString.includes type "jpg" then "jpg"
  else if JsString.includes type "png" then "png"
  else if JsString.includes type "gif" then "gif"
  else if JsString.includes type "webp" then "webp"
  else if JsString.includes type "heic" then "heic"
  else if JsString.includes type "mp4" then "mp4"
  else if JsString.includes type "quicktime" || JsString.includes type "mov" then "mov"
  else if JsString.includes type "webm" then "webm"
  else match mediaType with Image => "jpg" | Video => "mp4" end.

(** What [fetch] resolves to. *)
Record Response := {
  status : Z;
  statusText : string;
  contentTypeHeader : option string;     (* headers.get('content-type') *)
  body : Buffer;
}.

(** [response.ok]: the status is in the range 200..299. *)
Definition ok (r : Response) : bool := (200 <=? status r) && (status r <=? 299).

(** [response.text()] for a body of ASCII characters: the decoding drops a
    byte order mark (the bytes 0xEF 0xBB 0xBF) at the start of the body,
    and every byte that follows is the character of its code. *)
Definition text (r : Response) : string :=
  string_of_list_byte
    match body r with
    | Byte.xef :: Byte.xbb :: Byte.xbf :: rest => rest
    | bytes => bytes
    end.

(** The network as [downloadMemory] sees it.  An attempt issues at most one
    POST and one GET, so both are indexed by the attempt number; [inl] is a
    rejected [fetch] (a network failure). *)
Record Network := {
  post : nat -> string -> string -> JsError + Response;    (* attempt, url, body *)
  get : nat -> string -> JsError + Response;               (* attempt, url *)
}.

(** What an observer of one call sees. *)
Inductive Event :=
| EvPost (attempt : nat)                                (* exchange request sent *)
| EvGet (attempt : nat)                                 (* payload request sent *)
| EvRetry (attempt : nat) (delay : Q) (error : JsError) (* onRetry(attempt, delay, error) *)
| EvSleep (delay : Q).                                  (* await sleep(delay) *)

(** How one iteration of the attempt loop ends. *)
Inductive Iteration :=
| Return (media : DownloadedMedia)
| Throw (error : JsError)
| Continue (lastError : JsError).

Record DownloadMemoryOptions := {
  maxRetries : option nat;
  onRetry : bool;                 (* a retry callback is supplied *)
}.

Definition isDownloadError (e : JsError) : bool :=
  match e with DownloadError _ _ _ => true | _ => false end.

(** [error instanceof Error] *)
Definition isError (e : JsError) : bool :=
  match e with NonError => false | _ => true end.

Section DownloadMemory.

  Variable net : Network.

  (** The value [Math.random()] returns in the backoff computation of each
      attempt. *)
  Variable random : nat -> Q.

  Variable memory : SnapchatMemory.
  Variable options : DownloadMemoryOptions.

Definition maxRetriesOf : nat := default DEFAULT_MAX_RETRIES (maxRetries options).

(** [const [baseUrl, queryString] = url.split('?')] *)
Definition baseUrlOf (url : string) : string :=
  default EmptyString (JsString.split "?" url !! 0%nat).

Definition queryStringOf (url : string) : option string :=
  JsString.split "?" url !! 1%nat.

(** The block that the source repeats at each of its four retry sites:
    [lastError = error; delay = calculateBackoffDelay(attempt);
     if (onRetry) onRetry(attempt + 1, delay, error); await sleep(delay);
     continue]. *)
Definition scheduleRetry (attempt : nat) (error : JsError) : Iteration * list Event :=
  let delay := calculateBackoffDelay (random attempt) attempt BACKOFF_BASE_DELAY_MS in
  (Continue error,
   (if onRetry options then [EvRetry (attempt + 1) delay error] else [])
   ++ [EvSleep delay]).

(** [if (attempt < maxRetries && isRetryableError(error)) { ...retry... }
     throw error] *)
Definition retryOrThrow (attempt : nat) (error : JsError) : Iteration * list Event :=
  if (attempt <? maxRetriesOf)%nat && isRetryableError error
  then scheduleRetry attempt error
  else (Throw error, []).

(** The [try] block of one attempt. *)
Definition tryBlock (url baseUrl queryString : string) (attempt : nat)
  : Iteration * list Event :=
  match post net attempt baseUrl queryString with
  | inl thrown => (Throw thrown, [EvPost attempt])
  | inr proxyResponse =>
      if negb (ok proxyResponse) then
        let error :=
          DownloadError url (status proxyResponse) (statusText proxyResponse) in
        let '(r, ev) := retryOrThrow attempt error in
        (r, EvPost attempt :: ev)
      else
        let signedUrl := text proxyResponse in
        if negb (JsString.truthy signedUrl)
           || negb (JsString.startsWith signedUrl "http") then
          (Throw (DownloadError url 0
                    ("Invalid signed URL response: " +:+ substring 0 100 signedUrl)),
           [EvPost attempt])
        else
          match get net attempt (JsString.trim signedUrl) with
          | inl thrown => (Throw thrown, [EvPost attempt; EvGet attempt])
          | inr fileResponse =>
              if negb (ok fileResponse) then
                let error :=
                  DownloadError signedUrl (status fileResponse)
                                (statusText fileResponse) in
                let '(r, ev) := retryOrThrow attempt error in
                (r, EvPost attempt :: EvGet attempt :: ev)
              else
                let contentType :=
                  match contentTypeHeader fileResponse with
                  | Some h => if JsString.truthy h then h
                              else "application/octet-stream"
                  | None => "application/octet-stream"
                  end in
                let data := body fileResponse in
                if (length data =? 0)%nat then
                  (Throw (DownloadError signedUrl (status fileResponse)
                                        "Empty response body"),
                   [EvPost attempt; EvGet attempt])
                else
                  (Return {| data := data;
                             contentType := contentType;
                             extension :=
                               getExtensionFromContentType contentType
                                                           (mediaType memory) |},
                   [EvPost attempt; EvGet attempt])
          end
  end.

(** The [catch] clause, applied to what the [try] block threw. *)
Definition catchBlock (attempt : nat) (error : JsError) : Iteration * list Event :=
  if isDownloadError error then retryOrThrow attempt error
  else if isError error && (attempt <? maxRetriesOf)%nat && isRetryableError error
       then scheduleRetry attempt error
       else (Throw error, []).

(** One iteration of the [for] loop: the [try] block, then the [catch]
    clause when the block threw. *)
Definition iteration (url baseUrl queryString : string) (attempt : nat)
  : Iteration * list Event :=
  match tryBlock url baseUrl queryString attempt with
  | (Throw error, ev) =>
      let '(r, ev') := catchBlock attempt error in (r, ev ++ ev')
  | other => other
  end.

(** [for (let attempt = 0; attempt <= maxRetries; attempt++)], entered at
    [attempt] with [remaining] values of the counter left to run (so
    [remaining = maxRetries + 1 - attempt]); after the loop comes
    [throw lastError || new Error('Download failed after retries')]. *)
Fixpoint attemptLoop (url baseUrl queryString : string)
    (remaining attempt : nat) (lastError : option JsError)
  : (JsError + DownloadedMedia) * list Event :=
  match remaining with
  | O => (inl (default (OtherError None "Download failed after retries") lastError), [])
  | S remaining' =>
      match iteration url baseUrl queryString attempt with
      | (Return media, ev) => (inr media, ev)
      | (Throw error, ev) => (inl error, ev)
      | (Continue error, ev) =>
          let '(r, ev') :=
            attemptLoop url baseUrl queryString remaining' (S attempt) (Some error) in
          (r, ev ++ ev')
      end
  end.

(** [downloadMemory(memory, options)]: the settled promise ([inl] rejected,
    [inr] fulfilled) and the events in the order they happened. *)
Definition downloadMemory : (JsError + DownloadedMedia) * list Event :=
  let url := downloadUrl memory in
  let baseUrl := baseUrlOf url in
  match queryStringOf url with
  | Some queryString =>
      if JsString.truthy queryString then
        attemptLoop url baseUrl queryString (S maxRetriesOf) 0%nat None
      else
        (inl (DownloadError url 0
                "Invalid download URL format - missing query parameters"), [])
  | None =>
      (inl (DownloadError url 0
              "Invalid download URL format - missing query parameters"), [])
  end.

End DownloadMemory.

(* ===================================================================== *)
(** * compositor.ts: bundle extraction                                    *)
(* ===================================================================== *)

Inductive BaseMediaType := jpg | mp4.

(** An entry of the archive as [zip.getEntries()] lists it. *)
Record ZipEntry := {
  entryName : string;
  isDirectory : bool;
  getData : Buffer;
}.

Record ExtractedMediaContents := {
  baseMedia : Buffer;
  baseMediaType : BaseMediaType;
  overlay : option Buffer;
}.

(** The three variables that the loops of [extractMediaFromZip] assign. *)
Record Found := {
  foundBase : option Buffer;              (* let baseMedia: Buffer | null *)
  foundBaseType : BaseMediaType;          (* let baseMediaType *)
  foundOverlay : option Buffer;           (* let overlay: Buffer | null *)
}.

(** [!x] for a variable that holds an object or [null]. *)
Definition isNull {A : Type} (x : option A) : bool :=
  match x with None => true | Some _ => false end.

(** The body of the first [for] loop, for one entry. *)
Definition firstPassStep (st : Found) (entry : ZipEntry) : Found :=
  let name := JsString.toLowerCase (entryName entry) in
  if isDirectory entry then st
  else if JsString.endsWith name ".png"
          && (JsString.includes name "overlay" || String.eqb name "overlay.png") then
    {| foundBase := foundBase st; foundBaseType := foundBaseType st;
       foundOverlay := Some (getData entry) |}
  else if JsString.endsWith name ".jpg" || JsString.endsWith name ".jpeg" then
    {| foundBase := Some (getData entry); foundBaseType := jpg;
       foundOverlay := foundOverlay st |}
  else if JsString.endsWith name ".mp4" then
    {| foundBase := Some (getData entry); foundBaseType := mp4;
       foundOverlay := foundOverlay st |}
  else if JsString.endsWith name ".png" && isNull (foundOverlay st) then
    {| foundBase := foundBase st; foundBaseType := foundBaseType st;
       foundOverlay := Some (getData entry) |}
  else st.

Definition firstPass (entries : list ZipEntry) (mediaType : MediaType) : Found :=
  fold_left firstPassStep entries
    {| foundBase := None;
       foundBaseType := match mediaType with Image => jpg | Video => mp4 end;
       foundOverlay := None |}.

(** The second [for] loop: the first entry it accepts, with the kind it
    assigns ([break] ends the loop there). *)
Fixpoint secondPass (entries : list ZipEntry) : option (Buffer * BaseMediaType) :=
  match entries with
  | [] => None
  | entry :: rest =>
      if isDirectory entry then secondPass rest
      else
        let name := JsString.toLowerCase (entryName entry) in
        if JsString.endsWith name ".jpg" || JsString.endsWith name ".jpeg"
           || JsString.endsWith name ".png" then Some (getData entry, jpg)
        else if JsString.endsWith name ".mp4" || JsString.endsWith name ".mov"
             then Some (getData entry, mp4)
        else secondPass rest
  end.

Definition noMediaError : JsError :=
  DownloadError "zip" 0 "No media file found in ZIP archive".

(** [extractMediaFromZip(zipBuffer, mediaType)], from the entries that the
    archive reader lists for [zipBuffer].  A [Buffer] is an object, hence
    truthy whatever its length: [!baseMedia] tests for [null]. *)
Definition extractMediaFromZip (entries : list ZipEntry) (mediaType : MediaType)
  : JsError + ExtractedMediaContents :=
  let st := firstPass entries mediaType in
  let st :=
    match foundBase st with
    | Some _ => st
    | None =>
        match secondPass entries with
        | Some (b, t) =>
            {| foundBase := Some b; foundBaseType := t;
               foundOverlay := foundOverlay st |}
        | None => st
        end
    end in
  match foundBase st with
  | None => inl noMediaError
  | Some b =>
      inr {| baseMedia := b; baseMediaType := foundBaseType st;
             overlay := foundOverlay st |}
  end.

(* ===================================================================== *)
(** * manifest.ts                                                         *)
(* ===================================================================== *)

Definition MANIFEST_FILENAME : string := ".snapchat-export-manifest.json".
Definition MANIFEST_VERSION : Z := 1.

(** Time stamps are kept as the instant (epoch milliseconds) whose ISO 8601
    rendering the source stores. *)
Record ManifestEntry := {
  entryMediaId : string;
  downloadedAt : Z;
  filePath : string;
  fileSize : Z;
  entryMediaType : MediaType;
  originalDate : Z;
}.

Record ExportManifest := {
  version : Z;
  createdAt : Z;
  updatedAt : Z;
  outputDir : string;
  entries : gmap string ManifestEntry;
}.

(** [createManifest(outputDir)] at the instant [now]. *)
Definition createManifest (now : Z) (outputDir : string) : ExportManifest :=
  {| version := MANIFEST_VERSION;
     createdAt := now;
     updatedAt := now;
     outputDir := outputDir;
     entries := ∅ |}.

(** The assignment [entries[key] = entry] on the plain object [entries].
    The key [__proto__] is special: unless the object has a property of its
    own under that name (one that [JSON.parse] made from the file), the
    assignment runs the setter inherited from [Object.prototype], which
    replaces the prototype of the object and creates no property.  Every
    other key, and [__proto__] when the object has it as its own, is created
    or overwritten. *)
Definition assignEntry (key : string) (entry : ManifestEntry)
    (entries : gmap string ManifestEntry) : gmap string ManifestEntry :=
  match entries !! key with
  | Some _ => <[key := entry]> entries
  | None =>
      if String.eqb key "__proto__" then entries else <[key := entry]> entries
  end.

(** [addManifestEntry(manifest, memory, filePath, fileSize)]: the manifest
    after the assignment [manifest.entries[memory.mediaId] = entry], and the
    entry returned. *)
Definition addManifestEntry (now : Z) (manifest : ExportManifest)
    (memory : SnapchatMemory) (filePath : string) (fileSize : Z)
  : ExportManifest * ManifestEntry :=
  let entry :=
    {| entryMediaId := mediaId memory;
       downloadedAt := now;
       filePath := filePath;
       fileSize := fileSize;
       entryMediaType := mediaType memory;
       originalDate := date memory |} in
  ({| version := version manifest;
      createdAt := createdAt manifest;
      updatedAt := updatedAt manifest;
      outputDir := outputDir manifest;
      entries := assignEntry (mediaId memory) entry (entries manifest) |},
   entry).

(** [getDownloadedIds(manifest)]: [new Set(Object.keys(manifest.entries))] *)
Definition getDownloadedIds (manifest : ExportManifest) : gset string :=
  dom (entries manifest).

(** [filterPendingMemories(memories, manifest)] *)
Definition filterPendingMemories (memories : list SnapchatMemory)
    (manifest : ExportManifest) : list SnapchatMemory :=
  let downloadedIds := getDownloadedIds manifest in
  List.filter (fun memory => negb (bool_decide (mediaId memory ∈ downloadedIds)))
              memories.

(** [getManifestStats(manifest)]: total, images, videos. *)
Definition getManifestStats (manifest : ExportManifest) : nat * nat * nat :=
  let values := snd <$> map_to_list (entries manifest) in
  (length values,
   length (List.filter (fun e => bool_decide (entryMediaType e = Image)) values),
   length (List.filter (fun e => bool_decide (entryMediaType e = Video)) values)).

(** A value that [JSON.parse] returns. *)
#[warnings="-register-all"]
Inductive Json :=
| JNull
| JBool (b : bool)
| JNum (q : Q)
| JStr (s : string)
| JArr (items : list Json)
| JObj (fields : list (string * Json)).

(** Reading the property [name] of a parsed value: reading from [null]
    throws a [TypeError]; an object yields its field or [undefined]
    ([None]); the other values have no such property of their own. *)
Definition getProperty (data : Json) (name : string) : JsError + option Json :=
  match data with
  | JNull =>
      inl (OtherError None
             ("Cannot read properties of null (reading '" +:+ name +:+ "')"))
  | JObj fields => inr (snd <$> List.find (fun kv => String.eqb (fst kv) name) fields)
  | _ => inr None
  end.

(** [v === MANIFEST_VERSION] *)
Definition isManifestVersion (v : option Json) : bool :=
  match v with
  | Some (JNum q) => Qeq_bool q (inject_Z MANIFEST_VERSION)
  | _ => false
  end.

(** What [loadManifest] resolves to: a manifest made by [createManifest],
    or the parsed file returned as it is (the cast to [ExportManifest]
    checks nothing). *)
Inductive LoadedManifest :=
| Created (manifest : ExportManifest)
| FromFile (data : Json).

Section LoadManifest.

  (** [path.join] *)
  Variable join : string -> string -> string.
  (** [readFile(path, 'utf-8')]: [inl] is the rejection. *)
  Variable readFile : string -> JsError + string.
  (** [JSON.parse]: [inl] is the [SyntaxError]. *)
  Variable jsonParse : string -> JsError + Json.
  (** [String(v)], [None] being [undefined]. *)
  Variable toJsString : option Json -> string.
  (** The instant at which [new Date()] is evaluated. *)
  Variable now : Z.

(** [getManifestPath(outputDir)] *)
Definition getManifestPath (outputDir : string) : string :=
  join outputDir MANIFEST_FILENAME.

(** The [catch] clause of [loadManifest]. *)
Definition loadManifestCatch (outputDir : string) (error : JsError)
  : (JsError + LoadedManifest) * list string :=
  match error with
  | OtherError (Some code) _ =>
      if String.eqb code "ENOENT"
      then (inr (Created (createManifest now outputDir)), [])
      else (inl error, [])
  | _ => (inl error, [])
  end.

(** [loadManifest(outputDir)]: the settled promise and the lines written
    with [console.warn]. *)
Definition loadManifest (outputDir : string)
  : (JsError + LoadedManifest) * list string :=
  let manifestPath := getManifestPath outputDir in
  match readFile manifestPath with
  | inl error => loadManifestCatch outputDir error
  | inr content =>
      match jsonParse content with
      | inl error => loadManifestCatch outputDir error
      | inr data =>
          match getProperty data "version" with
          | inl error => loadManifestCatch outputDir error
          | inr v =>
              if negb (isManifestVersion v) then
                (inr (Created (createManifest now outputDir)),
                 ["Manifest version mismatch: expected " +:+ pretty MANIFEST_VERSION
                  +:+ ", got " +:+ toJsString v +:+ ". Creating new manifest."])
              else (inr (FromFile data), [])
          end
      end
  end.

End LoadManifest.

(* ===================================================================== *)
(** * compositor.ts: the worker pool                                      *)
(* ===================================================================== *)

Definition DEFAULT_DOWNLOAD_DELAY_MS : Z := 500.
Definition DEFAULT_CONCURRENCY : Z := 5.

Record BatchDownloadResult := {
  memory : SnapchatMemory;
  success : bool;
  media : option DownloadedMedia;
  error : option string;
  retries : option nat;
}.

Record DownloadOptions := {
  delay : option Z;
  concurrency : option Z;
  batchMaxRetries : option nat;       (* maxRetries *)
  onProgress : bool;                  (* a progress callback is supplied *)
  batchOnRetry : bool;                (* a retry callback is supplied *)
  signal : bool;                      (* an AbortSignal is supplied *)
}.

(** A JavaScript [Map] with string keys: the pairs in insertion order.
    [set] on a key already present replaces the value where it stands. *)
Definition JsMap (V : Type) := list (string * V).

Fixpoint mapSet {V : Type} (k : string) (v : V) (m : JsMap V) : JsMap V :=
  match m with
  | [] => [(k, v)]
  | (k', v') :: rest =>
      if String.eqb k' k then (k, v) :: rest else (k', v') :: mapSet k v rest
  end.

Fixpoint mapGet {V : Type} (k : string) (m : JsMap V) : option V :=
  match m with
  | [] => None
  | (k', v') :: rest => if String.eqb k' k then Some v' else mapGet k rest
  end.

(** Where a call of [downloadWorker] stands between two turns of the event
    loop: awaiting [downloadMemory] for the memory it took from the queue,
    in the [sleep] between two downloads, or returned.  The body of
    [downloadWorker] runs in two kinds of pieces, each without suspension:
    [loopHead], from the test of the [while] to the call of
    [downloadMemory], and [afterDownload], from the settling of that call to
    the [sleep] or to the next [loopHead]. *)
Inductive Worker :=
| Downloading (m : SnapchatMemory)
| Sleeping
| Finished.

(** The variables that [downloadMemoriesConcurrent] and its workers share,
    and what the callbacks were told. *)
Record Run := {
  queue : list SnapchatMemory;
  results : JsMap BatchDownloadResult;
  completed : nat;
  workers : list Worker;
  aborted : bool;                                          (* signal.aborted *)
  progressLog : list (nat * nat * SnapchatMemory);         (* onProgress calls *)
  retryLog : list (SnapchatMemory * nat * Q * JsError);    (* onRetry calls *)
}.

(** One turn of the event loop. *)
Inductive Turn :=
| Spawn                            (* the stagger sleep ends: the next worker is started *)
| Settle (w : nat) (net : Network) (random : nat -> Q)
                                   (* worker [w]'s download settles; [net] and
                                      [random] are what it met on the way *)
| Wake (w : nat)                   (* worker [w]'s sleep between downloads ends *)
| Abort.                           (* the signal is raised *)

(** The arguments of [onRetry] in the events of one download, in order. *)
Fixpoint retryCalls (ev : list Event) : list (nat * Q * JsError) :=
  match ev with
  | [] => []
  | EvRetry attempt delay error :: rest => (attempt, delay, error) :: retryCalls rest
  | _ :: rest => retryCalls rest
  end.

Section DownloadMemoriesConcurrent.

  Variable memories : list SnapchatMemory.
  Variable options : DownloadOptions.

Definition delayOf : Z := default DEFAULT_DOWNLOAD_DELAY_MS (delay options).
Definition concurrencyOf : Z := default DEFAULT_CONCURRENCY (concurrency options).
Definition batchMaxRetriesOf : nat :=
  default DEFAULT_MAX_RETRIES (batchMaxRetries options).

(** [Math.min(concurrency, memories.length)], as the number of times the
    body of [for (let i = 0; i < actualConcurrency; i++)] runs. *)
Definition actualConcurrency : nat :=
  Z.to_nat (Z.min concurrencyOf (Z.of_nat (length memories))).

(** The state in which the first turn finds the call: [queue = [...memories]],
    [results = new Map()], [completed = 0], no worker started. *)
Definition initialRun : Run :=
  {| queue := memories; results := []; completed := 0%nat; workers := [];
     aborted := false; progressLog := []; retryLog := [] |}.

(** [onComplete()] *)
Definition onComplete (st : Run) : Run :=
  let completed' := S (completed st) in
  {| queue := queue st; results := results st; completed := completed';
     workers := workers st; aborted := aborted st;
     progressLog :=
       (if onProgress options && (0 <? length (results st))%nat then
          match last (snd <$> results st) with
          | Some lastResult =>
              progressLog st ++ [(completed', length memories, memory lastResult)]
          | None => progressLog st
          end
        else progressLog st);
     retryLog := retryLog st |}.

(** From the test of [while (queue.length > 0)] to the next suspension:
    the worker returns when the queue is empty or the signal is raised,
    otherwise it takes the head of the queue and starts its download. *)
Definition loopHead (st : Run) : Worker * Run :=
  match queue st with
  | [] => (Finished, st)
  | m :: rest =>
      if signal options && aborted st then (Finished, st)
      else
        (Downloading m,
         {| queue := rest; results := results st; completed := completed st;
            workers := workers st; aborted := aborted st;
            progressLog := progressLog st; retryLog := retryLog st |})
  end.

Definition setWorker (w : nat) (x : Worker) (st : Run) : Run :=
  {| queue := queue st; results := results st; completed := completed st;
     workers := <[w := x]> (workers st); aborted := aborted st;
     progressLog := progressLog st; retryLog := retryLog st |}.

(** From the settling of [downloadMemory] to the next suspension:
    [results.set], [onComplete()], then the rate-limiting [sleep] or, when
    there is none, the loop head at once. *)
Definition afterDownload (w : nat) (m : SnapchatMemory) (net : Network)
    (random : nat -> Q) (st : Run) : Run :=
  let '(outcome, ev) :=
    downloadMemory net random m
      {| maxRetries := Some batchMaxRetriesOf; onRetry := true |} in
  let calls := retryCalls ev in
  let retryCount := default 0%nat ((fun c => fst (fst c)) <$> last calls) in
  let result :=
    match outcome with
    | inr downloaded =>
        {| memory := m; success := true; media := Some downloaded;
           error := None; retries := Some retryCount |}
    | inl thrown =>
        {| memory := m; success := false; media := None;
           error := Some (default "Unknown error" (errorMessage thrown));
           retries := Some retryCount |}
    end in
  let st :=
    {| queue := queue st; results := mapSet (mediaId m) result (results st);
       completed := completed st; workers := workers st; aborted := aborted st;
       progressLog := progressLog st;
       retryLog :=
         (if batchOnRetry options then
            retryLog st
            ++ ((fun c => (m, fst (fst c), snd (fst c), snd c)) <$> calls)
          else retryLog st) |} in
  let st := onComplete st in
  if (0 <? length (queue st))%nat && (0 <? delayOf) then setWorker w Sleeping st
  else let '(x, st) := loopHead st in setWorker w x st.

(** One turn, [None] when the turn cannot happen in [st]. *)
Definition turn (t : Turn) (st : Run) : option Run :=
  match t with
  | Spawn =>
      if (length (workers st) <? actualConcurrency)%nat then
        let '(x, st) := loopHead st in
        Some {| queue := queue st; results := results st; completed := completed st;
                workers := workers st ++ [x]; aborted := aborted st;
                progressLog := progressLog st; retryLog := retryLog st |}
      else None
  | Settle w net random =>
      match workers st !! w with
      | Some (Downloading m) => Some (afterDownload w m net random st)
      | _ => None
      end
  | Wake w =>
      match workers st !! w with
      | Some Sleeping => let '(x, st) := loopHead st in Some (setWorker w x st)
      | _ => None
      end
  | Abort =>
      if signal options && negb (aborted st) then
        Some {| queue := queue st; results := results st; completed := completed st;
                workers := workers st; aborted := true;
                progressLog := progressLog st; retryLog := retryLog st |}
      else None
  end.

(** The turns of a schedule, one after the other. *)
Fixpoint runTurns (ts : list Turn) (st : Run) : option Run :=
  match ts with
  | [] => Some st
  | t :: rest =>
      match turn t st with
      | Some st' => runTurns rest st'
      | None => None
      end
  end.

Definition isFinished (x : Worker) : bool :=
  match x with Finished => true | _ => false end.

(** [await Promise.all(workers)] is over: every worker was started and has
    returned. *)
Definition allSettled (st : Run) : bool :=
  (length (workers st) =? actualConcurrency)%nat && forallb isFinished (workers st).

Definition cancelledResult (m : SnapchatMemory) : BatchDownloadResult :=
  {| memory := m; success := false; media := None;
     error := Some "Download was cancelled"; retries := None |}.

(** The returned array: [memories.map((memory) => results.get(memory.mediaId)
    || { memory, success: false, error: 'Download was cancelled' })]. *)
Definition collectResults (st : Run) : list BatchDownloadResult :=
  (fun m => default (cancelledResult m) (mapGet (mediaId m) (results st)))
    <$> memories.

(** [downloadMemoriesConcurrent(memories, options)] under the schedule [ts]:
    the array it resolves to, [None] when [ts] is not a run of the call to
    its end. *)
Definition downloadMemoriesConcurrent (ts : list Turn)
  : option (list BatchDownloadResult) :=
  match runTurns ts initialRun with
  | Some st => if allSettled st then Some (collectResults st) else None
  | None => None
  end.

End DownloadMemoriesConcurrent.

(* ===================================================================== *)
(** * compositor.ts: fetching a bundle                                    *)
(* ===================================================================== *)

(** [isZipBuffer(buffer)]: the buffer starts with the bytes 0x50 0x4B. *)
Definition isZipBuffer (buffer : Buffer) : bool :=
  (2 <=? length buffer)%nat
  && match buffer !! 0%nat with Some b => Byte.eqb b Byte.x50 | None => false end
  && match buffer !! 1%nat with Some b => Byte.eqb b Byte.x4b | None => false end.

(** How one iteration of the attempt loop of [downloadMediaWithOverlay]
    ends.  [OverlayReturn] carries a promise: the loop returns the promise
    of [extractMediaFromZip] without awaiting it, so its rejection does not
    pass through the [catch] clause. *)
Inductive OverlayIteration :=
| OverlayReturn (settled : JsError + ExtractedMediaContents)
| OverlayThrow (error : JsError)
| OverlayContinue (lastError : JsError).

(** [memory.mediaDownloadUrl || memory.downloadUrl] *)
Definition overlayUrlOf (memory : SnapchatMemory) : string :=
  match mediaDownloadUrl memory with
  | Some u => if JsString.truthy u then u else downloadUrl memory
  | None => downloadUrl memory
  end.

(** [!!memory.mediaDownloadUrl] *)
Definition isMediaUrlOf (memory : SnapchatMemory) : bool :=
  match mediaDownloadUrl memory with
  | Some u => JsString.truthy u
  | None => false
  end.

Section DownloadMediaWithOverlay.

  (** [new AdmZip(zipBuffer).getEntries()]: the entries of the archive, or
      the error the archive reader throws. *)
  Variable readZip : Buffer -> JsError + list ZipEntry.

  Variable net : Network.
  Variable random : nat -> Q.
  Variable memory : SnapchatMemory.
  Variable options : DownloadMemoryOptions.

(** [extractMediaFromZip(zipBuffer, mediaType)] from the buffer: the
    archive reader, then the two passes over its entries. *)
Definition extractMediaFromZipBuffer (zipBuffer : Buffer) (mediaType : MediaType)
  : JsError + ExtractedMediaContents :=
  match readZip zipBuffer with
  | inl thrown => inl thrown
  | inr entries => extractMediaFromZip entries mediaType
  end.

(** The retry block of [downloadMediaWithOverlay], as in [downloadMemory]. *)
Definition overlayScheduleRetry (attempt : nat) (error : JsError)
  : OverlayIteration * list Event :=
  let delay := calculateBackoffDelay (random attempt) attempt BACKOFF_BASE_DELAY_MS in
  (OverlayContinue error,
   (if onRetry options then [EvRetry (attempt + 1) delay error] else [])
   ++ [EvSleep delay]).

Definition overlayRetryOrThrow (attempt : nat) (error : JsError)
  : OverlayIteration * list Event :=
  if (attempt <? maxRetriesOf options)%nat && isRetryableError error
  then overlayScheduleRetry attempt error
  else (OverlayThrow error, []).

(** The [try] block of one attempt. *)
Definition overlayTryBlock (url baseUrl queryString : string) (isMediaUrl : bool)
    (attempt : nat) : OverlayIteration * list Event :=
  match post net attempt baseUrl queryString with
  | inl thrown => (OverlayThrow thrown, [EvPost attempt])
  | inr proxyResponse =>
      if negb (ok proxyResponse) then
        let error :=
          DownloadError url (status proxyResponse) (statusText proxyResponse) in
        let '(r, ev) := overlayRetryOrThrow attempt error in
        (r, EvPost attempt :: ev)
      else
        let signedUrl := text proxyResponse in
        if negb (JsString.truthy signedUrl)
           || negb (JsString.startsWith signedUrl "http") then
          (OverlayThrow
             (DownloadError url 0
                ("Invalid signed URL response: " +:+ substring 0 100 signedUrl)),
           [EvPost attempt])
        else
          match get net attempt (JsString.trim signedUrl) with
          | inl thrown => (OverlayThrow thrown, [EvPost attempt; EvGet attempt])
          | inr fileResponse =>
              if negb (ok fileResponse) then
                let error :=
                  DownloadError signedUrl (status fileResponse)
                                (statusText fileResponse) in
                let '(r, ev) := overlayRetryOrThrow attempt error in
                (r, EvPost attempt :: EvGet attempt :: ev)
              else
                let contentType :=
                  match contentTypeHeader fileResponse with
                  | Some h => if JsString.truthy h then h
                              else "application/octet-stream"
                  | None => "application/octet-stream"
                  end in
                let data := body fileResponse in
                if (length data =? 0)%nat then
                  (OverlayThrow (DownloadError signedUrl (status fileResponse)
                                               "Empty response body"),
                   [EvPost attempt; EvGet attempt])
                else if isMediaUrl
                        && (JsString.includes contentType "zip" || isZipBuffer data)
                then
                  (OverlayReturn (extractMediaFromZipBuffer data (mediaType memory)),
                   [EvPost attempt; EvGet attempt])
                else
                  let baseMediaType :=
                    match mediaType memory with Image => jpg | Video => mp4 end in
                  (OverlayReturn (inr {| baseMedia := data;
                                         baseMediaType := baseMediaType;
                                         overlay := None |}),
                   [EvPost attempt; EvGet attempt])
          end
  end.

(** The [catch] clause. *)
Definition overlayCatchBlock (attempt : nat) (error : JsError)
  : OverlayIteration * list Event :=
  if isDownloadError error then overlayRetryOrThrow attempt error
  else if isError error && (attempt <? maxRetriesOf options)%nat
          && isRetryableError error
       then overlayScheduleRetry attempt error
       else (OverlayThrow error, []).

Definition overlayIteration (url baseUrl queryString : string) (isMediaUrl : bool)
    (attempt : nat) : OverlayIteration * list Event :=
  match overlayTryBlock url baseUrl queryString isMediaUrl attempt with
  | (OverlayThrow error, ev) =>
      let '(r, ev') := overlayCatchBlock attempt error in (r, ev ++ ev')
  | other => other
  end.

(** The [for] loop, entered at [attempt] with [remaining] values of the
    counter left to run, and the [throw] after it. *)
Fixpoint overlayAttemptLoop (url baseUrl queryString : string) (isMediaUrl : bool)
    (remaining attempt : nat) (lastError : option JsError)
  : (JsError + ExtractedMediaContents) * list Event :=
  match remaining with
  | O => (inl (default (OtherError None "Download failed after retries") lastError), [])
  | S remaining' =>
      match overlayIteration url baseUrl queryString isMediaUrl attempt with
      | (OverlayReturn settled, ev) => (settled, ev)
      | (OverlayThrow error, ev) => (inl error, ev)
      | (OverlayContinue error, ev) =>
          let '(r, ev') :=
            overlayAttemptLoop url baseUrl queryString isMediaUrl
                               remaining' (S attempt) (Some error) in
          (r, ev ++ ev')
      end
  end.

(** [downloadMediaWithOverlay(memory, options)] *)
Definition downloadMediaWithOverlay
  : (JsError + ExtractedMediaContents) * list Event :=
  let url := overlayUrlOf memory in
  let isMediaUrl := isMediaUrlOf memory in
  let baseUrl := baseUrlOf url in
  match queryStringOf url with
  | Some queryString =>
      if JsString.truthy queryString then
        overlayAttemptLoop url baseUrl queryString isMediaUrl
                           (S (maxRetriesOf options)) 0%nat None
      else
        (inl (DownloadError url 0
                "Invalid download URL format - missing query parameters"), [])
  | None =>
      (inl (DownloadError url 0
              "Invalid download URL format - missing query parameters"), [])
  end.

End DownloadMediaWithOverlay.

(* ===================================================================== *)
(** * compositor.ts: expiry of the bundle URLs of a batch                 *)
(* ===================================================================== *)

(** [checkOverlayUrlsExpired(memories)]: [memories.find((m) =>
    m.mediaDownloadUrl)] looks for the first memory whose bundle URL is
    truthy; the threshold is the default of [checkUrlExpiration]. *)
Definition checkOverlayUrlsExpired
    (newURL : string -> option (list (string * string))) (now : Z)
    (memories : list SnapchatMemory) : option UrlExpirationInfo :=
  match List.find isMediaUrlOf memories with
  | None => None
  | Some memoryWithOverlay =>
      match mediaDownloadUrl memoryWithOverlay with
      | None => None
      | Some u =>
          if negb (JsString.truthy u) then None
          else Some (checkUrlExpiration newURL now u URL_EXPIRATION_HOURS)
      end
  end.

(* ===================================================================== *)
(** * compositor.ts: the sequential download                              *)
(* ===================================================================== *)

(** [{ ...options, concurrency: 1 }] *)
Definition withConcurrency1 (options : DownloadOptions) : DownloadOptions :=
  {| delay := delay options; concurrency := Some 1;
     batchMaxRetries := batchMaxRetries options; onProgress := onProgress options;
     batchOnRetry := batchOnRetry options; signal := signal options |}.

(** [downloadMemories(memories, options)] under the schedule [ts]. *)
Definition downloadMemories (memories : list SnapchatMemory)
    (options : DownloadOptions) (ts : list Turn)
  : option (list BatchDownloadResult) :=
  downloadMemoriesConcurrent memories (withConcurrency1 options) ts.

(* ===================================================================== *)
(** * types.ts: the options and the statistics of an export               *)
(* ===================================================================== *)

Inductive ExportFormat := formatDate | formatFlat.   (* 'date' | 'flat' *)

(** [ExportOptions].  The numbers come from [parseInt]: [None] is [NaN]. *)
Module ExportOptions.
Record t := {
  outputDir : string;
  format : ExportFormat;
  dryRun : bool;
  skipExisting : bool;
  delay : option Z;
  concurrency : option Z;
  maxRetries : option Z;
  importToPhotos : bool;
  limit : option (option Z);             (* [None] is [null] *)
  skipOverlay : bool;
  preloadedMemories : option (list SnapchatMemory);
}.
End ExportOptions.

(** [ExportStats] *)
Module ExportStats.
Record t := {
  total : nat;
  downloaded : nat;
  skipped : nat;
  failed : nat;
  images : nat;
  videos : nat;
  retries : nat;
}.
End ExportStats.

(* ===================================================================== *)
(** * metadata.ts                                                         *)
(* ===================================================================== *)

(** [supportsExif(extension)] *)
Definition supportsExif (extension : string) : bool :=
  let supportedExtensions := ["jpg"; "jpeg"; "png"; "heic"; "mp4"; "mov"] in
  existsb (String.eqb (JsString.toLowerCase extension)) supportedExtensions.

(* ===================================================================== *)
(** * exporter.ts                                                         *)
(* ===================================================================== *)

(** [error instanceof Error ? error.message : 'Unknown error'] *)
Definition messageOrUnknown (error : JsError) : string :=
  default "Unknown error" (errorMessage error).

(** [error instanceof Error && error.message === 'File already exists'] *)
Definition isFileAlreadyExists (error : JsError) : bool :=
  isError error
  && match errorMessage error with
     | Some message => String.eqb message "File already exists"
     | None => false
     end.

Section Exporter.

  (** The file system and the processes beside the program. *)
  Variable World : Type.
  (** [generateOutputPath(memory, extension, options)] *)
  Variable generateOutputPath : SnapchatMemory -> string -> ExportOptions.t -> string.
  (** [path.dirname] *)
  Variable dirname : string -> string.
  (** [access(path)] resolves. *)
  Variable access : string -> World -> bool.
  (** [mkdir(path, { recursive: true })] *)
  Variable mkdir : string -> World -> (JsError + unit) * World.
  (** [writeFile(path, data)] *)
  Variable writeFile : string -> Buffer -> World -> (JsError + unit) * World.
  (** [embedMetadata(filePath, memory)] *)
  Variable embedMetadata : string -> SnapchatMemory -> World -> (JsError + unit) * World.

(** [fileExists(path)] *)
Definition fileExists (path : string) (w : World) : bool := access path w.

(** [ensureDir(path)] *)
Definition ensureDir (path : string) (w : World) : (JsError + unit) * World :=
  mkdir path w.

(** [saveMemory(memory, media, options)]: the settled promise, the lines
    written with [console.warn], and the world it leaves. *)
Definition saveMemory (memory : SnapchatMemory) (media : DownloadedMedia)
    (options : ExportOptions.t) (w : World)
  : (JsError + string) * list string * World :=
  let outputPath := generateOutputPath memory (extension media) options in
  if ExportOptions.skipExisting options && fileExists outputPath w then
    (inl (OtherError None "File already exists"), [], w)
  else
    match ensureDir (dirname outputPath) w with
    | (inl error, w) => (inl error, [], w)
    | (inr _, w) =>
        match writeFile outputPath (data media) w with
        | (inl error, w) => (inl error, [], w)
        | (inr _, w) =>
            if supportsExif (extension media) then
              match embedMetadata outputPath memory w with
              | (inl error, w) =>
                  (inr outputPath,
                   ["Warning: Could not embed metadata for " +:+ outputPath +:+ ": "
                    +:+ messageOrUnknown error],
                   w)
              | (inr _, w) => (inr outputPath, [], w)
              end
            else (inr outputPath, [], w)
        end
    end.

(** What [processDownloadResults] has at hand between two results: the
    statistics, the lines written with [console.error] and [console.warn],
    and the world. *)
Record Processing := {
  stats : ExportStats.t;
  errorLines : list string;
  warnLines : list string;
  world : World;
}.

(** The body of [for (const result of results)]. *)
Definition processResult (options : ExportOptions.t) (st : Processing)
    (result : BatchDownloadResult) : Processing :=
  let s := stats st in
  match (if success result then media result else None) with
  | None =>
      {| stats :=
           {| ExportStats.total := ExportStats.total s;
              ExportStats.downloaded := ExportStats.downloaded s;
              ExportStats.skipped := ExportStats.skipped s;
              ExportStats.failed := S (ExportStats.failed s);
              ExportStats.images := ExportStats.images s;
              ExportStats.videos := ExportStats.videos s;
              ExportStats.retries := ExportStats.retries s |};
         errorLines := errorLines st; warnLines := warnLines st; world := world st |}
  | Some media =>
      match saveMemory (memory result) media options (world st) with
      | (inr _, warned, w) =>
          {| stats :=
               {| ExportStats.total := ExportStats.total s;
                  ExportStats.downloaded := S (ExportStats.downloaded s);
                  ExportStats.skipped := ExportStats.skipped s;
                  ExportStats.failed := ExportStats.failed s;
                  ExportStats.images :=
                    match mediaType (memory result) with
                    | Image => S (ExportStats.images s)
                    | Video => ExportStats.images s
                    end;
                  ExportStats.videos :=
                    match mediaType (memory result) with
                    | Image => ExportStats.videos s
                    | Video => S (ExportStats.videos s)
                    end;
                  ExportStats.retries := ExportStats.retries s |};
             errorLines := errorLines st; warnLines := warnLines st ++ warned;
             world := w |}
      | (inl error, warned, w) =>
          if isFileAlreadyExists error then
            {| stats :=
                 {| ExportStats.total := ExportStats.total s;
                    ExportStats.downloaded := ExportStats.downloaded s;
                    ExportStats.skipped := S (ExportStats.skipped s);
                    ExportStats.failed := ExportStats.failed s;
                    ExportStats.images := ExportStats.images s;
                    ExportStats.videos := ExportStats.videos s;
                    ExportStats.retries := ExportStats.retries s |};
               errorLines := errorLines st; warnLines := warnLines st ++ warned;
               world := w |}
          else
            {| stats :=
                 {| ExportStats.total := ExportStats.total s;
                    ExportStats.downloaded := ExportStats.downloaded s;
                    ExportStats.skipped := ExportStats.skipped s;
                    ExportStats.failed := S (ExportStats.failed s);
                    ExportStats.images := ExportStats.images s;
                    ExportStats.videos := ExportStats.videos s;
                    ExportStats.retries := ExportStats.retries s |};
               errorLines :=
                 errorLines st
                 ++ ["Error saving " +:+ mediaId (memory result) +:+ ": "
                     +:+ messageOrUnknown error];
               warnLines := warnLines st ++ warned;
               world := w |}
      end
  end.

(** [processDownloadResults(results, options)] in the world [w]. *)
Definition processDownloadResults (results : list BatchDownloadResult)
    (options : ExportOptions.t) (w : World) : Processing :=
  fold_left (processResult options) results
    {| stats :=
         {| ExportStats.total := length results;
            ExportStats.downloaded := 0;
            ExportStats.skipped := 0;
            ExportStats.failed := 0;
            ExportStats.images := 0;
            ExportStats.videos := 0;
            ExportStats.retries := 0 |};
       errorLines := []; warnLines := []; world := w |}.

End Exporter.

(* ===================================================================== *)
(** * manifest.ts: saving                                                 *)
(* ===================================================================== *)

Section SaveManifest.

  Variable World : Type.
  (** [path.join] *)
  Variable join : string -> string -> string.
  (** [JSON.stringify(manifest, null, 2)] *)
  Variable stringify : ExportManifest -> string.
  (** [writeFile(path, content, 'utf-8')] *)
  Variable writeTextFile : string -> string -> World -> (JsError + unit) * World.
  (** The instant that [new Date()] reads. *)
  Variable clock : World -> Z.

(** [saveManifest(manifest)]: the manifest after the assignment to
    [updatedAt], the settled promise, and the world. *)
Definition saveManifest (manifest : ExportManifest) (w : World)
  : ExportManifest * (JsError + unit) * World :=
  let manifestPath := join (outputDir manifest) MANIFEST_FILENAME in
  let manifest :=
    {| version := version manifest; createdAt := createdAt manifest;
       updatedAt := clock w; outputDir := outputDir manifest;
       entries := entries manifest |} in
  let content := stringify manifest in
  let '(settled, w) := writeTextFile manifestPath content w in
  (manifest, settled, w).

End SaveManifest.

(* ===================================================================== *)
(** * compositor.ts: compositing                                          *)
(* ===================================================================== *)

(** [CompositeResult] has the three fields of [DownloadedMedia]. *)
Definition CompositeResult : Type := DownloadedMedia.

(** What compositing rejects with: a [CompositeError], or another value
    (what [mkdtemp] rejects with, before the [try] block of
    [compositeVideo]). *)
Inductive CompositeFailure :=
| CompositeError (mediaType : MediaType) (message : string)
| OtherFailure (error : JsError).

Section CompositeMedia.

  Variable World : Type.
  (** [compositeImage(baseImage, overlay)], [compositeVideo(baseVideo, overlay)] *)
  Variable compositeImage :
    Buffer -> Buffer -> World -> (CompositeFailure + CompositeResult) * World.
  Variable compositeVideo :
    Buffer -> Buffer -> World -> (CompositeFailure + CompositeResult) * World.

(** [compositeMedia(baseMedia, overlay, mediaType)] *)
Definition compositeMedia (baseMedia : Buffer) (overlay : option Buffer)
    (mediaType : MediaType) (w : World)
  : (CompositeFailure + CompositeResult) * World :=
  match overlay with
  | None =>
      match mediaType with
      | Image =>
          (inr {| data := baseMedia; contentType := "image/jpeg"; extension := "jpg" |},
           w)
      | Video =>
          (inr {| data := baseMedia; contentType := "video/mp4"; extension := "mp4" |},
           w)
      end
  | Some overlay =>
      match mediaType with
      | Image => compositeImage baseMedia overlay w
      | Video => compositeVideo baseMedia overlay w
      end
  end.

End CompositeMedia.

(* ===================================================================== *)
(** * cli.ts: processing one memory                                       *)
(* ===================================================================== *)

(** What [downloadMemory] and [downloadMediaWithOverlay] do for [url] when
    the body of their loop never runs: the check of the URL, then
    [throw lastError || new Error('Download failed after retries')]. *)
Definition neverAttempted {A : Type} (url : string) : (JsError + A) * list Event :=
  match queryStringOf url with
  | Some queryString =>
      if JsString.truthy queryString then
        (inl (OtherError None "Download failed after retries"), [])
      else
        (inl (DownloadError url 0
                "Invalid download URL format - missing query parameters"), [])
  | None =>
      (inl (DownloadError url 0
              "Invalid download URL format - missing query parameters"), [])
  end.

(** A download called with [{ maxRetries: options.maxRetries, onRetry }],
    [maxRetries] being what [parseInt] gave: with [NaN] or a negative number
    the test [attempt <= maxRetries] fails at once. *)
Definition withMaxRetries {A : Type} (maxRetries : option Z) (url : string)
    (call : DownloadMemoryOptions -> (JsError + A) * list Event)
  : (JsError + A) * list Event :=
  match maxRetries with
  | Some n =>
      if 0 <=? n then call {| maxRetries := Some (Z.to_nat n); onRetry := true |}
      else neverAttempted url
  | None => neverAttempted url
  end.

Definition extensionOfBase (t : BaseMediaType) : string :=
  match t with jpg => "jpg" | mp4 => "mp4" end.






Section ProcessMemory.

  Variable World : Type.
  Variable readZip : Buffer -> JsError + list ZipEntry.
  Variable compositeImage :
    Buffer -> Buffer -> World -> (CompositeFailure + CompositeResult) * World.
  Variable compositeVideo :
    Buffer -> Buffer -> World -> (CompositeFailure + CompositeResult) * World.
  Variable generateOutputPath : SnapchatMemory -> string -> ExportOptions.t -> string.
  Variable dirname : string -> string.
  Variable access : string -> World -> bool.
  Variable mkdir : string -> World -> (JsError + unit) * World.
  Variable writeFile : string -> Buffer -> World -> (JsError + unit) * World.
  Variable embedMetadata : string -> SnapchatMemory -> World -> (JsError + unit) * World.
  Variable join : string -> string -> string.
  Variable stringify : ExportManifest -> string.
  Variable writeTextFile : string -> string -> World -> (JsError + unit) * World.
  Variable clock : World -> Z.

  Variable options : ExportOptions.t.

  (** What the two downloads of one call meet: the network and the values
      of [Math.random()], for the bundle and for the regular download. *)
  Variable bundleNet : Network.
  Variable bundleRandom : nat -> Q.
  Variable net : Network.
  Variable random : nat -> Q.

(** [await downloadMemory(memory, { maxRetries: options.maxRetries, onRetry })] *)
Definition regularDownload (memory : SnapchatMemory)
  : (JsError + DownloadedMedia) * list Event :=
  withMaxRetries (ExportOptions.maxRetries options) (downloadUrl memory)
                 (downloadMemory net random memory).

(** The first statement of the [try] block of [processMemory], which
    assigns [media]: the outcome, the events of the downloads, and the
    world after compositing. *)
Definition obtainMedia (memory : SnapchatMemory) (w : World)
  : (JsError + DownloadedMedia) * list Event * World :=
  if isMediaUrlOf memory && negb (ExportOptions.skipOverlay options) then
    match withMaxRetries (ExportOptions.maxRetries options) (overlayUrlOf memory)
                         (downloadMediaWithOverlay readZip bundleNet bundleRandom memory)
    with
    | (inr extracted, ev) =>
        match compositeMedia World compositeImage compositeVideo
                             (baseMedia extracted) (overlay extracted)
                             (mediaType memory) w with
        | (inr composited, w) =>
            (inr {| data := data composited; contentType := contentType composited;
                    extension := extension composited |}, ev, w)
        | (inl compError, w) =>
            (inr {| data := baseMedia extracted;
                    contentType :=
                      match mediaType memory with
                      | Image => "image/jpeg"
                      | Video => "video/mp4"
                      end;
                    extension := extensionOfBase (baseMediaType extracted) |}, ev, w)
        end
    | (inl overlayError, ev) =>
        let '(settled, ev') := regularDownload memory in
        (settled, ev ++ ev', w)
    end
  else
    let '(settled, ev) := regularDownload memory in
    (settled, ev, w).



End ProcessMemory.

(* ===================================================================== *)
(** * cli.ts: what is left to download                                    *)
(* ===================================================================== *)

(** [array.slice(0, end)] for an integer [end]: a negative [end] counts
    from the end of the array. *)
Definition sliceFromStart {A : Type} (final : Z) (l : list A) : list A :=
  let len := Z.of_nat (length l) in
  let k := if final <? 0 then Z.max (len + final) 0 else Z.min final len in
  take (Z.to_nat k) l.

(** The value of [pendingMemories] in [runExport] once the manifest is
    loaded and the limit applied: [filterPendingMemories(memories,
    manifest)], then [if (options.limit && options.limit <
    pendingMemories.length) pendingMemories = pendingMemories.slice(0,
    options.limit)].  [null], [NaN] and 0 are falsy. *)
Definition pendingMemoriesOf (memories : list SnapchatMemory)
    (manifest : ExportManifest) (options : ExportOptions.t) : list SnapchatMemory :=
  let pendingMemories := filterPendingMemories memories manifest in
  match ExportOptions.limit options with
  | Some (Some limit) =>
      if negb (limit =? 0) && (limit <? Z.of_nat (length pendingMemories))
      then sliceFromStart limit pendingMemories
      else pendingMemories
  | _ => pendingMemories
  end.

(* ===================================================================== *)
(** * parser.ts: the identity of a memory                                 *)
(* ===================================================================== *)

(** [ToInt32]: the integer of the signed 32-bit range congruent to [z]
    modulo 2^32; the result of [<<] and of [&]. *)
Definition toInt32 (z : Z) : Z := (z + 2 ^ 31) mod 2 ^ 32 - 2 ^ 31.

(** [hash << 5] *)
Definition shiftLeft5 (hash : Z) : Z := toInt32 (Z.shiftl (toInt32 hash) 5).

(** The body of the loop: [char = url.charCodeAt(i); hash = (hash << 5) -
    hash + char; hash = hash & hash]. *)
Definition hashStep (hash : Z) (c : ascii) : Z :=
  let char := Z.of_nat (nat_of_ascii c) in
  let hash := shiftLeft5 hash - hash + char in
  toInt32 hash.

Definition hexDigit (d : Z) : ascii :=
  match d with
  | 0 => "0" | 1 => "1" | 2 => "2" | 3 => "3" | 4 => "4" | 5 => "5" | 6 => "6"
  | 7 => "7" | 8 => "8" | 9 => "9" | 10 => "a" | 11 => "b" | 12 => "c"
  | 13 => "d" | 14 => "e" | _ => "f"
  end%char.

(** The digits of [n] in base 16 before [acc], [fuel] digits at most. *)
Fixpoint hexDigits (fuel : nat) (n : Z) (acc : string) : string :=
  match fuel with
  | O => acc
  | S fuel' =>
      let acc := String (hexDigit (n mod 16)) acc in
      if n / 16 =? 0 then acc else hexDigits fuel' (n / 16) acc
  end.

(** [n.toString(16)] for an integer [0 <= n < 2^32]. *)
Definition toString16 (n : Z) : string := hexDigits 8 n "".

Section ExtractMediaId.

  (** [new URL(url)], as for [checkUrlExpiration]. *)
  Variable newURL : string -> option (list (string * string)).

(** The fallback of [extractMediaId]: the identity made from the hash of
    the URL. *)
Definition mediaIdFromHash (url : string) : string :=
  let hash := fold_left hashStep (list_ascii_of_string url) 0 in
  toString16 (Z.abs hash).

(** [extractMediaId(url)] *)
Definition extractMediaId (url : string) : string :=
  match newURL url with
  | Some searchParams =>
      match searchParamsGet searchParams "mid" with
      | Some mid => if JsString.truthy mid then mid else mediaIdFromHash url
      | None => mediaIdFromHash url
      end
  | None => mediaIdFromHash url                     (* catch *)
  end.

End ExtractMediaId.

(* ===================================================================== *)
(** * parser.ts: the entries of the export                                *)
(* ===================================================================== *)




Section ParseMemories.

  (** [parseEntry(entry)]: the memory, or what it throws. *)
  Variable parseEntry : Json -> JsError + SnapchatMemory.



End ParseMemories.

(* ===================================================================== *)
(** * cli.ts: the workers of [downloadWithProgress]                       *)
(* ===================================================================== *)

(** The queue and the workers of [downloadWithProgress] between two turns
    of the event loop, and the memories that [processMemory] was called
    with so far, in the order of the calls.  A worker is awaiting
    [processMemory] ([Downloading]), in its [sleep], or returned.
    [processMemory] catches what its downloads and its saves throw, so the
    promise a worker awaits resolves. *)
Record CliRun := {
  cliQueue : list SnapchatMemory;
  cliWorkers : list Worker;
  processed : list SnapchatMemory;
}.

Inductive CliTurn :=
| CliSpawn               (* the stagger sleep ends: the next worker is started *)
| CliSettle (w : nat)    (* worker [w]'s call of [processMemory] resolves *)
| CliWake (w : nat).     (* worker [w]'s sleep ends *)

Section DownloadWithProgress.

  Variable memories : list SnapchatMemory.
  Variable options : ExportOptions.t.

(** [Math.min(options.concurrency, memories.length)], as the number of
    times the body of [for (let i = 0; i < actualConcurrency; i++)] runs:
    none when the concurrency is [NaN]. *)
Definition cliActualConcurrency : nat :=
  match ExportOptions.concurrency options with
  | Some concurrency => Z.to_nat (Z.min concurrency (Z.of_nat (length memories)))
  | None => 0%nat
  end.

Definition cliInitialRun : CliRun :=
  {| cliQueue := memories; cliWorkers := []; processed := [] |}.

(** From the test of [while (queue.length > 0)] to the call of
    [processMemory]. *)
Definition workerLoop (st : CliRun) : Worker * CliRun :=
  match cliQueue st with
  | [] => (Finished, st)
  | memory :: rest =>
      (Downloading memory,
       {| cliQueue := rest; cliWorkers := cliWorkers st;
          processed := processed st ++ [memory] |})
  end.

Definition cliSetWorker (w : nat) (x : Worker) (st : CliRun) : CliRun :=
  {| cliQueue := cliQueue st; cliWorkers := <[w := x]> (cliWorkers st);
     processed := processed st |}.

(** One turn, [None] when the turn cannot happen in [st]. *)
Definition cliTurn (t : CliTurn) (st : CliRun) : option CliRun :=
  match t with
  | CliSpawn =>
      if (length (cliWorkers st) <? cliActualConcurrency)%nat then
        let '(x, st) := workerLoop st in
        Some {| cliQueue := cliQueue st; cliWorkers := cliWorkers st ++ [x];
                processed := processed st |}
      else None
  | CliSettle w =>
      match cliWorkers st !! w with
      | Some (Downloading _) =>
          if (0 <? length (cliQueue st))%nat then Some (cliSetWorker w Sleeping st)
          else let '(x, st) := workerLoop st in Some (cliSetWorker w x st)
      | _ => None
      end
  | CliWake w =>
      match cliWorkers st !! w with
      | Some Sleeping => let '(x, st) := workerLoop st in Some (cliSetWorker w x st)
      | _ => None
      end
  end.

Fixpoint cliRunTurns (ts : list CliTurn) (st : CliRun) : option CliRun :=
  match ts with
  | [] => Some st
  | t :: rest =>
      match cliTurn t st with
      | Some st' => cliRunTurns rest st'
      | None => None
      end
  end.

(** [await Promise.all(workers)] is over. *)
Definition cliAllSettled (st : CliRun) : bool :=
  (length (cliWorkers st) =? cliActualConcurrency)%nat
  && forallb isFinished (cliWorkers st).

End DownloadWithProgress.

(* ===================================================================== *)
(** * Vocabulary of the statements                                        *)
(* ===================================================================== *)

(** [t] occurs in [s]: some characters, then [t], then some more. *)
Definition occursIn (t s : string) : Prop :=
  exists before after, s = before +:+ t +:+ after.

(** [s] ends with [t]. *)
Definition hasSuffix (t s : string) : Prop :=
  exists before, s = before +:+ t.

(** The statuses that the backoff policy retries. *)
Definition retryableStatus (statusCode : Z) : Prop :=
  statusCode = 408 \/ statusCode = 429 \/ statusCode = 500 \/
  statusCode = 502 \/ statusCode = 503 \/ statusCode = 504.

(** The message, whatever its letter case, names a failure of the network
    layer: the network itself, a timeout, a connection reset, a connection
    refused or a socket. *)
Definition indicatesNetworkFailure (message : string) : Prop :=
  exists marker,
    marker ∈ ["network"; "timeout"; "econnreset"; "econnrefused"; "socket"]
    /\ occursIn marker (JsString.toLowerCase message).

(** The age in hours of a stamp [timestamp] at the instant [now]. *)
Definition ageInHours (now timestamp : Z) : Q :=
  (inject_Z (now - timestamp) / inject_Z (1000 * 60 * 60))%Q.

(** What attempt number [attempt] of [downloadMemory] comes to, apart from
    any retry: the media when the descriptor URL carries a query payload and
    both requests succeed, otherwise the error the attempt fails with. *)
Definition attemptOutcome (net : Network) (memory : SnapchatMemory) (attempt : nat)
  : JsError + DownloadedMedia :=
  let url := downloadUrl memory in
  let baseUrl := baseUrlOf url in
  let missingQuery :=
    DownloadError url 0 "Invalid download URL format - missing query parameters" in
  match queryStringOf url with
  | None => inl missingQuery
  | Some queryString =>
      if negb (JsString.truthy queryString) then inl missingQuery
      else
        match post net attempt baseUrl queryString with
        | inl thrown => inl thrown
        | inr proxyResponse =>
            if negb (ok proxyResponse) then
              inl (DownloadError url (status proxyResponse) (statusText proxyResponse))
            else
              let signedUrl := text proxyResponse in
              if negb (JsString.truthy signedUrl)
                 || negb (JsString.startsWith signedUrl "http") then
                inl (DownloadError url 0
                       ("Invalid signed URL response: " +:+ substring 0 100 signedUrl))
              else
                match get net attempt (JsString.trim signedUrl) with
                | inl thrown => inl thrown
                | inr fileResponse =>
                    if negb (ok fileResponse) then
                      inl (DownloadError signedUrl (status fileResponse)
                                         (statusText fileResponse))
                    else if (length (body fileResponse) =? 0)%nat then
                      inl (DownloadError signedUrl (status fileResponse)
                                         "Empty response body")
                    else
                      let contentType :=
                        match contentTypeHeader fileResponse with
                        | Some h => if JsString.truthy h then h
                                    else "application/octet-stream"
                        | None => "application/octet-stream"
                        end in
                      inr {| data := body fileResponse;
                             contentType := contentType;
                             extension :=
                               getExtensionFromContentType contentType
                                                           (mediaType memory) |}
                end
        end
  end.

Definition isPost (e : Event) : bool :=
  match e with EvPost _ => true | _ => false end.

(** The number of attempts in a trace: each attempt starts with its
    exchange request. *)
Definition attemptsMade (ev : list Event) : nat := length (List.filter isPost ev).

(** An exchange endpoint that answers every request with 503, and a memory
    to fetch from it. *)
Definition always503 : Network :=
  let unavailable :=
    {| status := 503; statusText := "Service Unavailable";
       contentTypeHeader := None; body := [] |} in
  {| post := fun _ _ _ => inr unavailable; get := fun _ _ => inr unavailable |}.

Definition someMemory : SnapchatMemory :=
  {| date := 0; mediaType := Image; location := None;
     downloadUrl := "https://app.snapchat.com/dmd/memories?mid=a1";
     mediaDownloadUrl := None; mediaId := "a1" |}.

(** The name, in lower case, ends with an extension that one of the two
    passes accepts for the base asset. *)
Definition usableName (name : string) : Prop :=
  hasSuffix ".jpg" name \/ hasSuffix ".jpeg" name \/ hasSuffix ".png" name
  \/ hasSuffix ".mp4" name \/ hasSuffix ".mov" name.

(** A file of the container that can serve as base asset. *)
Definition usableEntry (entry : ZipEntry) : Prop :=
  isDirectory entry = false
  /\ usableName (JsString.toLowerCase (entryName entry)).

Definition fileEntry (name : string) (content : Buffer) : ZipEntry :=
  {| entryName := name; isDirectory := false; getData := content |}.

(** The identity of [memory] is not a key of the manifest's entries. *)
Definition pending (manifest : ExportManifest) (memory : SnapchatMemory) : Prop :=
  entries manifest !! mediaId memory = None.

#[global] Instance pending_dec manifest memory : Decision (pending manifest memory).
Proof. unfold pending. apply _. Defined.

(** The parsed [version] is the number 1. *)
Definition isVersion1 (v : option Json) : Prop :=
  exists q, v = Some (JNum q) /\ (q == 1)%Q.

(** The weight of a worker in the measure of a run: the number of turns it
    can still take without taking a memory from the queue. *)
Definition workerWeight (x : Worker) : nat :=
  match x with Downloading _ => 2 | Sleeping => 1 | Finished => 0 end.

(** A bound on the number of turns left to a run: each worker still to be
    started counts for one, each queued memory for three, each started
    worker for its weight, and the raising of the signal for one. *)
Definition turnsLeft (memories : list SnapchatMemory) (options : DownloadOptions)
    (st : Run) : nat :=
  (actualConcurrency memories options - length (workers st))
  + 3 * length (queue st)
  + sum_list_with workerWeight (workers st)
  + (if signal options && negb (aborted st) then 1 else 0).

(** The memories that left the queue are [taken]; every download under way
    and every recorded result is for one of them, and a result is recorded
    under the identity of its memory. *)
Definition consistent (memories : list SnapchatMemory) (st : Run)
    (taken : list SnapchatMemory) : Prop :=
  memories = taken ++ queue st
  /\ Forall (fun x => forall m, x = Downloading m -> m ∈ taken) (workers st)
  /\ Forall (fun kr => mediaId (memory kr.2) = kr.1 /\ memory kr.2 ∈ taken)
            (results st).

Definition isSleep (e : Event) : bool :=
  match e with EvSleep _ => true | _ => false end.

Definition isGet (e : Event) : bool :=
  match e with EvGet _ => true | _ => false end.

(** The number of backoff sleeps in a trace. *)
Definition sleepsMade (ev : list Event) : nat := length (List.filter isSleep ev).

(** The number of payload requests in a trace. *)
Definition getsMade (ev : list Event) : nat := length (List.filter isGet ev).

(** The outcome ends the call: a success, or an error that is not retried. *)
Definition finalOutcome (o : JsError + DownloadedMedia) : Prop :=
  match o with
  | inr _ => True
  | inl e => isRetryableError e = false
  end.

(** The descriptor URL carries a query payload. *)
Definition hasQueryPayload (url : string) : Prop :=
  exists queryString,
    queryStringOf url = Some queryString /\ JsString.truthy queryString = true.

(** [memory] with its descriptor URL replaced by the URL that
    [downloadMediaWithOverlay] fetches. *)
Definition bundleDescriptor (memory : SnapchatMemory) : SnapchatMemory :=
  {| date := date memory; mediaType := mediaType memory;
     location := location memory; downloadUrl := overlayUrlOf memory;
     mediaDownloadUrl := mediaDownloadUrl memory; mediaId := mediaId memory |}.

(** The payload is taken for an archive: the memory has a bundle URL, and
    the content type names [zip] or the payload starts with the archive
    signature. *)
Definition takenForZip (memory : SnapchatMemory) (downloaded : DownloadedMedia) : bool :=
  isMediaUrlOf memory
  && (JsString.includes (contentType downloaded) "zip" || isZipBuffer (data downloaded)).

(** What [downloadMediaWithOverlay] makes of a fetched payload. *)
Definition unpack (readZip : Buffer -> JsError + list ZipEntry)
    (memory : SnapchatMemory) (downloaded : DownloadedMedia)
  : JsError + ExtractedMediaContents :=
  if takenForZip memory downloaded then
    extractMediaFromZipBuffer readZip (data downloaded) (mediaType memory)
  else
    inr {| baseMedia := data downloaded;
           baseMediaType := match mediaType memory with Image => jpg | Video => mp4 end;
           overlay := None |}.

(** The extensions that [getExtensionFromContentType] can answer. *)
Definition knownExtensions : list string :=
  ["jpg"; "png"; "gif"; "webp"; "heic"; "mp4"; "mov"; "webm"].

(** The words that [getExtensionFromContentType] looks for. *)
Definition contentTypeWords : list string :=
  ["jpeg"; "jpg"; "png"; "gif"; "webp"; "heic"; "mp4"; "quicktime"; "mov"; "webm"].

(** An exchange endpoint that answers with a signed URL, and a store that
    serves one byte of JPEG for it. *)
Definition servesJpeg : Network :=
  {| post := fun _ _ _ =>
       inr {| status := 200; statusText := "OK"; contentTypeHeader := None;
              body := list_byte_of_string "https://cdn.example/a1" |};
     get := fun _ _ =>
       inr {| status := 200; statusText := "OK";
              contentTypeHeader := Some "image/jpeg"; body := [Byte.xff] |} |}.

Definition isDownloading (x : Worker) : bool :=
  match x with Downloading _ => true | _ => false end.

(** The number of downloads under way. *)
Definition downloadsUnderWay (st : Run) : nat :=
  length (List.filter isDownloading (workers st)).

(** Every memory that left the queue is being downloaded or has a result
    recorded under its identity; the completed downloads and those under
    way add up to the memories taken; every recorded result carries a retry
    count; and a worker has returned only if the queue was empty or the
    signal raised. *)
Definition accounted (memories : list SnapchatMemory) (options : DownloadOptions)
    (st : Run) (taken : list SnapchatMemory) : Prop :=
  memories = taken ++ queue st
  /\ Forall (fun m => Downloading m ∈ workers st \/ mediaId m ∈ (results st).*1) taken
  /\ (completed st + downloadsUnderWay st = length taken)%nat
  /\ Forall (fun kr => is_Some (retries kr.2)) (results st)
  /\ (Finished ∈ workers st -> queue st = [] \/ signal options && aborted st = true).

(** The memories whose download is under way, in the order of the workers. *)
Definition underWay (ws : list Worker) : list SnapchatMemory :=
  omap (fun x => match x with Downloading m => Some m | _ => None end) ws.

(** What the progress callback is told when the memories of [done] complete
    one after the other, out of [total]. *)
Definition progressOf (total : nat) (done : list SnapchatMemory)
  : list (nat * nat * SnapchatMemory) :=
  imap (fun i m => (S i, total, m)) done.

(** A run with at most one worker: the memories are [done], then the one
    under way if any, then the queue; the results were recorded for the
    memories of [done], in this order, and the progress callback was told of
    each of them in turn. *)
Definition inOrder (memories : list SnapchatMemory) (options : DownloadOptions)
    (st : Run) (done : list SnapchatMemory) : Prop :=
  memories = done ++ underWay (workers st) ++ queue st
  /\ (length (workers st) <= 1)%nat
  /\ Forall2 (fun kr m => kr.1 = mediaId m /\ memory kr.2 = m) (results st) done
  /\ completed st = length done
  /\ progressLog st
     = if onProgress options then progressOf (length memories) done else [].

(** The three numbers of [getManifestStats]. *)
Definition statsTotal (s : nat * nat * nat) : nat := s.1.1.
Definition statsImages (s : nat * nat * nat) : nat := s.1.2.
Definition statsVideos (s : nat * nat * nat) : nat := s.2.

(** 1 when the media type is [t], 0 otherwise. *)
Definition oneIf (t t' : MediaType) : nat := if bool_decide (t' = t) then 1%nat else 0%nat.

(** The error says that the file does not exist: an [Error] whose [code] is
    [ENOENT]. *)
Definition fileIsMissing (e : JsError) : Prop :=
  exists message, e = OtherError (Some "ENOENT") message.

(** What is thrown inside the [try] block of [loadManifest] for the file at
    [path]: the rejection of [readFile], the error of [JSON.parse], or the
    error of reading [version] from the parsed value. *)
Definition thrownWhileLoading (readFile : string -> JsError + string)
    (jsonParse : string -> JsError + Json) (path : string) (e : JsError) : Prop :=
  readFile path = inl e
  \/ exists content,
       readFile path = inr content
       /\ (jsonParse content = inl e
           \/ exists data,
                jsonParse content = inr data /\ getProperty data "version" = inl e).

(** The result carries a media to save: [result.success && result.media]. *)
Definition hasMedia (result : BatchDownloadResult) : bool :=
  success result && bool_decide (is_Some (media result)).



(** The exponential delay of [attempt] stays within the finite numbers of
    the code: the exponent is at most 1023, so that [Math.pow(2, attempt)] is
    a finite double, and [baseDelay * 2^attempt] is at most [2^1023], so that
    it and its sum with the jitter are finite too.  Beyond, the product is
    [Infinity] and [calculateBackoffDelay] of the code returns [NaN] as soon
    as the jitter is not positive; the rationals of the embedding follow the
    code on this range only. *)
Definition finiteBackoff (attempt : nat) (baseDelay : Q) : Prop :=
  (attempt <= 1023)%nat /\ (baseDelay * 2 ^ Z.of_nat attempt <= 2 ^ 1023)%Q.


(** The hash of the characters [l] before the wrap to 32 bits: the value of
    the polynomial with the character codes as coefficients at 31. *)
Definition polynomialHash (l : list ascii) : Z :=
  fold_left (fun acc c => 31 * acc + Z.of_nat (nat_of_ascii c)) l 0.

(** A digit of base 16 in lower case. *)
Definition isHexDigit (c : ascii) : Prop :=
  c ∈ list_ascii_of_string "0123456789abcdef".

(** A file system as a map from paths to the text of the files, for the
    statements that need one. *)
Definition TextFiles : Type := string -> option string.

Definition writeText (path content : string) (files : TextFiles)
  : (JsError + unit) * TextFiles :=
  (inr tt, fun p => if String.eqb p path then Some content else files p).

Definition readText (files : TextFiles) (path : string) : JsError + string :=
  match files path with
  | Some content => inr content
  | None => inl (OtherError (Some "ENOENT") "no such file or directory")
  end.

(** A bound on the number of turns left to the workers of the command
    line. *)
Definition cliTurnsLeft (memories : list SnapchatMemory) (options : ExportOptions.t)
    (st : CliRun) : nat :=
  (cliActualConcurrency memories options - length (cliWorkers st))
  + 3 * length (cliQueue st)
  + sum_list_with workerWeight (cliWorkers st).

(** The memories are those processed so far, then the queue; no more
    workers than allowed were started; and a worker has returned only when
    the queue was empty. *)
Definition cliInvariant (memories : list SnapchatMemory) (options : ExportOptions.t)
    (st : CliRun) : Prop :=
  memories = processed st ++ cliQueue st
  /\ (length (cliWorkers st) <= cliActualConcurrency memories options)%nat
  /\ (Finished ∈ cliWorkers st -> cliQueue st = []).

(** A result as a worker records it for at most [maxRetries] retries: a
    count of retries within the limit, and either a success with a media
    that is not empty and no error message, or a failure with an error
    message and no media. *)
Definition recordedResult (maxRetries : nat) (r : BatchDownloadResult) : Prop :=
  (exists k, retries r = Some k /\ (k <= maxRetries)%nat)
  /\ match media r with
     | Some downloaded =>
         success r = true /\ error r = None /\ data downloaded <> []
     | None => success r = false /\ is_Some (error r)
     end.

(** The result [r] is what a worker records when the download of the
    memory of [r] settles: the number of the last retry callback as count
    of retries (0 when there was none), and either the media downloaded, or
    the message of the error thrown ([Unknown error] for a thrown value that
    is not an [Error]). *)
Definition recordsOutcome (maxRetries : nat) (r : BatchDownloadResult) : Prop :=
  exists (net : Network) (random : nat -> Q),
    let settled :=
      downloadMemory net random (memory r)
                     {| maxRetries := Some maxRetries; onRetry := true |} in
    retries r
    = Some (default 0%nat ((fun c => fst (fst c)) <$> last (retryCalls (snd settled))))
    /\ match fst settled with
       | inr downloaded =>
           success r = true /\ media r = Some downloaded /\ error r = None
       | inl thrown =>
           success r = false /\ media r = None
           /\ error r = Some (default "Unknown error" (errorMessage thrown))
       end.

(** What the progress callback was told if it was called once for each
    recorded result, in the order of the recording, with the running
    count. *)
Definition progressOfResults (total : nat) (rs : JsMap BatchDownloadResult)
  : list (nat * nat * SnapchatMemory) :=
  imap (fun i kr => (S i, total, memory kr.2)) rs.

(** No identity is met twice among the recorded results, the downloads
    under way and the queue; as many downloads completed as results were
    recorded; and the progress callback was told of each in turn. *)
Definition reported (memories : list SnapchatMemory) (options : DownloadOptions)
    (st : Run) : Prop :=
  NoDup ((results st).*1 ++ (mediaId <$> underWay (workers st))
         ++ (mediaId <$> queue st))
  /\ completed st = length (results st)
  /\ progressLog st
     = if onProgress options then progressOfResults (length memories) (results st)
       else [].

(** The delays of the backoff sleeps of a trace, in order. *)
Fixpoint sleepDelays (ev : list Event) : list Q :=
  match ev with
  | [] => []
  | EvSleep delay :: rest => delay :: sleepDelays rest
  | _ :: rest => sleepDelays rest
  end.

(** The delays that the retry callback was told, in the order of the calls. *)
Definition toldDelays (ev : list Event) : list Q :=
  (fun c => snd (fst c)) <$> retryCalls ev.

(** From [st] to [st'] no memory left the queue and no download was
    started; the downloads under way in [st] are still under way or
    recorded, and nothing recorded was lost. *)
Definition windingDown (st st' : Run) : Prop :=
  queue st' = queue st
  /\ aborted st' = true
  /\ (forall m, Downloading m ∈ workers st' -> Downloading m ∈ workers st)
  /\ (forall m, Downloading m ∈ workers st ->
                Downloading m ∈ workers st' \/ mediaId m ∈ (results st').*1)
  /\ (forall k, k ∈ (results st).*1 -> k ∈ (results st').*1).

(* ===================================================================== *)
(** * Properties of the string primitives                                 *)
(* ===================================================================== *)

Lemma append_empty_l (s : string) : "" +:+ s = s.
Proof. reflexivity. Qed.

Lemma append_String_l (c : ascii) (s t : string) :
  String c s +:+ t = String c (s +:+ t).
Proof. reflexivity. Qed.

Lemma prefix_spec (s t : string) :
  String.prefix t s = true <-> exists after, s = t +:+ after.
Proof.
  revert s.
  induction t as [|c t IH]; intros s.
  - split; [intros _; exists s; reflexivity | destruct s; reflexivity].
  - destruct s as [|d s]; simpl.
    + split; [discriminate | intros [after H]; discriminate].
    + destruct (Ascii.ascii_dec c d) as [->|Hne].
      * rewrite IH. split; intros [after H]; exists after.
        -- now rewrite H.
        -- rewrite append_String_l in H. now inversion H.
      * split; [discriminate | intros [after H]].
        rewrite append_String_l in H. congruence.
Qed.

Lemma startsWith_spec (s t : string) :
  JsString.startsWith s t = true <-> exists after, s = t +:+ after.
Proof. apply prefix_spec. Qed.

Lemma includes_spec (s t : string) :
  JsString.includes s t = true <-> occursIn t s.
Proof.
  unfold occursIn. induction s as [|c s IH]; cbn [JsString.includes].
  - rewrite orb_false_r, startsWith_spec. split.
    + intros [after H]. exists "", after. exact H.
    + intros (before & after & H). destruct before as [|d before].
      * eauto.
      * rewrite append_String_l in H. discriminate.
  - rewrite orb_true_iff, IH, startsWith_spec. split.
    + intros [[after H] | (before & after & H)].
      * exists "", after. exact H.
      * exists (String c before), after. now rewrite append_String_l, H.
    + intros (before & after & H). destruct before as [|d before].
      * left. eauto.
      * right. rewrite append_String_l in H. inversion H. eauto.
Qed.

Lemma endsWith_spec (s t : string) :
  JsString.endsWith s t = true <-> hasSuffix t s.
Proof.
  unfold hasSuffix. induction s as [|c s IH]; cbn [JsString.endsWith].
  - rewrite orb_false_r, String.eqb_eq. split.
    + intros <-. exists "". reflexivity.
    + intros [before H]. destruct before as [|d before].
      * auto.
      * rewrite append_String_l in H. discriminate.
  - rewrite orb_true_iff, IH, String.eqb_eq. split.
    + intros [<- | [before H]].
      * exists "". reflexivity.
      * exists (String c before). now rewrite append_String_l, H.
    + intros [before H]. destruct before as [|d before].
      * left. auto.
      * right. rewrite append_String_l in H. inversion H. eauto.
Qed.

Lemma truthy_spec (s : string) : JsString.truthy s = true <-> s <> "".
Proof.
  unfold JsString.truthy. rewrite negb_true_iff.
  destruct (String.eqb_spec s ""); split; congruence.
Qed.

(* ===================================================================== *)
(** * Backoff policy                                                      *)
(* ===================================================================== *)

Lemma retryableStatus_spec (statusCode : Z) :
  statusCode ∈ RETRYABLE_STATUS_CODES <-> retryableStatus statusCode.
Proof.
  unfold RETRYABLE_STATUS_CODES, retryableStatus.
  rewrite !elem_of_cons, elem_of_nil. tauto.
Qed.

(** C3.  [isRetryableError] answers [true] exactly for a download error
    whose status is one of 408, 429, 500, 502, 503, 504 and for another
    error whose message names a network-layer failure; it answers [false]
    for a thrown value that is no error and, in particular, for the error of
    a malformed exchange response (status 0), of a 4xx status other than 408
    and 429, and of a zero-length body (raised with the status of a
    successful response). *)
Theorem isRetryableError_exactly :
  (forall e,
      isRetryableError e = true <->
      match e with
      | DownloadError _ statusCode _ => retryableStatus statusCode
      | OtherError _ message => indicatesNetworkFailure message
      | NonError => False
      end)
  /\ (forall url message, isRetryableError (DownloadError url 0 message) = false)
  /\ (forall url statusCode message,
         400 <= statusCode <= 499 -> statusCode <> 408 -> statusCode <> 429 ->
         isRetryableError (DownloadError url statusCode message) = false)
  /\ (forall url statusCode message,
         200 <= statusCode <= 299 ->
         isRetryableError (DownloadError url statusCode message) = false).
Proof.
  assert (Hdl : forall url statusCode message,
             isRetryableError (DownloadError url statusCode message) = true
             <-> retryableStatus statusCode).
  { intros. simpl. rewrite bool_decide_eq_true. apply retryableStatus_spec. }
  split; [|split; [|split]].
  - intros [url statusCode message | code message |]; [apply Hdl | | simpl; split; [discriminate | tauto]].
    unfold isRetryableError, indicatesNetworkFailure.
    rewrite !orb_true_iff, !includes_spec. split.
    + intros [[[[H|H]|H]|H]|H]; eexists; (split; [|exact H]);
        rewrite !elem_of_cons; tauto.
    + intros (marker & Hin & H).
      rewrite !elem_of_cons, elem_of_nil in Hin.
      destruct Hin as [->|[->|[->|[->|[->|[]]]]]]; tauto.
  - intros. apply not_true_is_false. rewrite Hdl. unfold retryableStatus. lia.
  - intros. apply not_true_is_false. rewrite Hdl. unfold retryableStatus. lia.
  - intros. apply not_true_is_false. rewrite Hdl. unfold retryableStatus. lia.
Qed.

Section BackoffBounds.

  Local Open Scope Q_scope.

Lemma exponentialDelay_pos (attempt : nat) (baseDelay : Q) :
  0 < baseDelay -> 0 < baseDelay * 2 ^ Z.of_nat attempt.
Proof.
  intros Hb. apply Qmult_lt_0_compat; [exact Hb|].
  apply Qpower_0_lt. reflexivity.
Qed.

Lemma jitter_range (e r : Q) :
  0 < e -> 0 <= r -> r < 1 ->
  e * (75 # 100) <= e + e * (25 # 100) * (r * 2 - 1)
  /\ e + e * (25 # 100) * (r * 2 - 1) < e * (125 # 100).
Proof.
  intros He Hr0 Hr1.
  assert (H0 : 0 <= e * r) by (apply Qmult_le_0_compat; lra).
  assert (H1 : e * r < e * 1) by (apply Qmult_lt_l; assumption).
  split; lra.
Qed.

(** C2, as the code has it.  With [Math.random()] in its range, a
    positive base delay and an exponential delay [base * 2^attempt] within
    the finite numbers of the code, the delay never exceeds the ceiling of
    30000 ms nor 125% of [base * 2^attempt], and it is at least the smaller
    of 75% of [base * 2^attempt] and the ceiling; so it lies in the band from
    75% to 125% whenever the lower end of the band is within the ceiling. *)
Theorem calculateBackoffDelay_bounds (random : Q) (attempt : nat) (baseDelay : Q) :
  0 <= random -> random < 1 -> 0 < baseDelay ->
  finiteBackoff attempt baseDelay ->
  let exponentialDelay := baseDelay * 2 ^ Z.of_nat attempt in
  let delay := calculateBackoffDelay random attempt baseDelay in
  delay <= BACKOFF_MAX_DELAY_MS
  /\ delay <= exponentialDelay * (125 # 100)
  /\ Qmin (exponentialDelay * (75 # 100)) BACKOFF_MAX_DELAY_MS <= delay
  /\ (exponentialDelay * (75 # 100) <= BACKOFF_MAX_DELAY_MS ->
      exponentialDelay * (75 # 100) <= delay).
Proof.
  intros Hr0 Hr1 Hb _ e delay.
  pose proof (exponentialDelay_pos attempt baseDelay Hb) as He.
  destruct (jitter_range e random He Hr0 Hr1) as [Hlo Hhi].
  subst delay. unfold calculateBackoffDelay. fold e.
  cbv zeta.
  split; [apply Q.le_min_r|].
  split; [apply Qle_trans with (e + e * (25 # 100) * (random * 2 - 1)); [apply Q.le_min_l | apply Qlt_le_weak; exact Hhi]|].
  split.
  - apply Q.min_le_compat_r. exact Hlo.
  - intros Hcap. apply Q.min_glb; [exact Hlo | exact Hcap].
Qed.

Lemma calculateBackoffDelay_bounds_witness :
  let exponentialDelay := 1000 * 2 ^ Z.of_nat 2 in
  let delay := calculateBackoffDelay (1 # 2) 2 1000 in
  delay <= BACKOFF_MAX_DELAY_MS
  /\ delay <= exponentialDelay * (125 # 100)
  /\ Qmin (exponentialDelay * (75 # 100)) BACKOFF_MAX_DELAY_MS <= delay
  /\ (exponentialDelay * (75 # 100) <= BACKOFF_MAX_DELAY_MS ->
      exponentialDelay * (75 # 100) <= delay).
Proof.
  apply (calculateBackoffDelay_bounds (1 # 2) 2 1000);
    [discriminate | reflexivity | reflexivity |].
  split; [lia | vm_compute; discriminate].
Defined.

(** C2 as stated fails: at attempt 6 with the base of 1000 ms the band
    starts at 48000 ms, above the ceiling, and the delay is the ceiling. *)
Lemma calculateBackoffDelay_band_fails :
  ~ (forall (random : Q) (attempt : nat) (baseDelay : Q),
        0 <= random -> random < 1 -> 0 < baseDelay ->
        baseDelay * 2 ^ Z.of_nat attempt * (75 # 100)
          <= calculateBackoffDelay random attempt baseDelay
        /\ calculateBackoffDelay random attempt baseDelay
          <= baseDelay * 2 ^ Z.of_nat attempt * (125 # 100)
        /\ calculateBackoffDelay random attempt baseDelay <= 30000).
Proof.
  intros H.
  destruct (H (1 # 2) 6%nat 1000) as (Hlo & _ & _); [discriminate | reflexivity | reflexivity |].
  vm_compute in Hlo. apply Hlo. reflexivity.
Qed.

End BackoffBounds.

(* ===================================================================== *)
(** * URL expiry                                                          *)
(* ===================================================================== *)

Section Expiry.

  Local Open Scope Q_scope.

Lemma mathRound_nearest (x : Q) :
  x - (1 # 2) < inject_Z (mathRound x) /\ inject_Z (mathRound x) <= x + (1 # 2).
Proof.
  unfold mathRound.
  pose proof (Qfloor_le (x + (1 # 2))) as Hle.
  pose proof (Qlt_floor (x + (1 # 2))) as Hlt.
  rewrite inject_Z_plus in Hlt. change (inject_Z 1) with 1 in Hlt. split; lra.
Qed.

(** C4.  [checkUrlExpiration] fails open and never throws: when the URL
    cannot be parsed, has no [ts] parameter, or has one that [parseInt]
    cannot read, the answer is not expired, age 0, no time stamp.  When
    the parameter reads as the epoch milliseconds [stamp], the answer
    carries that stamp, is expired exactly when the age in hours exceeds the
    threshold, and reports the age as a whole number of tenths of an hour
    within a twentieth of an hour of the exact age; a stamp 7 hours old
    against the threshold of 6 hours is expired with age 7.0. *)
Theorem checkUrlExpiration_fails_open
    (newURL : string -> option (list (string * string))) (now : Z)
    (url : string) (thresholdHours : Q) :
  ((forall searchParams tsParam,
       newURL url = Some searchParams ->
       searchParamsGet searchParams "ts" = Some tsParam ->
       JsString.parseInt10 tsParam = None) ->
   checkUrlExpiration newURL now url thresholdHours
   = {| isExpired := false; ageHours := 0; timestamp := None |})
  /\ (forall searchParams tsParam stamp,
         newURL url = Some searchParams ->
         searchParamsGet searchParams "ts" = Some tsParam ->
         JsString.parseInt10 tsParam = Some stamp ->
         let info := checkUrlExpiration newURL now url thresholdHours in
         timestamp info = Some stamp
         /\ (isExpired info = true <-> thresholdHours < ageInHours now stamp)
         /\ (exists tenths : Z, ageHours info * 10 == inject_Z tenths)
         /\ ageInHours now stamp - (1 # 20) < ageHours info
         /\ ageHours info <= ageInHours now stamp + (1 # 20))
  /\ (forall searchParams tsParam stamp,
         newURL url = Some searchParams ->
         searchParamsGet searchParams "ts" = Some tsParam ->
         JsString.parseInt10 tsParam = Some stamp ->
         (now - stamp = 7 * 3600000)%Z ->
         let info := checkUrlExpiration newURL now url 6 in
         isExpired info = true /\ ageHours info == 7).
Proof.
  assert (Hparsed : forall threshold searchParams tsParam stamp,
             newURL url = Some searchParams ->
             searchParamsGet searchParams "ts" = Some tsParam ->
             JsString.parseInt10 tsParam = Some stamp ->
             checkUrlExpiration newURL now url threshold
             = {| isExpired := negb (Qle_bool (ageInHours now stamp) threshold);
                  ageHours := inject_Z (mathRound (ageInHours now stamp * 10)) / 10;
                  timestamp := Some stamp |}).
  { intros threshold searchParams tsParam stamp Hu Hg Hp.
    unfold checkUrlExpiration. rewrite Hu, Hg.
    destruct (JsString.truthy tsParam) eqn:Ht.
    - simpl. rewrite Hp. reflexivity.
    - assert (tsParam = ""%string) as ->.
      { destruct (String.eqb_spec tsParam ""); [assumption|].
        apply truthy_spec in n. congruence. }
      discriminate Hp. }
  split; [|split].
  - intros Hnone. unfold checkUrlExpiration.
    destruct (newURL url) as [searchParams|] eqn:Hu; [|reflexivity].
    destruct (searchParamsGet searchParams "ts") as [tsParam|] eqn:Hg; [|reflexivity].
    rewrite (Hnone searchParams tsParam eq_refl Hg).
    destruct (negb (JsString.truthy tsParam)); reflexivity.
  - intros searchParams tsParam stamp Hu Hg Hp info. subst info.
    rewrite (Hparsed _ _ _ _ Hu Hg Hp). simpl.
    destruct (mathRound_nearest (ageInHours now stamp * 10)) as [Hlo Hhi].
    split; [reflexivity|]. split; [|split; [|split]].
    + rewrite negb_true_iff, <- not_true_iff_false, Qle_bool_iff.
      split; [apply Qnot_le_lt | apply Qlt_not_le].
    + exists (mathRound (ageInHours now stamp * 10)). field.
    + apply Qlt_shift_div_l; [reflexivity | lra].
    + apply Qle_shift_div_r; [reflexivity | lra].
  - intros searchParams tsParam stamp Hu Hg Hp Hage info. subst info.
    rewrite (Hparsed _ _ _ _ Hu Hg Hp). simpl.
    unfold ageInHours. rewrite Hage. split; reflexivity.
Qed.

End Expiry.

(* ===================================================================== *)
(** * Fetching one memory: the retry ceiling                              *)
(* ===================================================================== *)

Section RetryLoop.

  Variable net : Network.
  Variable random : nat -> Q.
  Variable memory : SnapchatMemory.
  Variable options : DownloadMemoryOptions.

Let url := downloadUrl memory.
Let baseUrl := baseUrlOf url.
Let N := maxRetriesOf options.

  Variable queryString : string.
  Hypothesis query : queryStringOf url = Some queryString.
  Hypothesis payload : JsString.truthy queryString = true.

  Local Arguments isRetryableError : simpl never.
  Local Arguments calculateBackoffDelay : simpl never.

Lemma retryCalls_app (ev ev' : list Event) :
  retryCalls (ev ++ ev') = retryCalls ev ++ retryCalls ev'.
Proof.
  induction ev as [|[] ev IH]; simpl; rewrite ?IH; reflexivity.
Qed.

Lemma attemptsMade_app (ev ev' : list Event) :
  attemptsMade (ev ++ ev') = (attemptsMade ev + attemptsMade ev')%nat.
Proof.
  unfold attemptsMade. induction ev as [|[] ev IH]; simpl; rewrite ?IH; reflexivity.
Qed.

(** The four retry sites of the source act as one: an iteration returns the
    media, or goes round again on a retryable error while retries are left,
    or throws the error of the attempt. *)
Lemma iteration_outcome (attempt : nat) :
  let '(r, ev) := iteration net random memory options url baseUrl queryString attempt in
  attemptsMade ev = 1%nat
  /\ match attemptOutcome net memory attempt with
     | inr downloaded => r = Return downloaded /\ retryCalls ev = []
     | inl e =>
         if (attempt <? N)%nat && isRetryableError e
         then r = Continue e
              /\ retryCalls ev =
                   if onRetry options
                   then [((attempt + 1)%nat,
                          calculateBackoffDelay (random attempt) attempt
                                                BACKOFF_BASE_DELAY_MS, e)]
                   else []
         else r = Throw e /\ retryCalls ev = []
     end.
Proof.
  unfold iteration, tryBlock, attemptOutcome, catchBlock, retryOrThrow, scheduleRetry,
    attemptsMade.
  fold url. fold baseUrl. rewrite query, payload. cbn [negb]. cbv iota. fold N.
  destruct (post net attempt baseUrl queryString) as [thrown|proxyResponse].
  { destruct thrown as [u c m|c m|]; simpl isDownloadError; simpl isError; cbv iota.
    - destruct ((attempt <? N)%nat && isRetryableError (DownloadError u c m));
        destruct (onRetry options); simpl; auto.
    - rewrite andb_true_l.
      destruct ((attempt <? N)%nat && isRetryableError (OtherError c m));
        destruct (onRetry options); simpl; auto.
    - rewrite !andb_false_r. simpl. auto. }
  destruct (negb (ok proxyResponse)).
  { simpl isDownloadError.
    destruct ((attempt <? N)%nat && isRetryableError _) eqn:Hr;
      simpl; [|rewrite Hr]; destruct (onRetry options); simpl; auto. }
  destruct (negb (JsString.truthy (text proxyResponse))
            || negb (JsString.startsWith (text proxyResponse) "http")).
  { simpl isDownloadError. cbv iota.
    destruct ((attempt <? N)%nat && isRetryableError _);
      destruct (onRetry options); simpl; auto. }
  destruct (get net attempt (JsString.trim (text proxyResponse))) as [thrown|fileResponse].
  { destruct thrown as [u c m|c m|]; simpl isDownloadError; simpl isError; cbv iota.
    - destruct ((attempt <? N)%nat && isRetryableError (DownloadError u c m));
        destruct (onRetry options); simpl; auto.
    - rewrite andb_true_l.
      destruct ((attempt <? N)%nat && isRetryableError (OtherError c m));
        destruct (onRetry options); simpl; auto.
    - rewrite !andb_false_r. simpl. auto. }
  destruct (negb (ok fileResponse)).
  { simpl isDownloadError.
    destruct ((attempt <? N)%nat && isRetryableError _) eqn:Hr;
      simpl; [|rewrite Hr]; destruct (onRetry options); simpl; auto. }
  destruct (length (body fileResponse) =? 0)%nat.
  { simpl isDownloadError. cbv iota.
    destruct ((attempt <? N)%nat && isRetryableError _);
      destruct (onRetry options); simpl; auto. }
  simpl. auto.
Qed.

Lemma attemptLoop_step (remaining attempt : nat) (lastError : option JsError) :
  attemptLoop net random memory options url baseUrl queryString
              (S remaining) attempt lastError
  = match iteration net random memory options url baseUrl queryString attempt with
    | (Return media, ev) => (inr media, ev)
    | (Throw error, ev) => (inl error, ev)
    | (Continue error, ev) =>
        let '(r, ev') :=
          attemptLoop net random memory options url baseUrl queryString
                      remaining (S attempt) (Some error) in
        (r, ev ++ ev')
    end.
Proof. reflexivity. Qed.

(** When every attempt from [attempt] to the last one fails with a
    retryable error, the loop makes all of them, calls back before each but
    the first, and throws the error of the last. *)
Lemma attemptLoop_exhausts (k attempt : nat) (lastError : option JsError) :
  (attempt + k = N)%nat ->
  (forall i, (attempt <= i <= N)%nat ->
             exists e, attemptOutcome net memory i = inl e
                       /\ isRetryableError e = true) ->
  exists e ev,
    attemptLoop net random memory options url baseUrl queryString
                (S k) attempt lastError = (inl e, ev)
    /\ attemptOutcome net memory N = inl e
    /\ attemptsMade ev = S k
    /\ (fun c => fst (fst c)) <$> retryCalls ev
       = if onRetry options then seq (S attempt) k else [].
Proof.
  revert attempt lastError.
  induction k as [|k IH]; intros attempt lastError Hk Hfail.
  - assert (attempt = N) as -> by lia.
    destruct (Hfail N ltac:(lia)) as (e & He & Hr).
    pose proof (iteration_outcome N) as Hit.
    rewrite attemptLoop_step.
    destruct (iteration net random memory options url baseUrl queryString N)
      as [r ev].
    destruct Hit as [Hposts Hcase]. rewrite He, Nat.ltb_irrefl in Hcase.
    destruct Hcase as [-> Hcalls].
    exists e, ev. rewrite Hcalls. repeat split; auto.
    destruct (onRetry options); reflexivity.
  - destruct (Hfail attempt ltac:(lia)) as (e & He & Hr).
    pose proof (iteration_outcome attempt) as Hit.
    rewrite attemptLoop_step.
    destruct (iteration net random memory options url baseUrl queryString attempt)
      as [r ev].
    destruct Hit as [Hposts Hcase]. rewrite He, Hr in Hcase.
    assert (Hlt : (attempt <? N)%nat = true) by (apply Nat.ltb_lt; lia).
    rewrite Hlt in Hcase. destruct Hcase as [-> Hcalls].
    destruct (IH (S attempt) (Some e) ltac:(lia)) as (e' & ev' & Hloop & Hlast & Hn & Hcb).
    { intros i Hi. apply Hfail. lia. }
    rewrite Hloop.
    exists e', (ev ++ ev'). repeat split; auto.
    + rewrite attemptsMade_app. lia.
    + rewrite retryCalls_app, fmap_app, Hcb, Hcalls.
      destruct (onRetry options); [|reflexivity].
      cbn. f_equal. lia.
Qed.

End RetryLoop.

(** C1.  With [maxRetries = N] and a retry callback, if each of the
    attempts 0..N fails with a retryable error then [downloadMemory] rejects
    with the error of attempt N, a retryable one; it has made exactly N + 1
    attempts and has called the callback exactly N times, with the numbers
    1..N. *)
Theorem downloadMemory_exhausts_retries
    (net : Network) (random : nat -> Q) (memory : SnapchatMemory) (N : nat) :
  let options := {| maxRetries := Some N; onRetry := true |} in
  (forall attempt, (attempt <= N)%nat ->
      exists e, attemptOutcome net memory attempt = inl e
                /\ isRetryableError e = true) ->
  exists e ev,
    downloadMemory net random memory options = (inl e, ev)
    /\ attemptOutcome net memory N = inl e
    /\ isRetryableError e = true
    /\ attemptsMade ev = (N + 1)%nat
    /\ length (retryCalls ev) = N
    /\ (fun c => fst (fst c)) <$> retryCalls ev = seq 1 N.
Proof.
  intros options Hfail.
  assert (Hquery : exists queryString,
             queryStringOf (downloadUrl memory) = Some queryString
             /\ JsString.truthy queryString = true).
  { destruct (Hfail 0%nat ltac:(lia)) as (e & He & Hr).
    unfold attemptOutcome in He.
    destruct (queryStringOf (downloadUrl memory)) as [queryString|];
      [|injection He as <-; discriminate Hr].
    destruct (JsString.truthy queryString) eqn:Hpayload;
      [eauto | injection He as <-; discriminate Hr]. }
  destruct Hquery as (queryString & Hq & Hpayload).
  destruct (attemptLoop_exhausts net random memory options queryString Hq Hpayload
                                 N 0 None)
    as (e & ev & Hloop & Hlast & Hn & Hcb); [reflexivity | |].
  { intros i Hi. apply Hfail. unfold maxRetriesOf in Hi. simpl in Hi. lia. }
  change (maxRetriesOf options) with N in *.
  exists e, ev. unfold downloadMemory. rewrite Hq, Hpayload.
  change (maxRetriesOf options) with N.
  repeat split; auto.
  - destruct (Hfail N ltac:(lia)) as (e' & He' & Hr). congruence.
  - lia.
  - apply (f_equal length) in Hcb. rewrite length_fmap in Hcb.
    simpl in Hcb. rewrite length_seq in Hcb. exact Hcb.
Qed.

Lemma downloadMemory_exhausts_retries_witness :
  exists e ev,
    downloadMemory always503 (fun _ => 1 # 2)%Q someMemory
                   {| maxRetries := Some 3%nat; onRetry := true |} = (inl e, ev)
    /\ attemptOutcome always503 someMemory 3 = inl e
    /\ isRetryableError e = true
    /\ attemptsMade ev = (3 + 1)%nat
    /\ length (retryCalls ev) = 3%nat
    /\ (fun c => fst (fst c)) <$> retryCalls ev = seq 1 3.
Proof.
  apply (downloadMemory_exhausts_retries always503 (fun _ => 1 # 2)%Q someMemory 3).
  intros attempt _. eexists. split; reflexivity.
Defined.


(* ===================================================================== *)
(** * Bundle extraction                                                   *)
(* ===================================================================== *)

Section Extraction.

Lemma firstPassStep_base (st : Found) (entry : ZipEntry) (b : Buffer) :
  foundBase (firstPassStep st entry) = Some b ->
  foundBase st = Some b \/ (usableEntry entry /\ b = getData entry).
Proof.
  unfold firstPassStep, usableEntry, usableName.
  destruct (isDirectory entry); [auto|].
  destruct (JsString.endsWith _ ".png" && _); [auto|].
  destruct (JsString.endsWith _ ".jpg") eqn:Hjpg.
  { apply endsWith_spec in Hjpg. simpl. intros [= <-]. auto. }
  destruct (JsString.endsWith _ ".jpeg") eqn:Hjpeg.
  { apply endsWith_spec in Hjpeg. simpl. intros [= <-]. auto 6. }
  simpl.
  destruct (JsString.endsWith _ ".mp4") eqn:Hmp4.
  { apply endsWith_spec in Hmp4. simpl. intros [= <-]. auto 8. }
  destruct (JsString.endsWith _ ".png" && _); auto.
Qed.

Lemma fold_firstPassStep_base (entries : list ZipEntry) (st : Found) (b : Buffer) :
  foundBase (fold_left firstPassStep entries st) = Some b ->
  foundBase st = Some b
  \/ exists entry, entry ∈ entries /\ usableEntry entry /\ b = getData entry.
Proof.
  revert st. induction entries as [|entry entries IH]; intros st; simpl.
  - auto.
  - intros H. destruct (IH _ H) as [H0 | (e & Hin & Hu & Hb)].
    + destruct (firstPassStep_base _ _ _ H0) as [|[Hu Hb]]; [auto|].
      right. exists entry. split; [left|]; auto.
    + right. exists e. split; [right|]; auto.
Qed.

Lemma secondPass_Some (entries : list ZipEntry) (b : Buffer) (t : BaseMediaType) :
  secondPass entries = Some (b, t) ->
  exists entry, entry ∈ entries /\ usableEntry entry /\ b = getData entry.
Proof.
  induction entries as [|entry entries IH]; simpl; [discriminate|].
  assert (Hrest : secondPass entries = Some (b, t) ->
                  exists e, e ∈ entry :: entries /\ usableEntry e /\ b = getData e).
  { intros H. destruct (IH H) as (e & Hin & Hu). exists e. split; [right|]; auto. }
  destruct (isDirectory entry) eqn:Hdir; [exact Hrest|].
  destruct (JsString.endsWith _ ".jpg") eqn:Hjpg.
  { apply endsWith_spec in Hjpg. simpl. intros [= <- <-].
    exists entry. split; [left|]. unfold usableEntry, usableName. auto. }
  destruct (JsString.endsWith _ ".jpeg") eqn:Hjpeg.
  { apply endsWith_spec in Hjpeg. simpl. intros [= <- <-].
    exists entry. split; [left|]. unfold usableEntry, usableName. auto 6. }
  destruct (JsString.endsWith _ ".png") eqn:Hpng.
  { apply endsWith_spec in Hpng. simpl. intros [= <- <-].
    exists entry. split; [left|]. unfold usableEntry, usableName. auto 7. }
  simpl.
  destruct (JsString.endsWith _ ".mp4") eqn:Hmp4.
  { apply endsWith_spec in Hmp4. simpl. intros [= <- <-].
    exists entry. split; [left|]. unfold usableEntry, usableName. auto 8. }
  destruct (JsString.endsWith _ ".mov") eqn:Hmov.
  { apply endsWith_spec in Hmov. simpl. intros [= <- <-].
    exists entry. split; [left|]. unfold usableEntry, usableName. auto 9. }
  exact Hrest.
Qed.

Lemma secondPass_None (entries : list ZipEntry) :
  secondPass entries = None ->
  forall entry, entry ∈ entries -> ~ usableEntry entry.
Proof.
  induction entries as [|entry entries IH]; simpl; intros H e Hin.
  - inversion Hin.
  - apply elem_of_cons in Hin.
    destruct (isDirectory entry) eqn:Hdir.
    { destruct Hin as [->|Hin]; [|auto].
      intros [Hd _]. congruence. }
    destruct (JsString.endsWith _ ".jpg") eqn:Hjpg; [discriminate|].
    destruct (JsString.endsWith _ ".jpeg") eqn:Hjpeg; [discriminate|].
    destruct (JsString.endsWith _ ".png") eqn:Hpng; [discriminate|].
    simpl in H.
    destruct (JsString.endsWith _ ".mp4") eqn:Hmp4; [discriminate|].
    destruct (JsString.endsWith _ ".mov") eqn:Hmov; [discriminate|].
    simpl in H.
    destruct Hin as [->|Hin]; [|auto].
    intros [_ Hu]. unfold usableName in Hu.
    rewrite <- !endsWith_spec in Hu. intuition congruence.
Qed.

(** The base asset of a successful extraction is the content of a usable
    file of the container. *)
Lemma extractMediaFromZip_base (entries : list ZipEntry) (mediaType : MediaType)
    (r : ExtractedMediaContents) :
  extractMediaFromZip entries mediaType = inr r ->
  exists entry, entry ∈ entries /\ usableEntry entry /\ baseMedia r = getData entry.
Proof.
  unfold extractMediaFromZip, firstPass.
  destruct (foundBase (fold_left _ _ _)) as [b|] eqn:Hfirst.
  - rewrite Hfirst. intros [= <-]. simpl.
    destruct (fold_firstPassStep_base _ _ _ Hfirst) as [H|H]; [discriminate | exact H].
  - destruct (secondPass entries) as [[b t]|] eqn:Hsecond; simpl.
    + intros [= <-]. simpl. eapply secondPass_Some; eauto.
    + rewrite Hfirst. discriminate.
Qed.

Lemma extractMediaFromZip_error (entries : list ZipEntry) (mediaType : MediaType)
    (e : JsError) :
  extractMediaFromZip entries mediaType = inl e ->
  e = noMediaError
  /\ foundBase (firstPass entries mediaType) = None
  /\ secondPass entries = None.
Proof.
  unfold extractMediaFromZip.
  destruct (foundBase (firstPass entries mediaType)) as [b|] eqn:Hfirst.
  - rewrite Hfirst. discriminate.
  - destruct (secondPass entries) as [[b t]|] eqn:Hsecond; simpl.
    + discriminate.
    + rewrite Hfirst. intros [= <-]. auto.
Qed.

(** C5.  Extraction is a function of the entries of the container: equal
    containers give equal results.  A container with the files
    [overlay.png] and [main.jpg], in this order, yields the content of
    [main.jpg] as a still-image base asset and the content of [overlay.png]
    as overlay; a container with the single file [clip.mp4] yields its
    content as a clip base asset and no overlay. *)
Theorem extractMediaFromZip_named_entries
    (mediaType : MediaType) (overlayData mainData clipData : Buffer) :
  extractMediaFromZip
    [fileEntry "overlay.png" overlayData; fileEntry "main.jpg" mainData] mediaType
  = inr {| baseMedia := mainData; baseMediaType := jpg;
           overlay := Some overlayData |}
  /\ extractMediaFromZip [fileEntry "clip.mp4" clipData] mediaType
     = inr {| baseMedia := clipData; baseMediaType := mp4; overlay := None |}
  /\ (forall entries entries' : list ZipEntry,
         entries = entries' ->
         extractMediaFromZip entries mediaType
         = extractMediaFromZip entries' mediaType).
Proof.
  split; [|split].
  - destruct mediaType; reflexivity.
  - destruct mediaType; reflexivity.
  - intros entries entries' ->. reflexivity.
Qed.

(** C6.  When neither pass finds a base asset, which is the case exactly
    when no file of the container has a name ending in [.jpg], [.jpeg],
    [.png], [.mp4] or [.mov] and in particular for the empty container,
    extraction throws the download error for [zip] whose message says that
    no media file was found in the archive; it returns nothing then, and it
    throws no other error. *)
Theorem extractMediaFromZip_no_media :
  (forall entries mediaType,
      foundBase (firstPass entries mediaType) = None ->
      secondPass entries = None ->
      extractMediaFromZip entries mediaType = inl noMediaError)
  /\ (forall entries mediaType,
         (forall entry, entry ∈ entries -> ~ usableEntry entry) ->
         extractMediaFromZip entries mediaType = inl noMediaError)
  /\ (forall mediaType, extractMediaFromZip [] mediaType = inl noMediaError)
  /\ (forall entries mediaType e,
         extractMediaFromZip entries mediaType = inl e ->
         e = noMediaError /\ forall entry, entry ∈ entries -> ~ usableEntry entry)
  /\ errorMessage noMediaError
     = Some "Failed to download zip: No media file found in ZIP archive (status: 0)".
Proof.
  split; [|split; [|split; [|split]]].
  - intros entries mediaType Hfirst Hsecond.
    unfold extractMediaFromZip. rewrite Hfirst, Hsecond. simpl.
    rewrite Hfirst. reflexivity.
  - intros entries mediaType Hnone.
    destruct (extractMediaFromZip entries mediaType) as [e|r] eqn:Hx.
    + apply extractMediaFromZip_error in Hx. destruct Hx as [-> _]. reflexivity.
    + apply extractMediaFromZip_base in Hx. destruct Hx as (entry & Hin & Hu & _).
      destruct (Hnone entry Hin Hu).
  - intros []; reflexivity.
  - intros entries mediaType e Hx.
    apply extractMediaFromZip_error in Hx. destruct Hx as (-> & _ & Hsecond).
    split; [reflexivity|]. apply secondPass_None. exact Hsecond.
  - reflexivity.
Qed.

(** C7, as the code has it.  When extraction succeeds, the base asset is
    the content of a file of the container (never [null]), hence non-empty
    when the files of the container are; and a result without overlay is a
    successful one. *)
Theorem extractMediaFromZip_base_is_an_entry :
  (forall entries mediaType r,
      extractMediaFromZip entries mediaType = inr r ->
      (exists entry, entry ∈ entries /\ isDirectory entry = false
                     /\ baseMedia r = getData entry)
      /\ ((forall entry, entry ∈ entries -> isDirectory entry = false ->
                         getData entry <> []) ->
          baseMedia r <> []))
  /\ (exists entries mediaType r,
         extractMediaFromZip entries mediaType = inr r /\ overlay r = None).
Proof.
  split.
  - intros entries mediaType r Hx.
    destruct (extractMediaFromZip_base _ _ _ Hx) as (entry & Hin & [Hdir _] & Hb).
    split; [eauto|]. intros Hne. rewrite Hb. auto.
  - exists [fileEntry "clip.mp4" [Byte.x00]], Video. eexists. split; reflexivity.
Qed.

(** C7 as stated fails: a container whose only file is a zero-length
    [main.jpg] is extracted with success and an empty base asset. *)
Lemma extractMediaFromZip_empty_base :
  ~ (forall entries mediaType r,
        extractMediaFromZip entries mediaType = inr r -> baseMedia r <> []).
Proof.
  intros H.
  apply (H [fileEntry "main.jpg" []] Image
           {| baseMedia := []; baseMediaType := jpg; overlay := None |});
    reflexivity.
Qed.

End Extraction.

(* ===================================================================== *)
(** * Manifest store                                                      *)
(* ===================================================================== *)

Section ManifestStore.

Lemma List_filter_filter {A : Type} (P : A -> Prop) `{forall x, Decision (P x)}
    (f : A -> bool) (l : list A) :
  (forall x, f x = true <-> P x) -> List.filter f l = filter P l.
Proof.
  intros Hf. induction l as [|x l IH]; [reflexivity|].
  simpl. rewrite filter_cons, IH.
  destruct (decide (P x)) as [Hp|Hp].
  - apply Hf in Hp. rewrite Hp. reflexivity.
  - destruct (f x) eqn:Hfx; [|reflexivity]. apply Hf in Hfx. contradiction.
Qed.

Lemma filterPendingMemories_filter
    (memories : list SnapchatMemory) (manifest : ExportManifest) :
  filterPendingMemories memories manifest = filter (pending manifest) memories.
Proof.
  unfold filterPendingMemories, getDownloadedIds.
  apply List_filter_filter. intros memory. unfold pending.
  rewrite negb_true_iff, bool_decide_eq_false, not_elem_of_dom. reflexivity.
Qed.

(** An assignment under an identity other than [__proto__] is an insertion. *)
Lemma assignEntry_insert (key : string) (entry : ManifestEntry)
    (entries : gmap string ManifestEntry) :
  key <> "__proto__" -> assignEntry key entry entries = <[key := entry]> entries.
Proof.
  intros Hkey. unfold assignEntry.
  destruct (entries !! key); [reflexivity|].
  destruct (String.eqb key "__proto__") eqn:Heq; [|reflexivity].
  apply String.eqb_eq in Heq. contradiction.
Qed.

(** C8.  [filterPendingMemories] keeps exactly the memories whose
    identity is not a key of the manifest's entries, in the order of the
    input; filtering its result again against the same manifest changes
    nothing; and after [addManifestEntry] for a memory [X] whose identity is
    not [__proto__] the pending list is the former one without the memories
    that have the identity of [X]: [X] is not pending any more, and a memory
    of another identity is pending exactly when it was. *)
Theorem filterPendingMemories_pending :
  (forall memories manifest,
      filterPendingMemories memories manifest = filter (pending manifest) memories)
  /\ (forall memories manifest memory,
         memory ∈ filterPendingMemories memories manifest
         <-> memory ∈ memories /\ entries manifest !! mediaId memory = None)
  /\ (forall memories manifest,
         sublist (filterPendingMemories memories manifest) memories)
  /\ (forall memories manifest,
         filterPendingMemories (filterPendingMemories memories manifest) manifest
         = filterPendingMemories memories manifest)
  /\ (forall now memories manifest X filePath fileSize,
         mediaId X <> "__proto__" ->
         let manifest' := fst (addManifestEntry now manifest X filePath fileSize) in
         filterPendingMemories memories manifest'
         = filter (fun memory => mediaId memory <> mediaId X)
                  (filterPendingMemories memories manifest)
         /\ (X ∉ filterPendingMemories memories manifest')
         /\ (forall memory,
                mediaId memory <> mediaId X ->
                (memory ∈ filterPendingMemories memories manifest'
                 <-> memory ∈ filterPendingMemories memories manifest))).
Proof.
  split; [exact filterPendingMemories_filter|].
  split; [|split; [|split]].
  - intros. rewrite filterPendingMemories_filter, list_elem_of_filter.
    unfold pending. tauto.
  - intros. rewrite filterPendingMemories_filter. apply sublist_filter.
  - intros. rewrite !filterPendingMemories_filter.
    rewrite list_filter_filter. apply list_filter_iff. tauto.
  - intros now memories manifest X filePath fileSize Hproto manifest'.
    assert (Heq : filterPendingMemories memories manifest'
                  = filter (fun memory => mediaId memory <> mediaId X)
                           (filterPendingMemories memories manifest)).
    { rewrite !filterPendingMemories_filter, list_filter_filter.
      apply list_filter_iff. intros memory. unfold pending. subst manifest'. simpl.
      rewrite (assignEntry_insert _ _ _ Hproto).
      rewrite lookup_insert_None. split; intros [? ?]; split; auto. }
    split; [exact Heq|]. rewrite Heq. split.
    + rewrite list_elem_of_filter. tauto.
    + intros memory Hne. rewrite list_elem_of_filter. tauto.
Qed.

(** C8 as stated fails in two ways.  The manifest is keyed by identity, so
    recording [X] also removes another memory that shares the identity of
    [X]; and recording a memory whose identity is [__proto__] in a new
    manifest creates no entry, so that the memory stays pending. *)
Lemma filterPendingMemories_not_X_alone :
  (let X := someMemory in
   let X' :=
     {| date := 1; mediaType := Video; location := None;
        downloadUrl := "https://app.snapchat.com/dmd/memories?mid=a1&v=2";
        mediaDownloadUrl := None; mediaId := "a1" |} in
   let manifest := createManifest 0 "out" in
   let manifest' := fst (addManifestEntry 1 manifest X "out/a1.jpg" 1) in
   X' <> X
   /\ filterPendingMemories [X; X'] manifest = [X; X']
   /\ filterPendingMemories [X; X'] manifest' = [])
  /\ (let X :=
        {| date := 0; mediaType := Image; location := None;
           downloadUrl := "https://app.snapchat.com/dmd/memories?mid=__proto__";
           mediaDownloadUrl := None; mediaId := "__proto__" |} in
      let manifest := createManifest 0 "out" in
      let manifest' := fst (addManifestEntry 1 manifest X "out/p.jpg" 1) in
      entries manifest' = entries manifest
      /\ filterPendingMemories [X] manifest' = [X]).
Proof.
  split.
  - split; [discriminate|]. split; vm_compute; reflexivity.
  - split; vm_compute; reflexivity.
Qed.

(** C9.  When the manifest file does not exist ([readFile] rejects with
    the code [ENOENT]), [loadManifest] resolves to a new manifest: version
    1, no entries, the given output directory, and no warning.  When the
    file parses to a value whose [version] is not the number 1, it resolves
    to the same new manifest and writes one warning; the entries of the file
    are not carried over. *)
Theorem loadManifest_fresh
    (join : string -> string -> string)
    (readFile : string -> JsError + string)
    (jsonParse : string -> JsError + Json)
    (toJsString : option Json -> string)
    (now : Z) (dir : string) :
  let fresh :=
    {| version := 1; createdAt := now; updatedAt := now; outputDir := dir;
       entries := ∅ |} in
  (forall message,
      readFile (join dir ".snapchat-export-manifest.json")
      = inl (OtherError (Some "ENOENT") message) ->
      loadManifest join readFile jsonParse toJsString now dir
      = (inr (Created fresh), []))
  /\ (forall content data v,
         readFile (join dir ".snapchat-export-manifest.json") = inr content ->
         jsonParse content = inr data ->
         getProperty data "version" = inr v ->
         ~ isVersion1 v ->
         loadManifest join readFile jsonParse toJsString now dir
         = (inr (Created fresh),
            ["Manifest version mismatch: expected 1, got " +:+ toJsString v
             +:+ ". Creating new manifest."]))
  /\ (forall content oldEntries,
         readFile (join dir ".snapchat-export-manifest.json") = inr content ->
         jsonParse content
         = inr (JObj [("version", JNum 2); ("outputDir", JStr dir);
                      ("entries", JObj oldEntries)]) ->
         exists warning,
           loadManifest join readFile jsonParse toJsString now dir
           = (inr (Created fresh), [warning])).
Proof.
  intros fresh.
  assert (Hmismatch : forall content data v,
             readFile (join dir ".snapchat-export-manifest.json") = inr content ->
             jsonParse content = inr data ->
             getProperty data "version" = inr v ->
             ~ isVersion1 v ->
             loadManifest join readFile jsonParse toJsString now dir
             = (inr (Created fresh),
                ["Manifest version mismatch: expected 1, got " +:+ toJsString v
                 +:+ ". Creating new manifest."])).
  { intros content data v Hread Hparse Hv Hne.
    unfold loadManifest, getManifestPath, MANIFEST_FILENAME.
    rewrite Hread, Hparse, Hv.
    assert (isManifestVersion v = false) as ->; [|reflexivity].
    apply not_true_is_false. intros Hv1. apply Hne.
    destruct v as [[]|]; try discriminate.
    simpl in Hv1. apply Qeq_bool_iff in Hv1. eexists. split; [reflexivity|exact Hv1]. }
  split; [|split].
  - intros message Hread.
    unfold loadManifest, getManifestPath, MANIFEST_FILENAME. rewrite Hread. reflexivity.
  - exact Hmismatch.
  - intros content oldEntries Hread Hparse. eexists.
    apply (Hmismatch content _ (Some (JNum 2)) Hread Hparse); [reflexivity|].
    intros (q & [= <-] & Hq). discriminate Hq.
Qed.

End ManifestStore.

(* ===================================================================== *)
(** * The worker pool: one result per memory, in input order              *)
(* ===================================================================== *)

Section JsMapFacts.

  Context {V : Type}.

Lemma mapGet_Some (k : string) (v : V) (m : JsMap V) :
  mapGet k m = Some v -> (k, v) ∈ m.
Proof.
  induction m as [|[k' v'] m IH]; simpl; [discriminate|].
  destruct (String.eqb_spec k' k) as [->|Hne].
  - intros [= ->]. left.
  - intros H. right. auto.
Qed.

Lemma mapGet_None (k : string) (m : JsMap V) :
  mapGet k m = None <-> k ∉ m.*1.
Proof.
  induction m as [|[k' v'] m IH]; simpl.
  - split; [intros _; apply not_elem_of_nil | reflexivity].
  - rewrite not_elem_of_cons.
    destruct (String.eqb_spec k' k) as [->|Hne].
    + split; [discriminate | intros [? _]; congruence].
    + rewrite IH. split; [intros ?; split; [congruence | assumption] | tauto].
Qed.

Lemma Forall_mapSet (P : string * V -> Prop) (k : string) (v : V) (m : JsMap V) :
  P (k, v) -> Forall P m -> Forall P (mapSet k v m).
Proof.
  intros Hkv. induction 1 as [|[k' v'] m Hx Hm IH]; simpl.
  - repeat constructor. exact Hkv.
  - destruct (String.eqb k' k); constructor; auto.
Qed.

End JsMapFacts.

Section WorkerPool.

  Variable memories : list SnapchatMemory.
  Variable options : DownloadOptions.

  Local Abbreviation turn := (turn memories options).
  Local Abbreviation runTurns := (runTurns memories options).
  Local Abbreviation loopHead := (loopHead options).
  Local Abbreviation onComplete := (onComplete memories options).
  Local Abbreviation afterDownload := (afterDownload memories options).
  Local Abbreviation allSettled := (allSettled memories options).
  Local Abbreviation collectResults := (collectResults memories).
  Local Abbreviation initialRun := (initialRun memories).
  Local Abbreviation actualConcurrency := (actualConcurrency memories options).
  Local Abbreviation turnsLeft := (turnsLeft memories options).
  Local Abbreviation consistent := (consistent memories).

(** The loop head either ends the worker and leaves the run as it is, or
    takes the head of the queue and changes nothing else. *)
Lemma loopHead_cases (st : Run) :
  loopHead st = (Finished, st)
  \/ exists m rest,
       queue st = m :: rest
       /\ loopHead st
          = (Downloading m,
             {| queue := rest; results := results st; completed := completed st;
                workers := workers st; aborted := aborted st;
                progressLog := progressLog st; retryLog := retryLog st |}).
Proof.
  unfold loopHead. destruct (queue st) as [|m rest]; [auto|].
  destruct (signal options && aborted st); [auto|]. right. eauto.
Qed.

Lemma sum_list_insert (l : list Worker) (w : nat) (old x : Worker) :
  l !! w = Some old ->
  (sum_list_with workerWeight (<[w := x]> l) + workerWeight old
   = sum_list_with workerWeight l + workerWeight x)%nat.
Proof.
  revert w. induction l as [|y l IH]; intros [|w]; csimpl; try discriminate.
  - intros [= ->]. lia.
  - intros H. specialize (IH w H). lia.
Qed.

Lemma sum_list_snoc (l : list Worker) (x : Worker) :
  sum_list_with workerWeight (l ++ [x])
  = (sum_list_with workerWeight l + workerWeight x)%nat.
Proof. rewrite sum_list_with_app. simpl. lia. Qed.

(** Every turn uses up some of the turns left. *)
Lemma turn_decreases (t : Turn) (st st' : Run) :
  turn t st = Some st' -> (turnsLeft st' < turnsLeft st)%nat.
Proof.
  unfold turnsLeft. destruct t as [|w net random|w|]; simpl.
  - destruct (Nat.ltb_spec (length (workers st)) actualConcurrency) as [Hlt|];
      [|discriminate].
    destruct (loopHead_cases st) as [-> | (m & rest & Hq & ->)];
      intros [= <-]; simpl; rewrite length_app, sum_list_snoc; simpl.
    + lia.
    + rewrite Hq. simpl. lia.
  - destruct (workers st !! w) as [[m| |]|] eqn:Hw; try discriminate.
    intros [= <-]. unfold afterDownload.
    destruct (downloadMemory _ _ _ _) as [outcome ev].
    remember (onComplete _) as st1 eqn:E.
    assert (H1 : queue st1 = queue st /\ workers st1 = workers st
                 /\ aborted st1 = aborted st) by (rewrite E; simpl; auto).
    clear E. destruct H1 as (Hq1 & Hw1 & Ha1).
    destruct ((0 <? length (queue st1))%nat && (0 <? delayOf options)).
    + simpl. rewrite length_insert, Hq1, Hw1, Ha1.
      pose proof (sum_list_insert _ _ _ Sleeping Hw). simpl in *. lia.
    + destruct (loopHead_cases st1) as [-> | (m' & rest & Hq & ->)]; simpl;
        rewrite length_insert, Hw1, ?Ha1.
      * pose proof (sum_list_insert _ _ _ Finished Hw). rewrite Hq1. simpl in *. lia.
      * pose proof (sum_list_insert _ _ _ (Downloading m') Hw).
        rewrite <- Hq1, Hq. simpl in *. lia.
  - destruct (workers st !! w) as [[m| |]|] eqn:Hw; try discriminate.
    destruct (loopHead_cases st) as [-> | (m' & rest & Hq & ->)];
      intros [= <-]; simpl; rewrite length_insert.
    + pose proof (sum_list_insert _ _ _ Finished Hw). simpl in *. lia.
    + pose proof (sum_list_insert _ _ _ (Downloading m') Hw).
      rewrite Hq. simpl in *. lia.
  - destruct (signal options); simpl; [|discriminate].
    destruct (aborted st); simpl; [discriminate|].
    intros [= <-]. simpl. lia.
Qed.

Lemma turn_workers (t : Turn) (st st' : Run) :
  turn t st = Some st' ->
  (length (workers st) <= actualConcurrency)%nat ->
  (length (workers st') <= actualConcurrency)%nat.
Proof.
  destruct t as [|w net random|w|]; simpl.
  - destruct (Nat.ltb_spec (length (workers st)) actualConcurrency) as [Hlt|];
      [|discriminate].
    destruct (loopHead_cases st) as [-> | (m & rest & Hq & ->)];
      intros [= <-] _; simpl; rewrite length_app; simpl; lia.
  - destruct (workers st !! w) as [[m| |]|] eqn:Hw; try discriminate.
    intros [= <-]. unfold afterDownload.
    destruct (downloadMemory _ _ _ _) as [outcome ev].
    remember (onComplete _) as st1 eqn:E.
    assert (Hw1 : workers st1 = workers st) by (rewrite E; reflexivity).
    clear E.
    destruct ((0 <? length (queue st1))%nat && (0 <? delayOf options)).
    + simpl. rewrite length_insert, Hw1. auto.
    + destruct (loopHead_cases st1) as [-> | (m' & rest & Hq & ->)]; simpl;
        rewrite length_insert, Hw1; auto.
  - destruct (workers st !! w) as [[m| |]|] eqn:Hw; try discriminate.
    destruct (loopHead_cases st) as [-> | (m' & rest & Hq & ->)];
      intros [= <-]; simpl; rewrite length_insert; auto.
  - destruct (signal options && negb (aborted st)); [|discriminate].
    intros [= <-]. auto.
Qed.

Lemma unfinished_worker (l : list Worker) :
  forallb isFinished l = false ->
  exists w x, l !! w = Some x /\ isFinished x = false.
Proof.
  induction l as [|y l IH]; simpl; [discriminate|].
  destruct (isFinished y) eqn:Hy; simpl.
  - intros H. destruct (IH H) as (w & x & Hw & Hx). exists (S w), x. auto.
  - intros _. exists 0%nat, y. auto.
Qed.

(** As long as the call has not come to its end, some turn can happen
    (each download settles, each sleep ends). *)
Lemma turn_possible (st : Run) :
  (length (workers st) <= actualConcurrency)%nat ->
  allSettled st = false ->
  exists t st', turn t st = Some st'.
Proof.
  intros Hle Hns. unfold allSettled in Hns.
  destruct (Nat.eqb_spec (length (workers st)) actualConcurrency) as [Heq|Hne].
  - simpl in Hns.
    destruct (unfinished_worker _ Hns) as (w & x & Hw & Hx).
    destruct x as [m| |]; [| |discriminate].
    + exists (Settle w always503 (fun _ => 0%Q)). simpl. rewrite Hw. eauto.
    + exists (Wake w). simpl. rewrite Hw.
      destruct (loopHead st). eauto.
  - exists Spawn. simpl.
    destruct (Nat.ltb_spec (length (workers st)) actualConcurrency); [|lia].
    destruct (loopHead st). eauto.
Qed.

Lemma runTurns_app (ts ts' : list Turn) (st : Run) :
  runTurns (ts ++ ts') st = runTurns ts st ≫= runTurns ts'.
Proof.
  revert st. induction ts as [|t ts IH]; intros st; simpl; [reflexivity|].
  destruct (turn t st); simpl; auto.
Qed.

(** A run has at most as many turns as its first state has turns left. *)
Lemma runTurns_bounded (ts : list Turn) (st st' : Run) :
  runTurns ts st = Some st' ->
  (length ts + turnsLeft st' <= turnsLeft st)%nat.
Proof.
  revert st. induction ts as [|t ts IH]; intros st; simpl.
  - intros [= ->]. lia.
  - destruct (turn t st) as [st1|] eqn:Ht; [|discriminate].
    intros H. apply IH in H. apply turn_decreases in Ht. lia.
Qed.

Lemma runTurns_workers (ts : list Turn) (st st' : Run) :
  runTurns ts st = Some st' ->
  (length (workers st) <= actualConcurrency)%nat ->
  (length (workers st') <= actualConcurrency)%nat.
Proof.
  revert st. induction ts as [|t ts IH]; intros st; simpl.
  - intros [= ->]. auto.
  - destruct (turn t st) as [st1|] eqn:Ht; [|discriminate].
    intros H Hle. apply (IH _ H). eapply turn_workers; eauto.
Qed.

(** Every state of a run can be continued to the end of the call. *)
Lemma run_completes (st : Run) :
  (length (workers st) <= actualConcurrency)%nat ->
  exists ts st', runTurns ts st = Some st' /\ allSettled st' = true.
Proof.
  remember (turnsLeft st) as n eqn:Hn. revert st Hn.
  induction n as [n IH] using lt_wf_ind. intros st -> Hle.
  destruct (allSettled st) eqn:Hs.
  - exists [], st. auto.
  - destruct (turn_possible st Hle Hs) as (t & st1 & Ht).
    destruct (IH (turnsLeft st1) (turn_decreases _ _ _ Ht) st1 eq_refl)
      as (ts & st' & Hrun & Hend).
    { eapply turn_workers; eauto. }
    exists (t :: ts), st'. simpl. rewrite Ht. auto.
Qed.

(** What the settling of a download does: it records a result for the
    memory under its identity, then suspends the worker in its sleep or
    passes through the loop head. *)
Lemma afterDownload_cases (w : nat) (m : SnapchatMemory) (net : Network)
    (random : nat -> Q) (st : Run) :
  exists r st1,
    memory r = m
    /\ queue st1 = queue st
    /\ workers st1 = workers st
    /\ results st1 = mapSet (mediaId m) r (results st)
    /\ (afterDownload w m net random st = setWorker w Sleeping st1
        \/ exists x st2,
             loopHead st1 = (x, st2)
             /\ afterDownload w m net random st = setWorker w x st2).
Proof.
  unfold afterDownload.
  destruct (downloadMemory _ _ _ _) as [outcome ev].
  match goal with
  | |- context [mapSet (mediaId m) ?r (results st)] => exists r
  end.
  match goal with
  | |- context [if _ then setWorker w Sleeping ?s else _] => exists s
  end.
  split; [destruct outcome; reflexivity|].
  repeat (split; [reflexivity|]).
  destruct (_ && _); [left; reflexivity|].
  right. destruct (loopHead _) as [x st2]. eauto.
Qed.

Lemma consistent_same (st st' : Run) (taken : list SnapchatMemory) :
  queue st' = queue st -> workers st' = workers st -> results st' = results st ->
  consistent st taken -> consistent st' taken.
Proof. unfold consistent. intros -> -> ->. auto. Qed.

Lemma loopHead_consistent (st st' : Run) (x : Worker) (taken : list SnapchatMemory) :
  consistent st taken ->
  loopHead st = (x, st') ->
  exists taken',
    consistent st' taken' /\ forall m, x = Downloading m -> m ∈ taken'.
Proof.
  intros (Hmem & Hworkers & Hresults) Hhead.
  destruct (loopHead_cases st) as [H | (m & rest & Hq & H)];
    rewrite H in Hhead; injection Hhead as <- <-.
  - exists taken. split; [split; auto | discriminate].
  - exists (taken ++ [m]). split; [|intros ? [= <-]; set_solver].
    split; [|split]; simpl.
    + rewrite Hmem, Hq, <- app_assoc. reflexivity.
    + eapply Forall_impl; [exact Hworkers|]. simpl. intros y Hy m' ->.
      apply elem_of_app. left. auto.
    + eapply Forall_impl; [exact Hresults|]. simpl. intros kr [? ?].
      split; [assumption|]. apply elem_of_app. left. assumption.
Qed.

Lemma setWorker_consistent (w : nat) (x : Worker) (st : Run)
    (taken : list SnapchatMemory) :
  consistent st taken ->
  (forall m, x = Downloading m -> m ∈ taken) ->
  consistent (setWorker w x st) taken.
Proof.
  intros (Hmem & Hworkers & Hresults) Hx. split; [|split]; simpl; auto.
  destruct (decide (w < length (workers st))%nat).
  - apply Forall_insert; auto.
  - rewrite list_insert_ge by lia. auto.
Qed.

Lemma turn_consistent (t : Turn) (st st' : Run) (taken : list SnapchatMemory) :
  turn t st = Some st' ->
  consistent st taken ->
  exists taken', consistent st' taken'.
Proof.
  intros Ht Hc. destruct t as [|w net random|w|]; simpl in Ht.
  - destruct (length (workers st) <? actualConcurrency)%nat; [|discriminate].
    destruct (loopHead st) as [x st1] eqn:Hhead. injection Ht as <-.
    destruct (loopHead_consistent _ _ _ _ Hc Hhead) as (taken' & (Hm & Hw & Hr) & Hx).
    exists taken'. split; [|split]; simpl; auto.
    apply Forall_app. split; [assumption|]. repeat constructor. assumption.
  - destruct (workers st !! w) as [[m| |]|] eqn:Hw; try discriminate.
    injection Ht as <-.
    destruct (afterDownload_cases w m net random st)
      as (r & st1 & Hr & Hq1 & Hw1 & Hres1 & Hcase).
    assert (Hm : m ∈ taken).
    { destruct Hc as (_ & Hworkers & _).
      rewrite Forall_lookup in Hworkers. exact (Hworkers w _ Hw m eq_refl). }
    assert (Hc1 : consistent st1 taken).
    { destruct Hc as (Hmem & Hworkers & Hresults).
      split; [|split]; rewrite ?Hq1, ?Hw1, ?Hres1; auto.
      apply Forall_mapSet; [|assumption]. simpl. rewrite Hr. auto. }
    destruct Hcase as [-> | (x & st2 & Hhead & ->)].
    + exists taken. apply setWorker_consistent; [assumption | discriminate].
    + destruct (loopHead_consistent _ _ _ _ Hc1 Hhead) as (taken' & Hc2 & Hx).
      exists taken'. apply setWorker_consistent; assumption.
  - destruct (workers st !! w) as [[m| |]|] eqn:Hw; try discriminate.
    destruct (loopHead st) as [x st1] eqn:Hhead. injection Ht as <-.
    destruct (loopHead_consistent _ _ _ _ Hc Hhead) as (taken' & Hc1 & Hx).
    exists taken'. apply setWorker_consistent; assumption.
  - destruct (signal options && negb (aborted st)); [|discriminate].
    injection Ht as <-. exists taken. exact Hc.
Qed.

Lemma runTurns_consistent (ts : list Turn) (st st' : Run) (taken : list SnapchatMemory) :
  runTurns ts st = Some st' ->
  consistent st taken ->
  exists taken', consistent st' taken'.
Proof.
  revert st taken. induction ts as [|t ts IH]; intros st taken; simpl.
  - intros [= ->]. eauto.
  - destruct (turn t st) as [st1|] eqn:Ht; [|discriminate].
    intros H Hc. destruct (turn_consistent _ _ _ _ Ht Hc) as [taken1 Hc1]. eauto.
Qed.

Lemma initialRun_consistent : consistent initialRun [].
Proof. split; [reflexivity | split; constructor]. Qed.

Lemma fmap_fixes {A : Type} (f : A -> A) (l : list A) :
  (forall x, x ∈ l -> f x = x) -> f <$> l = l.
Proof.
  induction l as [|x l IH]; intros H; csimpl; [reflexivity|].
  rewrite H by left. rewrite IH; [reflexivity|]. intros y Hy. apply H. right. exact Hy.
Qed.

Lemma NoDup_fmap_eq {A B : Type} (f : A -> B) (l : list A) (x y : A) :
  NoDup (f <$> l) -> x ∈ l -> y ∈ l -> f x = f y -> x = y.
Proof.
  induction l as [|z l IH]; csimpl; intros Hnd Hx Hy Hf; [inversion Hx|].
  apply NoDup_cons in Hnd. destruct Hnd as [Hz Hnd].
  apply elem_of_cons in Hx. apply elem_of_cons in Hy.
  destruct Hx as [->|Hx], Hy as [->|Hy]; auto.
  - exfalso. apply Hz. rewrite Hf. apply list_elem_of_fmap_2. exact Hy.
  - exfalso. apply Hz. rewrite <- Hf. apply list_elem_of_fmap_2. exact Hx.
Qed.

(** The returned array, read off a consistent state. *)
Lemma collectResults_consistent (st : Run) (taken : list SnapchatMemory) :
  consistent st taken ->
  length (collectResults st) = length memories
  /\ (fun r => mediaId (memory r)) <$> collectResults st = mediaId <$> memories
  /\ (NoDup (mediaId <$> memories) -> memory <$> collectResults st = memories)
  /\ (forall j m,
         queue st !! j = Some m ->
         mediaId m ∉ mediaId <$> taken ->
         collectResults st !! (length taken + j)%nat = Some (cancelledResult m)).
Proof.
  intros (Hmem & Hworkers & Hresults).
  assert (Hget : forall m r,
             mapGet (mediaId m) (results st) = Some r ->
             mediaId (memory r) = mediaId m /\ memory r ∈ taken).
  { intros m r Hr. apply mapGet_Some in Hr.
    rewrite Forall_forall in Hresults. exact (Hresults _ Hr). }
  unfold collectResults.
  split; [apply length_fmap|]. split; [|split].
  - rewrite <- list_fmap_compose. apply list_fmap_ext. intros i m _. simpl.
    destruct (mapGet (mediaId m) (results st)) as [r|] eqn:Hr; simpl; [|reflexivity].
    apply (Hget m r Hr).
  - intros Hnd. rewrite <- list_fmap_compose. apply fmap_fixes. intros m Hm. simpl.
    destruct (mapGet (mediaId m) (results st)) as [r|] eqn:Hr; simpl; [|reflexivity].
    destruct (Hget m r Hr) as [Hid Hin].
    apply (NoDup_fmap_eq mediaId memories); auto.
    rewrite Hmem. apply elem_of_app. left. exact Hin.
  - intros j m Hj Hfresh.
    rewrite list_lookup_fmap.
    replace (memories !! (length taken + j)%nat) with (Some m)
      by (rewrite Hmem, lookup_app_r by lia;
          replace (length taken + j - length taken)%nat with j by lia; auto).
    simpl. f_equal.
    destruct (mapGet (mediaId m) (results st)) as [r|] eqn:Hr; simpl; [|reflexivity].
    destruct (Hget m r Hr) as [Hid Hin].
    exfalso. apply Hfresh. rewrite <- Hid. apply list_elem_of_fmap_2. exact Hin.
Qed.

End WorkerPool.

(** A run of three memories on one worker, cancelled during the first
    download: the first memory has the result of its download, the other two
    the cancellation failure, in input order. *)
Example cancelled_run :
  let a := someMemory in
  let b := {| date := 1; mediaType := Video; location := None;
              downloadUrl := "https://app.snapchat.com/dmd/memories?mid=b2";
              mediaDownloadUrl := None; mediaId := "b2" |} in
  let c := {| date := 2; mediaType := Image; location := None;
              downloadUrl := "https://app.snapchat.com/dmd/memories?mid=c3";
              mediaDownloadUrl := None; mediaId := "c3" |} in
  let options := {| delay := Some 0; concurrency := Some 1;
                    batchMaxRetries := Some 1%nat; onProgress := true;
                    batchOnRetry := true; signal := true |} in
  exists r,
    downloadMemoriesConcurrent [a; b; c] options
      [Spawn; Abort; Settle 0 always503 (fun _ => 0%Q)]
    = Some [r; cancelledResult b; cancelledResult c]
    /\ memory r = a /\ success r = false /\ retries r = Some 1%nat.
Proof.
  intros a b c options. eexists. split; [vm_compute; reflexivity|].
  repeat split.
Qed.

(* ===================================================================== *)
(** * Fetching one memory: where the loop stops, and its cost            *)
(* ===================================================================== *)

Section RetryTrace.

  Variable net : Network.
  Variable random : nat -> Q.
  Variable memory : SnapchatMemory.
  Variable options : DownloadMemoryOptions.

Let url := downloadUrl memory.
Let baseUrl := baseUrlOf url.
Let N := maxRetriesOf options.

  Variable queryString : string.
  Hypothesis query : queryStringOf url = Some queryString.
  Hypothesis payload : JsString.truthy queryString = true.

  Local Arguments isRetryableError : simpl never.
  Local Arguments calculateBackoffDelay : simpl never.

Lemma sleepsMade_app (ev ev' : list Event) :
  sleepsMade (ev ++ ev') = (sleepsMade ev + sleepsMade ev')%nat.
Proof.
  unfold sleepsMade. induction ev as [|[] ev IH]; simpl; rewrite ?IH; reflexivity.
Qed.

Lemma getsMade_app (ev ev' : list Event) :
  getsMade (ev ++ ev') = (getsMade ev + getsMade ev')%nat.
Proof.
  unfold getsMade. induction ev as [|[] ev IH]; simpl; rewrite ?IH; reflexivity.
Qed.

(** An iteration sleeps once when it goes round again and not otherwise,
    and sends at most one payload request. *)
Lemma iteration_sleeps (attempt : nat) :
  let '(r, ev) := iteration net random memory options url baseUrl queryString attempt in
  sleepsMade ev = match r with Continue _ => 1%nat | _ => 0%nat end
  /\ (getsMade ev <= 1)%nat.
Proof.
  unfold iteration, tryBlock, catchBlock, retryOrThrow, scheduleRetry,
    sleepsMade, getsMade.
  fold N.
  destruct (post net attempt baseUrl queryString) as [thrown|proxyResponse].
  { destruct thrown as [u c m|c m|]; simpl isDownloadError; simpl isError; cbv iota.
    - destruct ((attempt <? N)%nat && isRetryableError (DownloadError u c m));
        destruct (onRetry options); simpl; auto.
    - rewrite andb_true_l.
      destruct ((attempt <? N)%nat && isRetryableError (OtherError c m));
        destruct (onRetry options); simpl; auto.
    - rewrite !andb_false_r. simpl. auto. }
  destruct (negb (ok proxyResponse)).
  { simpl isDownloadError.
    destruct ((attempt <? N)%nat && isRetryableError _) eqn:Hr;
      simpl; [|rewrite Hr]; destruct (onRetry options); simpl; auto. }
  destruct (negb (JsString.truthy (text proxyResponse))
            || negb (JsString.startsWith (text proxyResponse) "http")).
  { simpl isDownloadError. cbv iota.
    destruct ((attempt <? N)%nat && isRetryableError _);
      destruct (onRetry options); simpl; auto. }
  destruct (get net attempt (JsString.trim (text proxyResponse))) as [thrown|fileResponse].
  { destruct thrown as [u c m|c m|]; simpl isDownloadError; simpl isError; cbv iota.
    - destruct ((attempt <? N)%nat && isRetryableError (DownloadError u c m));
        destruct (onRetry options); simpl; auto.
    - rewrite andb_true_l.
      destruct ((attempt <? N)%nat && isRetryableError (OtherError c m));
        destruct (onRetry options); simpl; auto.
    - rewrite !andb_false_r. simpl. auto. }
  destruct (negb (ok fileResponse)).
  { simpl isDownloadError.
    destruct ((attempt <? N)%nat && isRetryableError _) eqn:Hr;
      simpl; [|rewrite Hr]; destruct (onRetry options); simpl; auto. }
  destruct (length (body fileResponse) =? 0)%nat.
  { simpl isDownloadError. cbv iota.
    destruct ((attempt <? N)%nat && isRetryableError _);
      destruct (onRetry options); simpl; auto. }
  simpl. auto.
Qed.

(** The loop runs up to the first attempt that succeeds or fails with an
    error it does not retry, and no further than attempt [N]. *)
Lemma attemptLoop_trace (k attempt : nat) (lastError : option JsError) :
  (attempt + k = N)%nat ->
  exists j,
    (attempt <= j <= N)%nat
    /\ fst (attemptLoop net random memory options url baseUrl queryString
                        (S k) attempt lastError)
       = attemptOutcome net memory j
    /\ (forall i, (attempt <= i < j)%nat ->
                  exists e, attemptOutcome net memory i = inl e
                            /\ isRetryableError e = true)
    /\ ((j < N)%nat -> finalOutcome (attemptOutcome net memory j))
    /\ let ev := snd (attemptLoop net random memory options url baseUrl queryString
                                  (S k) attempt lastError) in
       attemptsMade ev = S (j - attempt)
       /\ sleepsMade ev = (j - attempt)%nat
       /\ (getsMade ev <= S (j - attempt))%nat
       /\ (fun c => fst (fst c)) <$> retryCalls ev
          = if onRetry options then seq (S attempt) (j - attempt) else [].
Proof.
  revert attempt lastError.
  induction k as [|k IH]; intros attempt lastError Hk;
    rewrite (attemptLoop_step net random memory options queryString);
    pose proof (iteration_outcome net random memory options queryString
                                  query payload attempt) as Hit;
    pose proof (iteration_sleeps attempt) as Hsl;
    fold url in Hit |- *; fold baseUrl in Hit |- *; fold N in Hit;
    destruct (iteration net random memory options url baseUrl queryString attempt)
      as [r ev];
    destruct Hit as [Hposts Hcase]; destruct Hsl as [Hsleeps Hgets].
  - assert (attempt = N) as -> by lia.
    rewrite Nat.ltb_irrefl in Hcase. exists N.
    replace (N - N)%nat with 0%nat by lia.
    split; [lia|].
    destruct (attemptOutcome net memory N) as [e|d]; destruct Hcase as [-> Hcalls];
      simpl; rewrite Hcalls; simpl in Hsleeps;
      (split; [reflexivity|]); (split; [intros; lia|]); (split; [intros; lia|]);
      repeat split; auto; destruct (onRetry options); reflexivity.
  - destruct (attemptOutcome net memory attempt) as [e|d] eqn:Hout.
    + destruct ((attempt <? N)%nat && isRetryableError e) eqn:Hcond.
      * destruct Hcase as [-> Hcalls].
        apply andb_true_iff in Hcond. destruct Hcond as [_ Hretry].
        destruct (IH (S attempt) (Some e) ltac:(lia))
          as (j & Hj & Hres & Hearlier & Hfinal & Hev).
        destruct (attemptLoop net random memory options url baseUrl queryString
                              (S k) (S attempt) (Some e)) as [r' ev'].
        simpl in Hres, Hev. destruct Hev as (Hn & Hs & Hg & Hcb).
        exists j. split; [lia|]. split; [exact Hres|]. split.
        { intros i Hi. destruct (decide (i = attempt)) as [->|Hne]; [eauto|].
          apply Hearlier. lia. }
        split; [exact Hfinal|]. simpl.
        rewrite attemptsMade_app, sleepsMade_app, getsMade_app,
          retryCalls_app, fmap_app, Hcb, Hcalls, Hposts, Hsleeps, Hn, Hs.
        repeat split; try lia.
        destruct (onRetry options); [|reflexivity].
        replace (j - attempt)%nat with (S (j - S attempt)) by lia.
        cbn. f_equal. lia.
      * destruct Hcase as [-> Hcalls]. exists attempt.
        replace (attempt - attempt)%nat with 0%nat by lia.
        split; [lia|]. simpl. rewrite Hout, Hcalls. simpl in Hsleeps.
        split; [reflexivity|]. split; [intros; lia|].
        split.
        { intros _. simpl.
          assert (Hlt : (attempt <? N)%nat = true) by (apply Nat.ltb_lt; lia).
          rewrite Hlt in Hcond. exact Hcond. }
        repeat split; auto. destruct (onRetry options); reflexivity.
    + destruct Hcase as [-> Hcalls]. exists attempt.
      replace (attempt - attempt)%nat with 0%nat by lia.
      split; [lia|]. simpl. rewrite Hout, Hcalls. simpl in Hsleeps.
      split; [reflexivity|]. split; [intros; lia|].
      split; [intros _; exact I|].
      repeat split; auto. destruct (onRetry options); reflexivity.
Qed.

End RetryTrace.

Lemma hasQueryPayload_dec (url : string) :
  hasQueryPayload url
  \/ ~ hasQueryPayload url
     /\ (forall net memory attempt,
         downloadUrl memory = url ->
         attemptOutcome net memory attempt
         = inl (DownloadError url 0
                  "Invalid download URL format - missing query parameters"))
     /\ (forall net random memory options,
            downloadUrl memory = url ->
            downloadMemory net random memory options
            = (inl (DownloadError url 0
                      "Invalid download URL format - missing query parameters"), [])).
Proof.
  unfold hasQueryPayload, attemptOutcome, downloadMemory.
  destruct (queryStringOf url) as [queryString|] eqn:Hq.
  - destruct (JsString.truthy queryString) eqn:Ht; [left; eauto|].
    right. split; [intros (q & [= <-] & Ht'); congruence|].
    split; intros; subst url; rewrite Hq, Ht; reflexivity.
  - right. split; [intros (q & Hq' & _); discriminate|].
    split; intros; subst url; rewrite Hq; reflexivity.
Qed.

(** X1.  Whatever the network does, [downloadMemory] settles with the
    outcome of one attempt [j <= maxRetries]: every attempt before [j] failed
    with a retryable error, and attempt [j] either succeeded, or failed with
    an error that is not retried, or was the last one allowed. *)
Theorem downloadMemory_settles_with_an_attempt
    (net : Network) (random : nat -> Q) (memory : SnapchatMemory)
    (options : DownloadMemoryOptions) :
  exists j,
    (j <= maxRetriesOf options)%nat
    /\ fst (downloadMemory net random memory options) = attemptOutcome net memory j
    /\ (forall i, (i < j)%nat ->
                  exists e, attemptOutcome net memory i = inl e
                            /\ isRetryableError e = true)
    /\ ((j < maxRetriesOf options)%nat -> finalOutcome (attemptOutcome net memory j)).
Proof.
  destruct (hasQueryPayload_dec (downloadUrl memory))
    as [(queryString & Hq & Ht) | (Hno & Hout & Hdl)].
  - destruct (attemptLoop_trace net random memory options queryString Hq Ht
                                (maxRetriesOf options) 0 None eq_refl)
      as (j & Hj & Hres & Hearlier & Hfinal & _).
    exists j. unfold downloadMemory. rewrite Hq, Ht.
    split; [lia|]. split; [exact Hres|]. split; [|exact Hfinal].
    intros i Hi. apply Hearlier. lia.
  - exists 0%nat. rewrite (Hdl net random memory options eq_refl),
      (Hout net memory 0%nat eq_refl).
    split; [lia|]. split; [reflexivity|]. split; [intros; lia|].
    intros _. reflexivity.
Qed.

(** X2.  The effort of one call is bounded: at most [maxRetries + 1]
    exchange requests, at most one payload request for each of them, one
    backoff sleep between two consecutive attempts and none after the last,
    and one callback for each sleep when a callback is supplied.  A
    descriptor URL without query payload costs no request at all. *)
Theorem downloadMemory_effort_bounded
    (net : Network) (random : nat -> Q) (memory : SnapchatMemory)
    (options : DownloadMemoryOptions) :
  let ev := snd (downloadMemory net random memory options) in
  (attemptsMade ev <= maxRetriesOf options + 1)%nat
  /\ (getsMade ev <= attemptsMade ev)%nat
  /\ sleepsMade ev = (attemptsMade ev - 1)%nat
  /\ length (retryCalls ev) = (if onRetry options then sleepsMade ev else 0%nat)
  /\ (hasQueryPayload (downloadUrl memory) -> (1 <= attemptsMade ev)%nat)
  /\ (~ hasQueryPayload (downloadUrl memory) -> ev = []).
Proof.
  destruct (hasQueryPayload_dec (downloadUrl memory))
    as [(queryString & Hq & Ht) | (Hno & Hout & Hdl)].
  - destruct (attemptLoop_trace net random memory options queryString Hq Ht
                                (maxRetriesOf options) 0 None eq_refl)
      as (j & Hj & _ & _ & _ & Hev).
    unfold downloadMemory. rewrite Hq, Ht. cbv zeta in Hev |- *.
    destruct Hev as (Hn & Hs & Hg & Hcb).
    rewrite Hn, Hs. repeat split; try lia.
    + apply (f_equal length) in Hcb. rewrite length_fmap in Hcb. rewrite Hcb.
      destruct (onRetry options); [apply length_seq | reflexivity].
    + intros Hno. exfalso. apply Hno. exists queryString. auto.
  - rewrite (Hdl net random memory options eq_refl). simpl.
    repeat split; try (unfold attemptsMade, getsMade; simpl; lia).
    + destruct (onRetry options); reflexivity.
    + intros Hyes. contradiction.
Qed.

(* ===================================================================== *)
(** * Fetching a bundle                                                   *)
(* ===================================================================== *)

Section BundleFetch.

  Variable readZip : Buffer -> JsError + list ZipEntry.
  Variable net : Network.
  Variable random : nat -> Q.
  Variable memory : SnapchatMemory.
  Variable options : DownloadMemoryOptions.

  Local Arguments isRetryableError : simpl never.
  Local Arguments calculateBackoffDelay : simpl never.
  Local Arguments isZipBuffer : simpl never.
  Local Arguments JsString.includes : simpl never.
  Local Arguments getExtensionFromContentType : simpl never.

(** An iteration of the bundle loop is the iteration of the plain loop on
    the same URL, with the payload unpacked. *)
Lemma overlayIteration_iteration (url baseUrl queryString : string) (attempt : nat) :
  let '(r, ev) :=
    iteration net random (bundleDescriptor memory) options
              url baseUrl queryString attempt in
  overlayIteration readZip net random memory options
                   url baseUrl queryString (isMediaUrlOf memory) attempt
  = (match r with
     | Return downloaded => OverlayReturn (unpack readZip memory downloaded)
     | Throw e => OverlayThrow e
     | Continue e => OverlayContinue e
     end, ev).
Proof.
  unfold iteration, overlayIteration, tryBlock, overlayTryBlock, catchBlock,
    overlayCatchBlock, retryOrThrow, overlayRetryOrThrow, scheduleRetry,
    overlayScheduleRetry, unpack, takenForZip.
  destruct (post net attempt baseUrl queryString) as [thrown|proxyResponse].
  { destruct thrown as [u c m|c m|]; simpl isDownloadError; simpl isError; cbv iota.
    - destruct ((attempt <? _)%nat && isRetryableError (DownloadError u c m));
        reflexivity.
    - rewrite andb_true_l.
      destruct ((attempt <? _)%nat && isRetryableError (OtherError c m));
        reflexivity.
    - rewrite !andb_false_r. reflexivity. }
  destruct (negb (ok proxyResponse)).
  { simpl isDownloadError.
    destruct ((attempt <? _)%nat && isRetryableError _) eqn:Hr;
      simpl; [|rewrite Hr]; reflexivity. }
  destruct (negb (JsString.truthy (text proxyResponse))
            || negb (JsString.startsWith (text proxyResponse) "http")).
  { simpl isDownloadError. cbv iota.
    destruct ((attempt <? _)%nat && isRetryableError _); reflexivity. }
  destruct (get net attempt (JsString.trim (text proxyResponse))) as [thrown|fileResponse].
  { destruct thrown as [u c m|c m|]; simpl isDownloadError; simpl isError; cbv iota.
    - destruct ((attempt <? _)%nat && isRetryableError (DownloadError u c m));
        reflexivity.
    - rewrite andb_true_l.
      destruct ((attempt <? _)%nat && isRetryableError (OtherError c m));
        reflexivity.
    - rewrite !andb_false_r. reflexivity. }
  destruct (negb (ok fileResponse)).
  { simpl isDownloadError.
    destruct ((attempt <? _)%nat && isRetryableError _) eqn:Hr;
      simpl; [|rewrite Hr]; reflexivity. }
  destruct (length (body fileResponse) =? 0)%nat.
  { simpl isDownloadError. cbv iota.
    destruct ((attempt <? _)%nat && isRetryableError _); reflexivity. }
  simpl.
  destruct (isMediaUrlOf memory && _); reflexivity.
Qed.

Lemma overlayAttemptLoop_attemptLoop (url baseUrl queryString : string)
    (remaining attempt : nat) (lastError : option JsError) :
  overlayAttemptLoop readZip net random memory options
                     url baseUrl queryString (isMediaUrlOf memory)
                     remaining attempt lastError
  = let '(r, ev) :=
      attemptLoop net random (bundleDescriptor memory) options
                  url baseUrl queryString remaining attempt lastError in
    (match r with
     | inl e => inl e
     | inr downloaded => unpack readZip memory downloaded
     end, ev).
Proof.
  revert attempt lastError.
  induction remaining as [|remaining IH]; intros attempt lastError; [reflexivity|].
  cbn [overlayAttemptLoop attemptLoop].
  pose proof (overlayIteration_iteration url baseUrl queryString attempt) as Hit.
  destruct (iteration net random (bundleDescriptor memory) options
                      url baseUrl queryString attempt) as [r ev].
  rewrite Hit. destruct r as [downloaded|e|e]; try reflexivity.
  rewrite IH.
  destruct (attemptLoop net random (bundleDescriptor memory) options
                        url baseUrl queryString remaining (S attempt) (Some e)).
  reflexivity.
Qed.

(** The whole call, likewise. *)
Lemma downloadMediaWithOverlay_downloadMemory :
  downloadMediaWithOverlay readZip net random memory options
  = let '(r, ev) := downloadMemory net random (bundleDescriptor memory) options in
    (match r with
     | inl e => inl e
     | inr downloaded => unpack readZip memory downloaded
     end, ev).
Proof.
  unfold downloadMediaWithOverlay, downloadMemory. simpl downloadUrl.
  destruct (queryStringOf (overlayUrlOf memory)) as [queryString|]; [|reflexivity].
  destruct (JsString.truthy queryString); [|reflexivity].
  apply overlayAttemptLoop_attemptLoop.
Qed.

End BundleFetch.

(* ===================================================================== *)
(** * File extensions and fulfilled downloads                             *)
(* ===================================================================== *)

Lemma lowerChar_idempotent (c : ascii) :
  JsString.lowerChar (JsString.lowerChar c) = JsString.lowerChar c.
Proof. destruct c as [[] [] [] [] [] [] [] []]; reflexivity. Qed.

Lemma toLowerCase_idempotent (s : string) :
  JsString.toLowerCase (JsString.toLowerCase s) = JsString.toLowerCase s.
Proof.
  induction s as [|c s IH]; simpl; [reflexivity|].
  rewrite lowerChar_idempotent, IH. reflexivity.
Qed.

Lemma getExtensionFromContentType_known (contentType : string) (mediaType : MediaType) :
  getExtensionFromContentType contentType mediaType ∈ knownExtensions.
Proof.
  unfold getExtensionFromContentType, knownExtensions.
  repeat match goal with
         | |- context [if ?b then _ else _] => destruct b
         end;
    repeat first [apply list_elem_of_here | apply list_elem_of_further].
Qed.

(** X3.  [getExtensionFromContentType] always answers one of the eight
    known extensions; it does not depend on the letter case of the content
    type; when the content type contains none of the words it looks for, the
    answer is [jpg] for an image and [mp4] for a video, and otherwise the
    media type plays no part. *)
Theorem getExtensionFromContentType_range :
  (forall contentType mediaType,
      getExtensionFromContentType contentType mediaType ∈ knownExtensions)
  /\ (forall contentType mediaType,
         getExtensionFromContentType (JsString.toLowerCase contentType) mediaType
         = getExtensionFromContentType contentType mediaType)
  /\ (forall contentType mediaType,
         (forall word, word ∈ contentTypeWords ->
                       ~ occursIn word (JsString.toLowerCase contentType)) ->
         getExtensionFromContentType contentType mediaType
         = match mediaType with Image => "jpg" | Video => "mp4" end)
  /\ (forall contentType word,
         word ∈ contentTypeWords ->
         occursIn word (JsString.toLowerCase contentType) ->
         getExtensionFromContentType contentType Image
         = getExtensionFromContentType contentType Video).
Proof.
  split; [|split; [|split]].
  - exact getExtensionFromContentType_known.
  - intros contentType mediaType. unfold getExtensionFromContentType.
    rewrite toLowerCase_idempotent. reflexivity.
  - intros contentType mediaType Hnone. unfold getExtensionFromContentType.
    assert (Hno : forall word, word ∈ contentTypeWords ->
                    JsString.includes (JsString.toLowerCase contentType) word = false).
    { intros word Hin. apply not_true_is_false. rewrite includes_spec. auto. }
    rewrite !Hno
      by (unfold contentTypeWords;
          repeat first [apply list_elem_of_here | apply list_elem_of_further]).
    reflexivity.
  - intros contentType word Hin Hocc. unfold getExtensionFromContentType.
    apply includes_spec in Hocc.
    unfold contentTypeWords in Hin. rewrite !elem_of_cons, elem_of_nil in Hin.
    repeat match goal with
           | |- context [if ?b then _ else _] => destruct b eqn:?
           end; try reflexivity.
    exfalso.
    repeat match goal with
           | H : _ || _ = false |- _ => apply orb_false_iff in H; destruct H
           end.
    destruct Hin as [->|[->|[->|[->|[->|[->|[->|[->|[->|[->|[]]]]]]]]]]]; congruence.
Qed.

Lemma attemptOutcome_fulfilled (net : Network) (memory : SnapchatMemory)
    (attempt : nat) (downloaded : DownloadedMedia) :
  attemptOutcome net memory attempt = inr downloaded ->
  data downloaded <> []
  /\ contentType downloaded <> ""
  /\ extension downloaded
     = getExtensionFromContentType (contentType downloaded) (mediaType memory).
Proof.
  unfold attemptOutcome.
  destruct (queryStringOf _) as [queryString|]; [|discriminate].
  destruct (negb (JsString.truthy queryString)); [discriminate|].
  destruct (post net attempt _ _) as [|proxyResponse]; [discriminate|].
  destruct (negb (ok proxyResponse)); [discriminate|].
  destruct (_ || _); [discriminate|].
  destruct (get net attempt _) as [|fileResponse]; [discriminate|].
  destruct (negb (ok fileResponse)); [discriminate|].
  destruct (Nat.eqb_spec (length (body fileResponse)) 0) as [|Hlen]; [discriminate|].
  intros [= <-]. simpl. split; [|split; [|reflexivity]].
  - intros Hnil. rewrite Hnil in Hlen. contradiction.
  - destruct (contentTypeHeader fileResponse) as [h|]; [|discriminate].
    destruct (JsString.truthy h) eqn:Ht; [|discriminate].
    apply truthy_spec. exact Ht.
Qed.

(** X4.  When [downloadMemory] fulfils, the media it returns is not empty,
    its content type is the header of the payload response or the default
    one (never the empty string), and its extension is the one of that
    content type, one of the eight known extensions. *)
Theorem downloadMemory_fulfilled
    (net : Network) (random : nat -> Q) (memory : SnapchatMemory)
    (options : DownloadMemoryOptions) (downloaded : DownloadedMedia) :
  fst (downloadMemory net random memory options) = inr downloaded ->
  data downloaded <> []
  /\ contentType downloaded <> ""
  /\ extension downloaded
     = getExtensionFromContentType (contentType downloaded) (mediaType memory)
  /\ extension downloaded ∈ knownExtensions.
Proof.
  intros Hok.
  assert (Hj : exists j, attemptOutcome net memory j = inr downloaded).
  { destruct (hasQueryPayload_dec (downloadUrl memory))
      as [(queryString & Hq & Ht) | (Hno & Hout & Hdl)].
    - destruct (attemptLoop_trace net random memory options queryString Hq Ht
                                  (maxRetriesOf options) 0 None eq_refl)
        as (j & _ & Hres & _).
      exists j. rewrite <- Hres, <- Hok. unfold downloadMemory.
      rewrite Hq, Ht. reflexivity.
    - rewrite (Hdl net random memory options eq_refl) in Hok. discriminate. }
  destruct Hj as [j Hj].
  destruct (attemptOutcome_fulfilled _ _ _ _ Hj) as (Hdata & Htype & Hext).
  repeat split; auto.
  rewrite Hext. apply getExtensionFromContentType_known.
Qed.

Lemma downloadMemory_fulfilled_witness :
  let downloaded :=
    {| data := [Byte.xff]; contentType := "image/jpeg"; extension := "jpg" |} in
  data downloaded <> []
  /\ contentType downloaded <> ""
  /\ extension downloaded
     = getExtensionFromContentType (contentType downloaded) (mediaType someMemory)
  /\ extension downloaded ∈ knownExtensions.
Proof.
  apply (downloadMemory_fulfilled servesJpeg (fun _ => 0%Q) someMemory
           {| maxRetries := None; onRetry := false |}).
  reflexivity.
Defined.

(* ===================================================================== *)
(** * Fetching a bundle: what is made of the payload                      *)
(* ===================================================================== *)

(** X5.  [downloadMediaWithOverlay] is [downloadMemory] on the bundle URL
    (the descriptor URL when the memory has no bundle URL) followed by the
    unpacking of the payload: the same requests, callbacks and sleeps in the
    same order, the same rejection when the fetch rejects, and otherwise
    what the unpacking of the fetched payload settles with.  The unpacking
    comes after the loop: whatever error it ends with, no further attempt
    is made. *)
Theorem downloadMediaWithOverlay_fetch_then_unpack
    (readZip : Buffer -> JsError + list ZipEntry) (net : Network)
    (random : nat -> Q) (memory : SnapchatMemory) (options : DownloadMemoryOptions) :
  let fetched := downloadMemory net random (bundleDescriptor memory) options in
  let settled := downloadMediaWithOverlay readZip net random memory options in
  snd settled = snd fetched
  /\ (forall e, fst fetched = inl e -> fst settled = inl e)
  /\ (forall downloaded,
         fst fetched = inr downloaded ->
         fst settled = unpack readZip memory downloaded)
  /\ (forall downloaded e,
         fst fetched = inr downloaded ->
         unpack readZip memory downloaded = inl e ->
         fst settled = inl e).
Proof.
  intros fetched settled. subst fetched settled.
  rewrite downloadMediaWithOverlay_downloadMemory.
  destruct (downloadMemory net random (bundleDescriptor memory) options) as [r ev].
  simpl in *. split; [reflexivity|]. split; [|split].
  - intros e ->. reflexivity.
  - intros downloaded ->. reflexivity.
  - intros downloaded e -> He. exact He.
Qed.

(** X6.  When [downloadMediaWithOverlay] fulfils, the fetch has fulfilled
    with a payload, which is never empty.  If the payload was taken for an
    archive, the result is what [extractMediaFromZip] made of it.  If not,
    which is always the case for a memory without bundle URL, whatever the
    payload, the base asset is the payload itself, there is no overlay, and
    the kind of the base asset is the one of the memory (an image gives
    [jpg], a video [mp4]), not the one of the payload's content type. *)
Theorem downloadMediaWithOverlay_fulfilled
    (readZip : Buffer -> JsError + list ZipEntry) (net : Network)
    (random : nat -> Q) (memory : SnapchatMemory) (options : DownloadMemoryOptions)
    (r : ExtractedMediaContents) :
  fst (downloadMediaWithOverlay readZip net random memory options) = inr r ->
  exists downloaded,
    fst (downloadMemory net random (bundleDescriptor memory) options) = inr downloaded
    /\ data downloaded <> []
    /\ (takenForZip memory downloaded = true ->
        extractMediaFromZipBuffer readZip (data downloaded) (mediaType memory) = inr r)
    /\ (takenForZip memory downloaded = false ->
        baseMedia r = data downloaded
        /\ overlay r = None
        /\ baseMediaType r = match mediaType memory with Image => jpg | Video => mp4 end)
    /\ (isMediaUrlOf memory = false -> takenForZip memory downloaded = false).
Proof.
  rewrite downloadMediaWithOverlay_downloadMemory.
  destruct (downloadMemory net random (bundleDescriptor memory) options)
    as [[e|downloaded] ev] eqn:Hfetch; simpl; [discriminate|].
  intros Hr. exists downloaded. split; [reflexivity|].
  assert (Hj : exists j, attemptOutcome net (bundleDescriptor memory) j = inr downloaded).
  { destruct (hasQueryPayload_dec (downloadUrl (bundleDescriptor memory)))
      as [(queryString & Hq & Ht) | (Hno & Hout & Hdl)].
    - destruct (attemptLoop_trace net random (bundleDescriptor memory) options
                                  queryString Hq Ht (maxRetriesOf options) 0 None eq_refl)
        as (j & _ & Hres & _).
      exists j. rewrite <- Hres. unfold downloadMemory in Hfetch.
      rewrite Hq, Ht in Hfetch. rewrite Hfetch. reflexivity.
    - rewrite (Hdl net random (bundleDescriptor memory) options eq_refl) in Hfetch.
      discriminate. }
  destruct Hj as [j Hj].
  split; [apply (attemptOutcome_fulfilled _ _ _ _ Hj)|].
  unfold unpack in Hr. split; [|split].
  - intros Hzip. rewrite Hzip in Hr. exact Hr.
  - intros Hzip. rewrite Hzip in Hr. injection Hr as <-. auto.
  - intros Hno. unfold takenForZip. rewrite Hno. reflexivity.
Qed.

Lemma downloadMediaWithOverlay_fulfilled_witness :
  exists downloaded,
    fst (downloadMemory servesJpeg (fun _ => 0%Q) (bundleDescriptor someMemory)
                        {| maxRetries := None; onRetry := false |}) = inr downloaded
    /\ data downloaded <> []
    /\ (takenForZip someMemory downloaded = true ->
        extractMediaFromZipBuffer (fun _ => inr []) (data downloaded)
                                  (mediaType someMemory)
        = inr {| baseMedia := [Byte.xff]; baseMediaType := jpg; overlay := None |})
    /\ (takenForZip someMemory downloaded = false ->
        baseMedia {| baseMedia := [Byte.xff]; baseMediaType := jpg; overlay := None |}
        = data downloaded
        /\ overlay {| baseMedia := [Byte.xff]; baseMediaType := jpg; overlay := None |}
           = None
        /\ baseMediaType
             {| baseMedia := [Byte.xff]; baseMediaType := jpg; overlay := None |}
           = match mediaType someMemory with Image => jpg | Video => mp4 end)
    /\ (isMediaUrlOf someMemory = false -> takenForZip someMemory downloaded = false).
Proof.
  apply (downloadMediaWithOverlay_fulfilled (fun _ => inr []) servesJpeg
           (fun _ => 0%Q) someMemory {| maxRetries := None; onRetry := false |}
           {| baseMedia := [Byte.xff]; baseMediaType := jpg; overlay := None |}).
  reflexivity.
Defined.

(* ===================================================================== *)
(** * Expiry of the bundle URLs of a batch                                *)
(* ===================================================================== *)

(** X7.  [checkOverlayUrlsExpired] answers [null] exactly when no memory
    of the batch has a bundle URL.  Otherwise it judges the batch by the
    first memory that has one, in input order, against the threshold of 6
    hours, and by that memory alone: the memories before it have no bundle
    URL and those after it are not looked at. *)
Theorem checkOverlayUrlsExpired_first_bundle_url
    (newURL : string -> option (list (string * string))) (now : Z) :
  (forall memories,
      checkOverlayUrlsExpired newURL now memories = None
      <-> forall m, m ∈ memories -> isMediaUrlOf m = false)
  /\ (forall before m after u,
         (forall m', m' ∈ before -> isMediaUrlOf m' = false) ->
         mediaDownloadUrl m = Some u ->
         u <> "" ->
         checkOverlayUrlsExpired newURL now (before ++ m :: after)
         = Some (checkUrlExpiration newURL now u 6)).
Proof.
  assert (Hfind : forall before m after,
             (forall m', m' ∈ before -> isMediaUrlOf m' = false) ->
             isMediaUrlOf m = true ->
             List.find isMediaUrlOf (before ++ m :: after) = Some m).
  { induction before as [|b before IH]; intros m after Hbefore Hm; simpl.
    - rewrite Hm. reflexivity.
    - rewrite (Hbefore b) by left. apply IH; [|assumption].
      intros m' Hin. apply Hbefore. right. exact Hin. }
  split.
  - intros memories. unfold checkOverlayUrlsExpired.
    destruct (List.find isMediaUrlOf memories) as [m|] eqn:Hf.
    + apply find_some in Hf. destruct Hf as [Hin Hm].
      apply list_elem_of_In in Hin.
      split; [|intros Hall; rewrite (Hall m Hin) in Hm; discriminate].
      unfold isMediaUrlOf in Hm.
      destruct (mediaDownloadUrl m) as [u|]; [|discriminate].
      rewrite Hm. discriminate.
    + split; [|reflexivity]. intros _ m Hin.
      apply list_elem_of_In in Hin.
      exact (find_none _ _ Hf m Hin).
  - intros before m after u Hbefore Hu Hne. unfold checkOverlayUrlsExpired.
    apply truthy_spec in Hne.
    rewrite (Hfind before m after Hbefore)
      by (unfold isMediaUrlOf; rewrite Hu; exact Hne).
    rewrite Hu, Hne. reflexivity.
Qed.

(* ===================================================================== *)
(** * The worker pool: how many workers, how many downloads at a time     *)
(* ===================================================================== *)

Lemma length_filter_le {A : Type} (f : A -> bool) (l : list A) :
  (length (List.filter f l) <= length l)%nat.
Proof.
  induction l as [|x l IH]; simpl; [lia|]. destruct (f x); simpl; lia.
Qed.

(** Without workers nothing is ever recorded. *)
Lemma runTurns_no_worker (memories : list SnapchatMemory) (options : DownloadOptions) :
  actualConcurrency memories options = 0%nat ->
  forall ts st st',
    runTurns memories options ts st = Some st' ->
    workers st = [] -> results st = [] ->
    workers st' = [] /\ results st' = [].
Proof.
  intros Hzero. induction ts as [|t ts IH]; intros st st'; simpl.
  - intros [= <-]. auto.
  - destruct (turn memories options t st) as [st1|] eqn:Ht; [|discriminate].
    intros Hrun Hw Hr. apply (IH _ _ Hrun).
    + destruct t as [|w net random|w|]; simpl in Ht.
      * rewrite Hw, Hzero in Ht. discriminate.
      * rewrite Hw in Ht. discriminate.
      * rewrite Hw in Ht. discriminate.
      * destruct (signal options && negb (aborted st)); [|discriminate].
        injection Ht as <-. exact Hw.
    + destruct t as [|w net random|w|]; simpl in Ht.
      * rewrite Hw, Hzero in Ht. discriminate.
      * rewrite Hw in Ht. discriminate.
      * rewrite Hw in Ht. discriminate.
      * destruct (signal options && negb (aborted st)); [|discriminate].
        injection Ht as <-. exact Hr.
Qed.

(** X8.  The pool never has more workers than the configured concurrency
    nor than there are memories: [min(concurrency, memories.length)] of
    them are started, one at a time, and so at most that many downloads are
    under way at any moment of any run.  The call comes to its end only
    when all of them have been started and have returned.  If the
    configured concurrency is not positive, or the input is empty, no
    worker is started and the call returns with every memory cancelled. *)
Theorem downloadMemoriesConcurrent_concurrency_bound
    (memories : list SnapchatMemory) (options : DownloadOptions) :
  let n := actualConcurrency memories options in
  (n <= length memories)%nat
  /\ Z.of_nat n <= Z.max 0 (concurrencyOf options)
  /\ (Z.of_nat (length memories) <= concurrencyOf options -> n = length memories)
  /\ (0 <= concurrencyOf options <= Z.of_nat (length memories) ->
      Z.of_nat n = concurrencyOf options)
  /\ (forall ts st,
         runTurns memories options ts (initialRun memories) = Some st ->
         (length (workers st) <= n)%nat
         /\ (downloadsUnderWay st <= n)%nat
         /\ (allSettled memories options st = true -> length (workers st) = n))
  /\ (n = 0%nat ->
      downloadMemoriesConcurrent memories options [] = Some (cancelledResult <$> memories)
      /\ forall ts out,
           downloadMemoriesConcurrent memories options ts = Some out ->
           out = cancelledResult <$> memories).
Proof.
  intros n. subst n. unfold actualConcurrency.
  split; [lia|]. split; [lia|]. split; [lia|]. split; [lia|]. split.
  - intros ts st Hrun.
    assert (Hle : (length (workers st) <= actualConcurrency memories options)%nat).
    { apply (runTurns_workers _ _ _ _ _ Hrun). simpl. lia. }
    unfold actualConcurrency in Hle. split; [exact Hle|]. split.
    + unfold downloadsUnderWay.
      pose proof (length_filter_le isDownloading (workers st)). lia.
    + unfold allSettled. intros Hs. apply andb_true_iff in Hs.
      destruct Hs as [Hs _]. apply Nat.eqb_eq in Hs. exact Hs.
  - intros Hzero. split.
    + unfold downloadMemoriesConcurrent, allSettled, actualConcurrency. simpl.
      rewrite Hzero. reflexivity.
    + intros ts out. unfold downloadMemoriesConcurrent.
      destruct (runTurns memories options ts (initialRun memories))
        as [st|] eqn:Hrun; [|discriminate].
      destruct (allSettled memories options st); [|discriminate].
      intros [= <-].
      destruct (runTurns_no_worker memories options Hzero _ _ _ Hrun)
        as [_ Hres]; [reflexivity | reflexivity |].
      unfold collectResults. rewrite Hres. reflexivity.
Qed.

(* ===================================================================== *)
(** * The worker pool: a run that is not cancelled downloads everything   *)
(* ===================================================================== *)

Lemma fst_mapSet {V : Type} (k : string) (v : V) (m : JsMap V) (k' : string) :
  k' ∈ (mapSet k v m).*1 <-> k' = k \/ k' ∈ m.*1.
Proof.
  induction m as [|[k0 v0] m IH]; simpl.
  - rewrite elem_of_cons, elem_of_nil. tauto.
  - destruct (String.eqb_spec k0 k) as [->|Hne]; csimpl;
      rewrite !elem_of_cons; [tauto|]. rewrite IH. tauto.
Qed.

Lemma mapGet_is_Some {V : Type} (k : string) (m : JsMap V) :
  k ∈ m.*1 -> is_Some (mapGet k m).
Proof.
  intros Hin. destruct (mapGet k m) eqn:Hg; [eauto|].
  apply mapGet_None in Hg. contradiction.
Qed.

Lemma downloading_insert (l : list Worker) (w : nat) (old x : Worker) :
  l !! w = Some old ->
  (length (List.filter isDownloading (<[w := x]> l))
   + (if isDownloading old then 1 else 0)
   = length (List.filter isDownloading l)
     + (if isDownloading x then 1 else 0))%nat.
Proof.
  revert w. induction l as [|y l IH]; intros [|w]; csimpl; try discriminate.
  - intros [= ->]. destruct old, x; simpl; lia.
  - intros H. specialize (IH w H). destruct (isDownloading y); simpl; lia.
Qed.

Lemma downloading_snoc (l : list Worker) (x : Worker) :
  length (List.filter isDownloading (l ++ [x]))
  = (length (List.filter isDownloading l) + (if isDownloading x then 1 else 0))%nat.
Proof.
  rewrite List.filter_app, length_app. simpl. destruct (isDownloading x); reflexivity.
Qed.

Lemma elem_of_insert_other (l : list Worker) (w : nat) (old x y : Worker) :
  l !! w = Some old -> y ∈ l -> y <> old -> y ∈ <[w := x]> l.
Proof.
  intros Hw Hin Hne. apply list_elem_of_lookup in Hin. destruct Hin as [i Hi].
  apply list_elem_of_lookup. exists i.
  rewrite list_lookup_insert_ne; [exact Hi|]. intros ->. congruence.
Qed.

Lemma elem_of_insert_inv (l : list Worker) (w : nat) (x y : Worker) :
  y ∈ <[w := x]> l -> y = x \/ y ∈ l.
Proof.
  intros Hin. apply list_elem_of_lookup in Hin. destruct Hin as [i Hi].
  destruct (decide (w = i)) as [->|Hne].
  - destruct (decide (i < length l)%nat).
    + rewrite list_lookup_insert_eq in Hi by assumption. left. congruence.
    + rewrite list_insert_ge in Hi by lia. right.
      apply list_elem_of_lookup. eauto.
  - rewrite list_lookup_insert_ne in Hi by assumption. right.
    apply list_elem_of_lookup. eauto.
Qed.

Lemma all_finished_none_downloading (l : list Worker) :
  forallb isFinished l = true -> length (List.filter isDownloading l) = 0%nat.
Proof.
  induction l as [|x l IH]; simpl; [reflexivity|].
  destruct x; simpl; try discriminate. exact IH.
Qed.

Section Accounting.

  Variable memories : list SnapchatMemory.
  Variable options : DownloadOptions.

  Local Abbreviation turn := (turn memories options).
  Local Abbreviation runTurns := (runTurns memories options).
  Local Abbreviation loopHead := (loopHead options).
  Local Abbreviation afterDownload := (afterDownload memories options).
  Local Abbreviation accounted := (accounted memories options).

(** The settling of a download in full: the result recorded, the count of
    completed downloads, and where the worker goes. *)
Lemma afterDownload_accounts (w : nat) (m : SnapchatMemory) (net : Network)
    (random : nat -> Q) (st : Run) :
  exists r st1,
    memory r = m /\ is_Some (retries r)
    /\ queue st1 = queue st
    /\ workers st1 = workers st
    /\ aborted st1 = aborted st
    /\ completed st1 = S (completed st)
    /\ results st1 = mapSet (mediaId m) r (results st)
    /\ (afterDownload w m net random st = setWorker w Sleeping st1
        /\ queue st1 <> []
        \/ exists x st2,
             loopHead st1 = (x, st2)
             /\ afterDownload w m net random st = setWorker w x st2).
Proof.
  unfold afterDownload.
  destruct (downloadMemory _ _ _ _) as [outcome ev].
  match goal with
  | |- context [mapSet (mediaId m) ?r (results st)] => exists r
  end.
  match goal with
  | |- context [if _ then setWorker w Sleeping ?s else _] => exists s
  end.
  split; [destruct outcome; reflexivity|].
  split; [destruct outcome; simpl; eauto|].
  repeat (split; [reflexivity|]).
  match goal with
  | |- context [if ?b then _ else _] => destruct b eqn:Hb
  end.
  - left. split; [reflexivity|].
    apply andb_true_iff in Hb. destruct Hb as [Hb _].
    apply Nat.ltb_lt in Hb. simpl in Hb. simpl. intros Hq. rewrite Hq in Hb.
    simpl in Hb. lia.
  - right. destruct (loopHead _) as [x st2]. eauto.
Qed.

Lemma loopHead_pops (st st' : Run) (x : Worker) :
  loopHead st = (x, st') ->
  (x = Finished /\ st' = st
   /\ (queue st = [] \/ signal options && aborted st = true))
  \/ exists m,
       x = Downloading m
       /\ queue st = m :: queue st'
       /\ signal options && aborted st = false
       /\ results st' = results st /\ workers st' = workers st
       /\ completed st' = completed st /\ aborted st' = aborted st.
Proof.
  unfold loopHead.
  destruct (queue st) as [|m rest] eqn:Hq.
  - intros [= <- <-]. left. auto.
  - destruct (signal options && aborted st) eqn:Hs.
    + intros [= <- <-]. left. auto.
    + intros [= <- <-]. right. exists m. simpl. repeat split; auto.
Qed.

Lemma loopHead_setWorker (w : nat) (y x : Worker) (st st' : Run) :
  loopHead st = (x, st') ->
  loopHead (setWorker w y st) = (x, setWorker w y st').
Proof.
  unfold loopHead, setWorker. destruct st as [q res c ws ab pl rl]. simpl.
  destruct q as [|m rest]; [intros [= <- <-]; reflexivity|].
  destruct (signal options && ab); intros [= <- <-]; reflexivity.
Qed.

Lemma setWorker_setWorker (w : nat) (x y : Worker) (st : Run) :
  setWorker w x (setWorker w y st) = setWorker w x st.
Proof. unfold setWorker. simpl. rewrite list_insert_insert_eq. reflexivity. Qed.

Lemma accounted_same (st st' : Run) (taken : list SnapchatMemory) :
  queue st' = queue st -> results st' = results st ->
  completed st' = completed st -> workers st' = workers st ->
  aborted st' = aborted st ->
  accounted st taken -> accounted st' taken.
Proof.
  unfold accounted, downloadsUnderWay. intros -> -> -> -> ->. auto.
Qed.

(** A worker leaves its sleep through the loop head. *)
Lemma wake_accounted (w : nat) (x : Worker) (st st' : Run)
    (taken : list SnapchatMemory) :
  workers st !! w = Some Sleeping ->
  accounted st taken ->
  loopHead st = (x, st') ->
  exists taken', accounted (setWorker w x st') taken'.
Proof.
  intros Hw (Hmem & Hcov & Hcount & Hres & Hfin) Hhead.
  pose proof (downloading_insert _ _ _ x Hw) as Hins.
  destruct (loopHead_pops _ _ _ Hhead)
    as [(-> & -> & Hend) | (m & -> & Hq & Hs & Hr' & Hw' & Hc' & Ha')].
  - exists taken. unfold accounted, downloadsUnderWay, setWorker in *. simpl in *.
    split; [exact Hmem|]. split.
    { eapply Forall_impl; [exact Hcov|]. simpl. intros m' [Hd|Hr]; [left|right; exact Hr].
      eapply elem_of_insert_other; eauto; discriminate. }
    split; [lia|]. split; [exact Hres|]. intros _. exact Hend.
  - exists (taken ++ [m]). unfold accounted, downloadsUnderWay, setWorker. simpl.
    rewrite Hw', Hr', Hc', Ha'. simpl in Hins.
    split; [rewrite Hmem, Hq, <- app_assoc; reflexivity|]. split.
    { apply Forall_app. split.
      - eapply Forall_impl; [exact Hcov|]. simpl.
        intros m' [Hd|Hr]; [left|right; exact Hr].
        eapply elem_of_insert_other; eauto; discriminate.
      - apply Forall_singleton. left. apply list_elem_of_lookup. exists w.
        apply list_lookup_insert_eq. eapply lookup_lt_Some; eauto. }
    split; [rewrite length_app; simpl; unfold downloadsUnderWay in Hcount; lia|].
    split; [exact Hres|].
    intros Hin. apply elem_of_insert_inv in Hin. destruct Hin as [Hin|Hin]; [discriminate|].
    destruct (Hfin Hin) as [Hnil|Hab]; [rewrite Hq in Hnil; discriminate | congruence].
Qed.

(** The settling of a download, up to the point where the worker would
    sleep. *)
Lemma settle_accounted (w : nat) (m : SnapchatMemory) (r : BatchDownloadResult)
    (st st1 : Run) (taken : list SnapchatMemory) :
  workers st !! w = Some (Downloading m) ->
  accounted st taken ->
  is_Some (retries r) ->
  queue st1 = queue st -> workers st1 = workers st -> aborted st1 = aborted st ->
  completed st1 = S (completed st) ->
  results st1 = mapSet (mediaId m) r (results st) ->
  accounted (setWorker w Sleeping st1) taken.
Proof.
  intros Hw (Hmem & Hcov & Hcount & Hres & Hfin) Hretries Hq1 Hw1 Ha1 Hc1 Hr1.
  pose proof (downloading_insert _ _ _ Sleeping Hw) as Hins. simpl in Hins.
  unfold accounted, downloadsUnderWay, setWorker. simpl.
  rewrite Hq1, Hw1, Ha1, Hc1, Hr1.
  split; [exact Hmem|]. split.
  { eapply Forall_impl; [exact Hcov|]. simpl. intros m' [Hd|Hr].
    - destruct (decide (mediaId m' = mediaId m)) as [Heq|Hne].
      + right. apply fst_mapSet. auto.
      + left. eapply elem_of_insert_other; eauto. congruence.
    - right. apply fst_mapSet. auto. }
  split; [unfold downloadsUnderWay in Hcount; lia|].
  split; [apply Forall_mapSet; assumption|].
  intros Hin. apply elem_of_insert_inv in Hin.
  destruct Hin as [Hin|Hin]; [discriminate | auto].
Qed.

Lemma turn_accounted (t : Turn) (st st' : Run) (taken : list SnapchatMemory) :
  turn t st = Some st' ->
  accounted st taken ->
  exists taken', accounted st' taken'.
Proof.
  intros Ht Hacc. destruct t as [|w net random|w|]; simpl in Ht.
  - destruct (length (workers st) <? actualConcurrency memories options)%nat;
      [|discriminate].
    destruct (loopHead st) as [x st1] eqn:Hhead. injection Ht as <-.
    set (stv := {| queue := queue st; results := results st;
                   completed := completed st; workers := workers st ++ [Sleeping];
                   aborted := aborted st; progressLog := progressLog st;
                   retryLog := retryLog st |}).
    assert (Hv : accounted stv taken).
    { destruct Hacc as (Hmem & Hcov & Hcount & Hres & Hfin).
      unfold accounted, downloadsUnderWay in *. simpl.
      rewrite downloading_snoc. simpl.
      split; [exact Hmem|]. split.
      { eapply Forall_impl; [exact Hcov|]. simpl.
        intros m' [Hd|Hr]; [left; apply elem_of_app; auto | auto]. }
      split; [lia|]. split; [exact Hres|].
      intros Hin. apply elem_of_app in Hin. destruct Hin as [Hin|Hin]; [auto|].
      apply list_elem_of_singleton in Hin. discriminate. }
    assert (Hheadv : loopHead stv
                     = (x, {| queue := queue st1; results := results st1;
                              completed := completed st1;
                              workers := workers st1 ++ [Sleeping];
                              aborted := aborted st1; progressLog := progressLog st1;
                              retryLog := retryLog st1 |})).
    { unfold loopHead in *. subst stv. clear Hv. destruct st as [q res c ws ab pl rl].
      simpl in *.
      destruct q as [|m rest]; [injection Hhead as <- <-; reflexivity|].
      destruct (signal options && ab); injection Hhead as <- <-; reflexivity. }
    assert (Hwv : workers stv !! length (workers st) = Some Sleeping).
    { subst stv. simpl. rewrite lookup_app_r by lia.
      replace (length (workers st) - length (workers st))%nat with 0%nat by lia.
      reflexivity. }
    destruct (wake_accounted _ _ _ _ _ Hwv Hv Hheadv) as [taken' Hacc'].
    exists taken'. revert Hacc'. apply accounted_same; try reflexivity.
    simpl.
    assert (Hsame : workers st1 = workers st).
    { destruct (loopHead_pops _ _ _ Hhead) as [(_ & -> & _) | (m & _ & _ & _ & _ & H & _)];
        auto. }
    rewrite Hsame.
    replace (length (workers st)) with (length (workers st) + 0)%nat by lia.
    rewrite insert_app_r. reflexivity.
  - destruct (workers st !! w) as [[m| |]|] eqn:Hw; try discriminate.
    injection Ht as <-.
    destruct (afterDownload_accounts w m net random st)
      as (r & st1 & Hr & Hretries & Hq1 & Hw1 & Ha1 & Hc1 & Hres1 & Hcase).
    pose proof (settle_accounted w m r st st1 taken Hw Hacc Hretries
                                 Hq1 Hw1 Ha1 Hc1 Hres1) as Hs.
    destruct Hcase as [[-> _] | (x & st2 & Hhead & ->)]; [eauto|].
    apply (loopHead_setWorker w Sleeping) in Hhead.
    assert (Hws : workers (setWorker w Sleeping st1) !! w = Some Sleeping).
    { simpl. rewrite Hw1. apply list_lookup_insert_eq. eapply lookup_lt_Some; eauto. }
    destruct (wake_accounted _ _ _ _ _ Hws Hs Hhead) as [taken' Hacc'].
    exists taken'. rewrite setWorker_setWorker in Hacc'. exact Hacc'.
  - destruct (workers st !! w) as [[m| |]|] eqn:Hw; try discriminate.
    destruct (loopHead st) as [x st1] eqn:Hhead. injection Ht as <-.
    eapply wake_accounted; eauto.
  - destruct (signal options) eqn:Hsig; simpl in Ht; [|discriminate].
    destruct (aborted st); simpl in Ht; [discriminate|].
    injection Ht as <-. exists taken.
    destruct Hacc as (Hmem & Hcov & Hcount & Hres & Hfin).
    unfold accounted, downloadsUnderWay in *. simpl. rewrite Hsig.
    repeat split; auto.
Qed.

Lemma runTurns_accounted (ts : list Turn) (st st' : Run) (taken : list SnapchatMemory) :
  runTurns ts st = Some st' ->
  accounted st taken ->
  exists taken', accounted st' taken'.
Proof.
  revert st taken. induction ts as [|t ts IH]; intros st taken; simpl.
  - intros [= ->]. eauto.
  - destruct (turn t st) as [st1|] eqn:Ht; [|discriminate].
    intros H Hc. destruct (turn_accounted _ _ _ _ Ht Hc) as [taken1 Hc1]. eauto.
Qed.

Lemma initialRun_accounted : accounted (initialRun memories) [].
Proof.
  unfold accounted, downloadsUnderWay. simpl.
  split; [reflexivity|]. split; [constructor|]. split; [reflexivity|].
  split; [constructor|]. intros Hin. inversion Hin.
Qed.

End Accounting.

(** X9.  A run that is not cancelled downloads everything: if the
    configured concurrency is at least 1 and the signal is not raised, then
    at the end of the call the queue is empty, every memory has been
    downloaded (as many downloads were completed as there are memories),
    and every result of the returned array is the one that a worker
    recorded for the identity of its memory, never the cancellation
    failure. *)
Theorem downloadMemoriesConcurrent_downloads_everything
    (memories : list SnapchatMemory) (options : DownloadOptions)
    (ts : list Turn) (st : Run) :
  runTurns memories options ts (initialRun memories) = Some st ->
  allSettled memories options st = true ->
  signal options && aborted st = false ->
  1 <= concurrencyOf options ->
  queue st = []
  /\ completed st = length memories
  /\ downloadMemoriesConcurrent memories options ts = Some (collectResults memories st)
  /\ forall i m,
       memories !! i = Some m ->
       exists r,
         collectResults memories st !! i = Some r
         /\ mapGet (mediaId m) (results st) = Some r
         /\ is_Some (retries r)
         /\ r <> cancelledResult m.
Proof.
  intros Hrun Hend Hsig Hconc.
  destruct (runTurns_accounted _ _ _ _ _ _ Hrun (initialRun_accounted memories options))
    as (taken & Hmem & Hcov & Hcount & Hres & Hfin).
  unfold allSettled in Hend. apply andb_true_iff in Hend. destruct Hend as [Hn Hall].
  apply Nat.eqb_eq in Hn.
  assert (Hnone : downloadsUnderWay st = 0%nat)
    by (apply all_finished_none_downloading; exact Hall).
  pose proof Hall as Hall'. rewrite forallb_forall in Hall'.
  assert (Hq : queue st = []).
  { destruct memories as [|m0 rest] eqn:Hm.
    - destruct taken; [|discriminate]. destruct (queue st); [reflexivity | discriminate].
    - assert (Hpos : (1 <= actualConcurrency (m0 :: rest) options)%nat).
      { unfold actualConcurrency. simpl length. lia. }
      destruct (workers st) as [|x l] eqn:Hw; [simpl in Hn; lia|].
      assert (x = Finished) as ->.
      { simpl in Hall. apply andb_true_iff in Hall. destruct Hall as [Hx _].
        destruct x; try discriminate. reflexivity. }
      destruct (Hfin ltac:(left)) as [Hnil|Hab]; [exact Hnil | congruence]. }
  rewrite Hq, app_nil_r in Hmem. subst taken.
  split; [exact Hq|]. split; [lia|]. split.
  { unfold downloadMemoriesConcurrent, allSettled. rewrite Hrun, Hn, Nat.eqb_refl, Hall.
    reflexivity. }
  intros i m Hi.
  assert (Hin : m ∈ memories) by (apply list_elem_of_lookup; eauto).
  rewrite Forall_forall in Hcov. destruct (Hcov m Hin) as [Hd|Hr].
  { exfalso. apply list_elem_of_In in Hd. specialize (Hall' _ Hd). discriminate. }
  destruct (mapGet_is_Some _ _ Hr) as [r Hget].
  exists r. unfold collectResults. rewrite list_lookup_fmap, Hi. simpl. rewrite Hget.
  split; [reflexivity|]. split; [reflexivity|].
  apply mapGet_Some in Hget. rewrite Forall_forall in Hres.
  pose proof (Hres _ Hget) as Hsome. simpl in Hsome.
  split; [exact Hsome|]. intros ->. destruct Hsome as [? Hsome]. discriminate.
Qed.

Lemma downloadMemoriesConcurrent_downloads_everything_witness :
  let memories := [someMemory] in
  let options := {| delay := Some 0; concurrency := Some 1; batchMaxRetries := None;
                    onProgress := true; batchOnRetry := false; signal := false |} in
  let ts := [Spawn; Settle 0 servesJpeg (fun _ => 0%Q)] in
  exists st,
    runTurns memories options ts (initialRun memories) = Some st
    /\ queue st = []
    /\ completed st = length memories
    /\ downloadMemoriesConcurrent memories options ts
       = Some (collectResults memories st)
    /\ forall i m,
         memories !! i = Some m ->
         exists r,
           collectResults memories st !! i = Some r
           /\ mapGet (mediaId m) (results st) = Some r
           /\ is_Some (retries r)
           /\ r <> cancelledResult m.
Proof.
  intros memories options ts. eexists. split; [vm_compute; reflexivity|].
  apply (downloadMemoriesConcurrent_downloads_everything memories options ts).
  - vm_compute. reflexivity.
  - reflexivity.
  - reflexivity.
  - vm_compute. discriminate.
Defined.

(* ===================================================================== *)
(** * The sequential download completes in input order                    *)
(* ===================================================================== *)

Lemma mapSet_fresh {V : Type} (k : string) (v : V) (m : JsMap V) :
  k ∉ m.*1 -> mapSet k v m = m ++ [(k, v)].
Proof.
  induction m as [|[k0 v0] m IH]; csimpl; intros Hfresh; [reflexivity|].
  apply not_elem_of_cons in Hfresh. destruct Hfresh as [Hne Hfresh].
  destruct (String.eqb_spec k0 k) as [->|_]; [contradiction|].
  rewrite IH by assumption. reflexivity.
Qed.

Lemma progressOf_snoc (total : nat) (done : list SnapchatMemory) (m : SnapchatMemory) :
  progressOf total (done ++ [m]) = progressOf total done ++ [(S (length done), total, m)].
Proof.
  unfold progressOf. rewrite imap_app. simpl. rewrite Nat.add_0_r. reflexivity.
Qed.

Lemma recorded_keys {V : Type} (f : V -> SnapchatMemory) (rs : JsMap V)
    (done : list SnapchatMemory) :
  Forall2 (fun kr m => kr.1 = mediaId m /\ f kr.2 = m) rs done ->
  rs.*1 = mediaId <$> done /\ (fun kr => f kr.2) <$> rs = done.
Proof.
  induction 1 as [|[k v] m rs done [Hk Hm] _ [IH1 IH2]]; csimpl; [auto|].
  simpl in Hk, Hm. rewrite IH1, IH2, Hk, Hm. auto.
Qed.

(** Reading the results back by identity, in the order of the memories. *)
Lemma mapGet_recorded (rs : JsMap BatchDownloadResult) (done : list SnapchatMemory) :
  Forall2 (fun kr m => kr.1 = mediaId m /\ memory kr.2 = m) rs done ->
  NoDup (mediaId <$> done) ->
  (fun m => default (cancelledResult m) (mapGet (mediaId m) rs)) <$> done = rs.*2.
Proof.
  induction 1 as [|[k v] m rs done [Hk Hm] Hrest IH]; csimpl; intros Hnd; [reflexivity|].
  simpl in Hk, Hm. apply NoDup_cons in Hnd. destruct Hnd as [Hfresh Hnd].
  subst k. rewrite String.eqb_refl. simpl. f_equal.
  rewrite <- IH by assumption. apply Forall_fmap_ext. apply Forall_forall.
  intros m' Hin.
  destruct (String.eqb_spec (mediaId m) (mediaId m')) as [Heq|_]; [|reflexivity].
  exfalso. apply Hfresh. rewrite Heq. apply list_elem_of_fmap_2. exact Hin.
Qed.

Section Sequential.

  Variable memories : list SnapchatMemory.
  Variable options : DownloadOptions.
  Hypothesis distinct : NoDup (mediaId <$> memories).
  Hypothesis single : (actualConcurrency memories options <= 1)%nat.

  Local Abbreviation turn := (turn memories options).
  Local Abbreviation runTurns := (runTurns memories options).
  Local Abbreviation loopHead := (loopHead options).
  Local Abbreviation afterDownload := (afterDownload memories options).
  Local Abbreviation inOrder := (inOrder memories options).

(** The loop head takes the memory that follows those already taken. *)
Lemma loopHead_next (x : Worker) (st st' : Run) (done : list SnapchatMemory) :
  loopHead st = (x, st') ->
  memories = done ++ queue st ->
  memories = done ++ underWay [x] ++ queue st'
  /\ results st' = results st /\ completed st' = completed st
  /\ progressLog st' = progressLog st /\ workers st' = workers st.
Proof.
  unfold loopHead. intros Hhead Hmem.
  destruct (queue st) as [|m rest] eqn:Hq.
  - injection Hhead as <- <-. rewrite Hq. auto.
  - destruct (signal options && aborted st).
    + injection Hhead as <- <-. rewrite Hq. auto.
    + injection Hhead as <- <-. simpl. auto.
Qed.

(** The settling of a download, with what the progress callback is told. *)
Lemma afterDownload_progress (w : nat) (m : SnapchatMemory) (net : Network)
    (random : nat -> Q) (st : Run) :
  exists r st1,
    memory r = m
    /\ queue st1 = queue st
    /\ workers st1 = workers st
    /\ completed st1 = S (completed st)
    /\ results st1 = mapSet (mediaId m) r (results st)
    /\ progressLog st1
       = (if onProgress options && (0 <? length (results st1))%nat then
            match last (snd <$> results st1) with
            | Some lastResult =>
                progressLog st
                ++ [(S (completed st), length memories, memory lastResult)]
            | None => progressLog st
            end
          else progressLog st)
    /\ (afterDownload w m net random st = setWorker w Sleeping st1
        \/ exists x st2,
             loopHead st1 = (x, st2)
             /\ afterDownload w m net random st = setWorker w x st2).
Proof.
  unfold afterDownload.
  destruct (downloadMemory _ _ _ _) as [outcome ev].
  match goal with
  | |- context [mapSet (mediaId m) ?r (results st)] => exists r
  end.
  match goal with
  | |- context [if _ then setWorker w Sleeping ?s else _] => exists s
  end.
  split; [destruct outcome; reflexivity|].
  repeat (split; [reflexivity|]).
  match goal with
  | |- context [if ?b then setWorker _ _ _ else _] => destruct b
  end.
  - left. reflexivity.
  - right. destruct (loopHead _) as [x st2]. eauto.
Qed.

Lemma single_worker (st : Run) (w : nat) (x : Worker) :
  (length (workers st) <= 1)%nat ->
  workers st !! w = Some x ->
  w = 0%nat /\ workers st = [x].
Proof.
  destruct (workers st) as [|y [|z l]]; simpl; intros Hlen Hw;
    [discriminate | | lia].
  destruct w as [|w]; [|discriminate]. injection Hw as ->. auto.
Qed.

Lemma turn_inOrder (t : Turn) (st st' : Run) (done : list SnapchatMemory) :
  turn t st = Some st' ->
  inOrder st done ->
  exists done', inOrder st' done'.
Proof.
  intros Ht (Hmem & Hlen & Hres & Hc & Hlog).
  destruct t as [|w net random|w|]; simpl in Ht.
  - destruct (Nat.ltb_spec (length (workers st)) (actualConcurrency memories options))
      as [Hlt|_]; [|discriminate].
    assert (Hnone : workers st = []) by (destruct (workers st); [reflexivity | simpl in Hlt; lia]).
    destruct (loopHead st) as [x st1] eqn:Hhead. injection Ht as <-.
    rewrite Hnone in Hmem. simpl in Hmem.
    destruct (loopHead_next _ _ _ done Hhead Hmem) as (Hmem1 & Hr1 & Hc1 & Hl1 & Hw1).
    exists done. unfold inOrder. simpl. rewrite Hw1, Hnone, Hr1, Hc1, Hl1. simpl.
    split; [exact Hmem1|]. split; [lia|]. auto.
  - destruct (workers st !! w) as [[m| |]|] eqn:Hw; try discriminate.
    injection Ht as <-.
    destruct (single_worker _ _ _ Hlen Hw) as [-> Hws].
    rewrite Hws in Hmem. simpl in Hmem.
    destruct (recorded_keys _ _ _ Hres) as [Hkeys _].
    assert (Hfresh : mediaId m ∉ (results st).*1).
    { rewrite Hkeys. pose proof distinct as Hnd. rewrite Hmem in Hnd.
      rewrite fmap_app in Hnd. apply NoDup_app in Hnd. destruct Hnd as (_ & Hnd & _).
      intros Hin. apply (Hnd _ Hin). csimpl. left. }
    destruct (afterDownload_progress 0 m net random st)
      as (r & st1 & Hr & Hq1 & Hw1 & Hc1 & Hres1 & Hlog1 & Hcase).
    rewrite (mapSet_fresh _ _ _ Hfresh) in Hres1.
    assert (Hlog1' : progressLog st1
                     = if onProgress options
                       then progressOf (length memories) (done ++ [m]) else []).
    { rewrite Hlog1, Hres1, length_app, fmap_app. csimpl. rewrite last_snoc.
      replace (0 <? length (results st) + 1)%nat with true
        by (symmetry; apply Nat.ltb_lt; lia).
      rewrite andb_true_r, Hlog, Hr, Hc. destruct (onProgress options); [|reflexivity].
      rewrite progressOf_snoc. reflexivity. }
    assert (Hmem' : memories = (done ++ [m]) ++ queue st1)
      by (rewrite Hq1, <- app_assoc; exact Hmem).
    assert (Hrec : Forall2 (fun kr m => kr.1 = mediaId m /\ memory kr.2 = m)
                           (results st1) (done ++ [m])).
    { rewrite Hres1. apply Forall2_app; [exact Hres|]. repeat constructor. exact Hr. }
    exists (done ++ [m]). unfold inOrder.
    destruct Hcase as [-> | (x & st2 & Hhead & ->)]; simpl.
    + rewrite Hw1, Hws, Hc1, Hc, length_app. simpl.
      split; [exact Hmem'|]. split; [lia|]. split; [exact Hrec|]. split; [lia|].
      exact Hlog1'.
    + destruct (loopHead_next _ _ _ _ Hhead Hmem') as (Hmem2 & Hr2 & Hc2 & Hl2 & Hw2).
      rewrite Hw2, Hw1, Hws, Hr2, Hc2, Hl2, Hc1, Hc, length_app. simpl.
      split; [exact Hmem2|]. split; [lia|]. split; [exact Hrec|]. split; [lia|].
      exact Hlog1'.
  - destruct (workers st !! w) as [[m| |]|] eqn:Hw; try discriminate.
    destruct (loopHead st) as [x st1] eqn:Hhead. injection Ht as <-.
    destruct (single_worker _ _ _ Hlen Hw) as [-> Hws].
    rewrite Hws in Hmem. simpl in Hmem.
    destruct (loopHead_next _ _ _ done Hhead Hmem) as (Hmem1 & Hr1 & Hc1 & Hl1 & Hw1).
    exists done. unfold inOrder. simpl. rewrite Hw1, Hws, Hr1, Hc1, Hl1. simpl.
    split; [exact Hmem1|]. split; [lia|]. auto.
  - destruct (signal options && negb (aborted st)); [|discriminate].
    injection Ht as <-. exists done. unfold inOrder. simpl. auto.
Qed.

Lemma runTurns_inOrder (ts : list Turn) (st st' : Run) (done : list SnapchatMemory) :
  runTurns ts st = Some st' ->
  inOrder st done ->
  exists done', inOrder st' done'.
Proof.
  revert st done. induction ts as [|t ts IH]; intros st done; simpl.
  - intros [= ->]. eauto.
  - destruct (turn t st) as [st1|] eqn:Ht; [|discriminate].
    intros H Hc. destruct (turn_inOrder _ _ _ _ Ht Hc) as [done1 Hc1]. eauto.
Qed.

Lemma initialRun_inOrder : inOrder (initialRun memories) [].
Proof.
  unfold inOrder. simpl. split; [reflexivity|]. split; [apply Nat.le_0_l|].
  split; [constructor|]. split; [reflexivity|].
  destruct (onProgress options); reflexivity.
Qed.

End Sequential.

Lemma underWay_finished (ws : list Worker) :
  forallb isFinished ws = true -> underWay ws = [].
Proof.
  induction ws as [|x ws IH]; simpl; [reflexivity|].
  destruct x; simpl; try discriminate. exact IH.
Qed.

(** X10.  The sequential download works through the memories in input
    order.  For memories of pairwise distinct identities, at every moment of
    every run of [downloadMemories], the downloads completed so far are
    those of the first [completed] memories, recorded in this order; at most
    one download is under way, the one of the next memory; the progress
    callback was told [(1, n, m1)], [(2, n, m2)], ... for the memories in
    input order.  The array returned at the end is the recorded results of
    this prefix followed by the cancellation failure for each memory that
    was left. *)
Theorem downloadMemories_in_input_order
    (memories : list SnapchatMemory) (options : DownloadOptions)
    (ts : list Turn) (st : Run) :
  NoDup (mediaId <$> memories) ->
  runTurns memories (withConcurrency1 options) ts (initialRun memories) = Some st ->
  let done := take (completed st) memories in
  (completed st <= length memories)%nat
  /\ memories = done ++ underWay (workers st) ++ queue st
  /\ (length (underWay (workers st)) <= 1)%nat
  /\ (results st).*1 = mediaId <$> done
  /\ (fun kr => memory kr.2) <$> results st = done
  /\ progressLog st
     = (if onProgress options then progressOf (length memories) done else [])
  /\ (allSettled memories (withConcurrency1 options) st = true ->
      downloadMemories memories options ts
      = Some ((results st).*2 ++ (cancelledResult <$> drop (completed st) memories))).
Proof.
  intros Hnd Hrun.
  assert (Hsingle : (actualConcurrency memories (withConcurrency1 options) <= 1)%nat).
  { unfold actualConcurrency, concurrencyOf. simpl. lia. }
  destruct (runTurns_inOrder memories (withConcurrency1 options) Hnd Hsingle
              _ _ _ [] Hrun (initialRun_inOrder memories (withConcurrency1 options)))
    as (done & Hmem & Hlen & Hres & Hc & Hlog).
  assert (Hdone : take (completed st) memories = done).
  { rewrite Hc. rewrite Hmem at 1. apply take_app_length. }
  assert (Hdrop : drop (completed st) memories = underWay (workers st) ++ queue st).
  { rewrite Hc. rewrite Hmem at 1. apply drop_app_length. }
  cbv zeta. rewrite Hdone.
  destruct (recorded_keys _ _ _ Hres) as [Hkeys Hmems].
  split; [rewrite Hc, Hmem at 1; rewrite length_app; lia|].
  split; [exact Hmem|].
  split.
  { destruct (workers st) as [|x [|y l]]; simpl in Hlen |- *; [lia | | lia].
    destruct x; simpl; lia. }
  split; [exact Hkeys|]. split; [exact Hmems|]. split; [exact Hlog|].
  intros Hend. unfold downloadMemories, downloadMemoriesConcurrent.
  rewrite Hrun, Hend. f_equal.
  unfold allSettled in Hend. apply andb_true_iff in Hend. destruct Hend as [_ Hall].
  rewrite Hdrop, (underWay_finished _ Hall) in *. simpl in *.
  unfold collectResults. rewrite Hmem at 1. rewrite fmap_app. f_equal.
  - apply mapGet_recorded; [exact Hres|].
    rewrite Hmem, fmap_app in Hnd. apply NoDup_app in Hnd. tauto.
  - apply Forall_fmap_ext. apply Forall_forall. intros m Hin.
    assert (Hnone : mapGet (mediaId m) (results st) = None).
    { apply mapGet_None. rewrite Hkeys. rewrite Hmem, fmap_app in Hnd.
      apply NoDup_app in Hnd. destruct Hnd as (_ & Hnd & _).
      intros Hd. apply (Hnd _ Hd). apply list_elem_of_fmap_2. exact Hin. }
    rewrite Hnone. reflexivity.
Qed.

Lemma downloadMemories_in_input_order_witness :
  let memories :=
    [someMemory;
     {| date := 1; mediaType := Video; location := None;
        downloadUrl := "https://app.snapchat.com/dmd/memories?mid=b2";
        mediaDownloadUrl := None; mediaId := "b2" |}] in
  let options := {| delay := Some 0; concurrency := None; batchMaxRetries := None;
                    onProgress := true; batchOnRetry := false; signal := false |} in
  let ts := [Spawn; Settle 0 servesJpeg (fun _ => 0%Q);
             Settle 0 always503 (fun _ => 0%Q)] in
  exists st,
    runTurns memories (withConcurrency1 options) ts (initialRun memories) = Some st
    /\ let done := take (completed st) memories in
       (completed st <= length memories)%nat
       /\ memories = done ++ underWay (workers st) ++ queue st
       /\ (length (underWay (workers st)) <= 1)%nat
       /\ (results st).*1 = mediaId <$> done
       /\ (fun kr => memory kr.2) <$> results st = done
       /\ progressLog st
          = (if onProgress options then progressOf (length memories) done else [])
       /\ (allSettled memories (withConcurrency1 options) st = true ->
           downloadMemories memories options ts
           = Some ((results st).*2
                   ++ (cancelledResult <$> drop (completed st) memories))).
Proof.
  intros memories options ts. eexists. split; [vm_compute; reflexivity|].
  apply (downloadMemories_in_input_order memories options ts).
  - apply NoDup_cons_2; [|apply NoDup_singleton].
    intros Hin. apply elem_of_cons in Hin. destruct Hin as [Hin|Hin];
      [discriminate | inversion Hin].
  - vm_compute. reflexivity.
Defined.

(* ===================================================================== *)
(** * The statistics of the manifest                                      *)
(* ===================================================================== *)

Lemma filter_length_Permutation {A : Type} (f : A -> bool) (l l' : list A) :
  l ≡ₚ l' -> length (List.filter f l) = length (List.filter f l').
Proof.
  induction 1 as [|x l l' _ IH|x y l|l1 l2 l3 _ IH1 _ IH2]; simpl.
  - reflexivity.
  - destruct (f x); simpl; rewrite IH; reflexivity.
  - destruct (f x), (f y); reflexivity.
  - congruence.
Qed.

(** The statistics of a map of entries with one more key. *)
Lemma stats_insert (m : gmap string ManifestEntry) (k : string) (e : ManifestEntry)
    (t : MediaType) :
  m !! k = None ->
  let values := snd <$> map_to_list m in
  let values' := snd <$> map_to_list (<[k := e]> m) in
  length values' = S (length values)
  /\ length (List.filter (fun e => bool_decide (entryMediaType e = t)) values')
     = (length (List.filter (fun e => bool_decide (entryMediaType e = t)) values)
        + oneIf t (entryMediaType e))%nat.
Proof.
  intros Hk values values'.
  assert (Hp : values' ≡ₚ e :: values).
  { subst values values'. rewrite (map_to_list_insert m k e Hk). reflexivity. }
  split.
  - rewrite (Permutation_length Hp). reflexivity.
  - rewrite (filter_length_Permutation _ _ _ Hp). simpl. unfold oneIf.
    destruct (bool_decide (entryMediaType e = t)); simpl; lia.
Qed.

Lemma stats_split (values : list ManifestEntry) :
  length values
  = (length (List.filter (fun e => bool_decide (entryMediaType e = Image)) values)
     + length (List.filter (fun e => bool_decide (entryMediaType e = Video)) values))%nat.
Proof.
  induction values as [|e values IH]; simpl; [reflexivity|].
  destruct (entryMediaType e); simpl; lia.
Qed.

(** X11.  The statistics of the manifest count its entries: [total] is
    the number of identities recorded, and every entry is either an image or
    a video.  Recording a download for an identity that the manifest does
    not hold adds one to [total] and one to the count of its media type, and
    nothing to the other count; recording it for an identity already held
    replaces the entry: [total] stays, and the counts move from the media
    type of the old entry to the one of the new entry.  In both cases the
    entry returned is the one then found under the identity, and no other
    identity is touched.  (The identity [__proto__], whose assignment
    creates no property, is left aside.) *)
Theorem getManifestStats_counts_entries
    (now : Z) (manifest : ExportManifest) (memory : SnapchatMemory)
    (filePath : string) (fileSize : Z) :
  mediaId memory <> "__proto__" ->
  let before := getManifestStats manifest in
  let added := addManifestEntry now manifest memory filePath fileSize in
  let after := getManifestStats added.1 in
  statsTotal before = size (getDownloadedIds manifest)
  /\ statsTotal before = (statsImages before + statsVideos before)%nat
  /\ entries added.1 !! mediaId memory = Some added.2
  /\ (forall k, k <> mediaId memory -> entries added.1 !! k = entries manifest !! k)
  /\ match entries manifest !! mediaId memory with
     | None =>
         statsTotal after = S (statsTotal before)
         /\ statsImages after = (statsImages before + oneIf Image (mediaType memory))%nat
         /\ statsVideos after = (statsVideos before + oneIf Video (mediaType memory))%nat
     | Some old =>
         statsTotal after = statsTotal before
         /\ (statsImages after + oneIf Image (entryMediaType old)
             = statsImages before + oneIf Image (mediaType memory))%nat
         /\ (statsVideos after + oneIf Video (entryMediaType old)
             = statsVideos before + oneIf Video (mediaType memory))%nat
     end.
Proof.
  intros Hproto before added after. subst before added after.
  unfold getManifestStats, statsTotal, statsImages, statsVideos, addManifestEntry,
    getDownloadedIds. simpl.
  rewrite !(assignEntry_insert _ _ _ Hproto).
  split.
  { rewrite length_fmap, size_dom. apply length_map_to_list. }
  split; [apply stats_split|].
  split; [apply lookup_insert_eq|].
  split; [intros k Hk; apply lookup_insert_ne; congruence|].
  set (e := {| entryMediaId := mediaId memory; downloadedAt := now;
               filePath := filePath; fileSize := fileSize;
               entryMediaType := mediaType memory; originalDate := date memory |}).
  destruct (entries manifest !! mediaId memory) as [old|] eqn:Hold.
  - set (rest := delete (mediaId memory) (entries manifest)).
    assert (Hrest : rest !! mediaId memory = None) by apply lookup_delete_eq.
    assert (Hm : entries manifest = <[mediaId memory := old]> rest)
      by (subst rest; rewrite insert_delete_id; auto).
    assert (Hm' : <[mediaId memory := e]> (entries manifest)
                  = <[mediaId memory := e]> rest)
      by (subst rest; rewrite insert_delete_eq; reflexivity).
    rewrite Hm', Hm.
    destruct (stats_insert rest _ e Image Hrest) as [Ht Hi].
    destruct (stats_insert rest _ e Video Hrest) as [_ Hv].
    destruct (stats_insert rest _ old Image Hrest) as [Ht' Hi'].
    destruct (stats_insert rest _ old Video Hrest) as [_ Hv'].
    cbv zeta in *. simpl in Hi, Hv. lia.
  - destruct (stats_insert (entries manifest) _ e Image Hold) as [Ht Hi].
    destruct (stats_insert (entries manifest) _ e Video Hold) as [_ Hv].
    cbv zeta in *. simpl in Hi, Hv. auto.
Qed.

Lemma getManifestStats_counts_entries_witness :
  let manifest := createManifest 0 "out" in
  let before := getManifestStats manifest in
  let added := addManifestEntry 1 manifest someMemory "out/a1.jpg" 1 in
  let after := getManifestStats added.1 in
  statsTotal before = size (getDownloadedIds manifest)
  /\ statsTotal before = (statsImages before + statsVideos before)%nat
  /\ entries added.1 !! mediaId someMemory = Some added.2
  /\ (forall k, k <> mediaId someMemory -> entries added.1 !! k = entries manifest !! k)
  /\ match entries manifest !! mediaId someMemory with
     | None =>
         statsTotal after = S (statsTotal before)
         /\ statsImages after
            = (statsImages before + oneIf Image (mediaType someMemory))%nat
         /\ statsVideos after
            = (statsVideos before + oneIf Video (mediaType someMemory))%nat
     | Some old =>
         statsTotal after = statsTotal before
         /\ (statsImages after + oneIf Image (entryMediaType old)
             = statsImages before + oneIf Image (mediaType someMemory))%nat
         /\ (statsVideos after + oneIf Video (entryMediaType old)
             = statsVideos before + oneIf Video (mediaType someMemory))%nat
     end.
Proof.
  apply (getManifestStats_counts_entries 1 (createManifest 0 "out") someMemory
           "out/a1.jpg" 1).
  discriminate.
Defined.

(* ===================================================================== *)
(** * Loading the manifest: rejections and the file as it is              *)
(* ===================================================================== *)

Lemma loadManifestCatch_cases (now : Z) (dir : string) (e : JsError) :
  (fileIsMissing e
   /\ loadManifestCatch now dir e = (inr (Created (createManifest now dir)), []))
  \/ (~ fileIsMissing e /\ loadManifestCatch now dir e = (inl e, [])).
Proof.
  unfold loadManifestCatch, fileIsMissing.
  destruct e as [url statusCode message|[code|] message|];
    try (right; split; [intros [? ?]; discriminate | reflexivity]).
  destruct (String.eqb_spec code "ENOENT") as [->|Hne].
  - left. eauto.
  - right. split; [intros [? [= ? ?]]; contradiction | reflexivity].
Qed.

Lemma isManifestVersion_spec (v : option Json) :
  isManifestVersion v = true <-> isVersion1 v.
Proof.
  unfold isManifestVersion, isVersion1. split.
  - destruct v as [[]|]; try discriminate. intros Hq.
    apply Qeq_bool_iff in Hq. eauto.
  - intros (q & -> & Hq). apply Qeq_bool_iff. exact Hq.
Qed.

(** X12.  [loadManifest] rejects with exactly the errors thrown inside
    its [try] block that do not say that the file is missing: any other
    failure of [readFile], the syntax error of a file that is not JSON, the
    type error of a file that holds [null].  It resolves to the content of
    the file exactly when the file parses to a value whose [version] is the
    number 1, and then to that value as it is, whatever else it holds or
    lacks, and without warning.  In no other case does it start afresh than
    a missing file or another version. *)
Theorem loadManifest_rejects_or_reads
    (join : string -> string -> string)
    (readFile : string -> JsError + string)
    (jsonParse : string -> JsError + Json)
    (toJsString : option Json -> string)
    (now : Z) (dir : string) :
  let path := join dir ".snapchat-export-manifest.json" in
  let settled := loadManifest join readFile jsonParse toJsString now dir in
  (forall e,
      fst settled = inl e
      <-> ~ fileIsMissing e /\ thrownWhileLoading readFile jsonParse path e)
  /\ (forall data,
         fst settled = inr (FromFile data)
         <-> exists content v,
               readFile path = inr content
               /\ jsonParse content = inr data
               /\ getProperty data "version" = inr v
               /\ isVersion1 v)
  /\ (forall manifest,
         fst settled = inr (Created manifest)
         -> manifest = createManifest now dir
            /\ ((exists e, fileIsMissing e /\ thrownWhileLoading readFile jsonParse path e)
                \/ exists content data v,
                     readFile path = inr content
                     /\ jsonParse content = inr data
                     /\ getProperty data "version" = inr v
                     /\ ~ isVersion1 v))
  /\ (forall warning,
         warning ∈ snd settled -> exists manifest, fst settled = inr (Created manifest)).
Proof.
  intros path settled. subst path settled.
  unfold loadManifest, getManifestPath, MANIFEST_FILENAME, thrownWhileLoading.
  set (path := join dir ".snapchat-export-manifest.json").
  destruct (readFile path) as [e0|content] eqn:Hread.
  { destruct (loadManifestCatch_cases now dir e0) as [[Hmiss ->] | [Hnot ->]]; simpl.
    - split; [|split; [|split]].
      + intros e. split; [discriminate|].
        intros [Hn [[= ->] | (c & [=] & _)]]. contradiction.
      + intros data. split; [discriminate | intros (c & v & [=] & _)].
      + intros manifest [= <-]. split; [reflexivity|]. left. eauto.
      + intros w Hw. inversion Hw.
    - split; [|split; [|split]].
      + intros e. split.
        * intros [= <-]. auto.
        * intros [_ [[= ->] | (c & [=] & _)]]. reflexivity.
      + intros data. split; [discriminate | intros (c & v & [=] & _)].
      + intros manifest [=].
      + intros w Hw. inversion Hw. }
  destruct (jsonParse content) as [e0|data0] eqn:Hparse.
  { destruct (loadManifestCatch_cases now dir e0) as [[Hmiss ->] | [Hnot ->]]; simpl.
    - split; [|split; [|split]].
      + intros e. split; [discriminate|].
        intros [Hn [[=] | (c & [= <-] & [He | (d & Hd & _)])]]; [|congruence].
        rewrite Hparse in He. injection He as ->. contradiction.
      + intros data. split; [discriminate|].
        intros (c & v & [= <-] & Hp & _). congruence.
      + intros manifest [= <-]. split; [reflexivity|]. left. exists e0.
        split; [exact Hmiss|]. right. eauto.
      + intros w Hw. inversion Hw.
    - split; [|split; [|split]].
      + intros e. split.
        * intros [= <-]. split; [exact Hnot|]. right. eauto.
        * intros [_ [[=] | (c & [= <-] & [He | (d & Hd & _)])]]; congruence.
      + intros data. split; [discriminate|].
        intros (c & v & [= <-] & Hp & _). congruence.
      + intros manifest [=].
      + intros w Hw. inversion Hw. }
  destruct (getProperty data0 "version") as [e0|v0] eqn:Hversion.
  { destruct (loadManifestCatch_cases now dir e0) as [[Hmiss ->] | [Hnot ->]]; simpl.
    - split; [|split; [|split]].
      + intros e. split; [discriminate|].
        intros [Hn [[=] | (c & [= <-] & [He | (d & Hd & He)])]]; [congruence|].
        rewrite Hparse in Hd. injection Hd as <-. rewrite Hversion in He.
        injection He as ->. contradiction.
      + intros data. split; [discriminate|].
        intros (c & v & [= <-] & Hp & Hv & _).
        rewrite Hparse in Hp. injection Hp as <-. congruence.
      + intros manifest [= <-]. split; [reflexivity|]. left. exists e0.
        split; [exact Hmiss|]. right. exists content. split; [reflexivity|]. right. eauto.
      + intros w Hw. inversion Hw.
    - split; [|split; [|split]].
      + intros e. split.
        * intros [= <-]. split; [exact Hnot|]. right. exists content.
          split; [reflexivity|]. right. eauto.
        * intros [_ [[=] | (c & [= <-] & [He | (d & Hd & He)])]]; [congruence|].
          rewrite Hparse in Hd. injection Hd as <-. congruence.
      + intros data. split; [discriminate|].
        intros (c & v & [= <-] & Hp & Hv & _).
        rewrite Hparse in Hp. injection Hp as <-. congruence.
      + intros manifest [=].
      + intros w Hw. inversion Hw. }
  destruct (isManifestVersion v0) eqn:Hv; simpl.
  - apply isManifestVersion_spec in Hv.
    split; [|split; [|split]].
    + intros e. split; [discriminate|].
      intros [_ [[=] | (c & [= <-] & [He | (d & Hd & He)])]]; [congruence|].
      rewrite Hparse in Hd. injection Hd as <-. congruence.
    + intros data. split.
      * intros [= <-]. exists content, v0. auto.
      * intros (c & v & [= <-] & Hp & _). congruence.
    + intros manifest [=].
    + intros w Hw. inversion Hw.
  - assert (Hnot : ~ isVersion1 v0).
    { intros Hyes. apply isManifestVersion_spec in Hyes. congruence. }
    split; [|split; [|split]].
    + intros e. split; [discriminate|].
      intros [_ [[=] | (c & [= <-] & [He | (d & Hd & He)])]]; [congruence|].
      rewrite Hparse in Hd. injection Hd as <-. congruence.
    + intros data. split; [discriminate|].
      intros (c & v & [= <-] & Hp & Hvv & Hone).
      rewrite Hparse in Hp. injection Hp as <-. rewrite Hversion in Hvv.
      injection Hvv as <-. contradiction.
    + intros manifest [= <-]. split; [reflexivity|]. right.
      exists content, data0, v0. auto.
    + intros w _. eauto.
Qed.

(* ===================================================================== *)
(** * Saving the results of a batch                                       *)
(* ===================================================================== *)

Section ExporterFacts.

  Variable World : Type.
  Variable generateOutputPath : SnapchatMemory -> string -> ExportOptions.t -> string.
  Variable dirname : string -> string.
  Variable access : string -> World -> bool.
  Variable mkdir : string -> World -> (JsError + unit) * World.
  Variable writeFile : string -> Buffer -> World -> (JsError + unit) * World.
  Variable embedMetadata : string -> SnapchatMemory -> World -> (JsError + unit) * World.
  Variable options : ExportOptions.t.

  Local Abbreviation saveMemory :=
    (saveMemory World generateOutputPath dirname access mkdir writeFile embedMetadata).
  Local Abbreviation processResult :=
    (processResult World generateOutputPath dirname access mkdir writeFile embedMetadata
                   options).

(** One result moves exactly one of the three counters. *)
Lemma processResult_accounts (st : Processing World) (result : BatchDownloadResult) :
  let s := stats World st in
  let st' := processResult st result in
  let s' := stats World st' in
  ExportStats.total s' = ExportStats.total s
  /\ ExportStats.retries s' = ExportStats.retries s
  /\ (ExportStats.downloaded s' + ExportStats.skipped s' + ExportStats.failed s'
      = S (ExportStats.downloaded s + ExportStats.skipped s + ExportStats.failed s))%nat
  /\ (ExportStats.downloaded s' + ExportStats.images s + ExportStats.videos s
      = ExportStats.downloaded s + ExportStats.images s' + ExportStats.videos s')%nat
  /\ (ExportStats.images s <= ExportStats.images s')%nat
  /\ (ExportStats.videos s <= ExportStats.videos s')%nat
  /\ (ExportStats.failed s' + length (errorLines World st)
      = ExportStats.failed s + length (errorLines World st')
        + (if hasMedia result then 0 else 1))%nat.
Proof.
  unfold processResult, hasMedia.
  destruct (success result); simpl; [|repeat split; lia].
  destruct (media result) as [m|]; simpl; [|repeat split; lia].
  destruct (saveMemory (memory result) m options (world World st))
    as [[[error|path] warned] w].
  - destruct (isFileAlreadyExists error); simpl; rewrite ?length_app; simpl;
      repeat split; lia.
  - simpl. destruct (mediaType (memory result)); repeat split; lia.
Qed.

Lemma fold_processResult_accounts (results : list BatchDownloadResult)
    (st : Processing World) :
  let s := stats World st in
  let st' := fold_left processResult results st in
  let s' := stats World st' in
  ExportStats.total s' = ExportStats.total s
  /\ ExportStats.retries s' = ExportStats.retries s
  /\ (ExportStats.downloaded s' + ExportStats.skipped s' + ExportStats.failed s'
      = ExportStats.downloaded s + ExportStats.skipped s + ExportStats.failed s
        + length results)%nat
  /\ (ExportStats.downloaded s' + ExportStats.images s + ExportStats.videos s
      = ExportStats.downloaded s + ExportStats.images s' + ExportStats.videos s')%nat
  /\ (ExportStats.images s <= ExportStats.images s')%nat
  /\ (ExportStats.videos s <= ExportStats.videos s')%nat
  /\ (ExportStats.failed s' + length (errorLines World st)
      = ExportStats.failed s + length (errorLines World st')
        + length (List.filter (fun r => negb (hasMedia r)) results))%nat.
Proof.
  revert st. induction results as [|result results IH]; intros st; simpl.
  - repeat split; lia.
  - pose proof (processResult_accounts st result) as H1.
    pose proof (IH (processResult st result)) as H2.
    cbv zeta in H1, H2.
    destruct H1 as (Ha1 & Hb1 & Hc1 & Hd1 & He1 & Hf1 & Hg1).
    destruct H2 as (Ha2 & Hb2 & Hc2 & Hd2 & He2 & Hf2 & Hg2).
    destruct (hasMedia result); simpl; repeat split; lia.
Qed.

(** When the file is there and existing files are to be skipped, nothing is
    done. *)
Lemma saveMemory_skips (memory : SnapchatMemory) (media : DownloadedMedia)
    (w : World) :
  ExportOptions.skipExisting options = true ->
  access (generateOutputPath memory (extension media) options) w = true ->
  saveMemory memory media options w
  = (inl (OtherError None "File already exists"), [], w).
Proof.
  intros Hskip Hthere. unfold saveMemory, fileExists. rewrite Hskip, Hthere. reflexivity.
Qed.

End ExporterFacts.

(** X13.  [processDownloadResults] accounts for every result exactly
    once: [total] is the number of results, and each of them is counted as
    downloaded, skipped or failed, so that the three add up to [total].  The
    downloaded ones are counted once more, as image or as video.  The
    failures are the results that carry no media plus the saves that failed,
    for each of which one line is written with [console.error].  [retries]
    is never counted: it is 0 whatever the results say. *)
Theorem processDownloadResults_accounts
    (World : Type)
    (generateOutputPath : SnapchatMemory -> string -> ExportOptions.t -> string)
    (dirname : string -> string)
    (access : string -> World -> bool)
    (mkdir : string -> World -> (JsError + unit) * World)
    (writeFile : string -> Buffer -> World -> (JsError + unit) * World)
    (embedMetadata : string -> SnapchatMemory -> World -> (JsError + unit) * World)
    (results : list BatchDownloadResult) (options : ExportOptions.t) (w : World) :
  let st :=
    processDownloadResults World generateOutputPath dirname access mkdir writeFile
                           embedMetadata results options w in
  let s := stats World st in
  ExportStats.total s = length results
  /\ (ExportStats.downloaded s + ExportStats.skipped s + ExportStats.failed s
      = ExportStats.total s)%nat
  /\ (ExportStats.images s + ExportStats.videos s = ExportStats.downloaded s)%nat
  /\ ExportStats.retries s = 0%nat
  /\ (ExportStats.failed s
      = length (List.filter (fun r => negb (hasMedia r)) results)
        + length (errorLines World st))%nat
  /\ (ExportStats.downloaded s + ExportStats.skipped s + length (errorLines World st)
      = length (List.filter hasMedia results))%nat.
Proof.
  intros st s. subst s st. unfold processDownloadResults.
  match goal with
  | |- context [fold_left ?f results ?init] =>
      pose proof (fold_processResult_accounts World generateOutputPath dirname access
                    mkdir writeFile embedMetadata options results init) as H
  end.
  cbv zeta in H. simpl in H.
  destruct H as (Ha & Hb & Hc & Hd & He & Hf & Hg).
  assert (Hsplit : (length (List.filter hasMedia results)
                    + length (List.filter (fun r => negb (hasMedia r)) results)
                    = length results)%nat).
  { clear. induction results as [|r results IH]; simpl; [reflexivity|].
    destruct (hasMedia r); simpl; lia. }
  repeat split; lia.
Qed.

(** X14.  With [skipExisting], a batch whose files are all there
    already is left alone: nothing is created, written or tagged (the world
    stays as it was), no line is written, and every result that carries a
    media is counted as skipped, none as downloaded.  Without
    [skipExisting], whether the files are there is not even looked at. *)
Theorem processDownloadResults_skips_existing
    (World : Type)
    (generateOutputPath : SnapchatMemory -> string -> ExportOptions.t -> string)
    (dirname : string -> string)
    (access : string -> World -> bool)
    (mkdir : string -> World -> (JsError + unit) * World)
    (writeFile : string -> Buffer -> World -> (JsError + unit) * World)
    (embedMetadata : string -> SnapchatMemory -> World -> (JsError + unit) * World)
    (results : list BatchDownloadResult) (options : ExportOptions.t) (w : World) :
  (ExportOptions.skipExisting options = true ->
   (forall result downloaded,
       result ∈ results ->
       hasMedia result = true ->
       media result = Some downloaded ->
       access (generateOutputPath (memory result) (extension downloaded) options) w
       = true) ->
   processDownloadResults World generateOutputPath dirname access mkdir writeFile
                          embedMetadata results options w
   = {| stats :=
          {| ExportStats.total := length results;
             ExportStats.downloaded := 0;
             ExportStats.skipped := length (List.filter hasMedia results);
             ExportStats.failed :=
               length (List.filter (fun r => negb (hasMedia r)) results);
             ExportStats.images := 0;
             ExportStats.videos := 0;
             ExportStats.retries := 0 |};
        errorLines := []; warnLines := []; world := w |})
  /\ (ExportOptions.skipExisting options = false ->
      forall access',
        processDownloadResults World generateOutputPath dirname access' mkdir writeFile
                               embedMetadata results options w
        = processDownloadResults World generateOutputPath dirname access mkdir writeFile
                                 embedMetadata results options w).
Proof.
  split.
  - intros Hskip Hthere. unfold processDownloadResults.
    generalize (length results) at 1 2. intros n.
    change 0%nat with (length (List.filter hasMedia (@nil BatchDownloadResult))) at 2.
    change 0%nat
      with (length (List.filter (fun r => negb (hasMedia r))
                                (@nil BatchDownloadResult))) at 2.
    rewrite <- (app_nil_l results) at 2 3.
    generalize (@nil BatchDownloadResult) as done.
    revert Hthere. induction results as [|result results IH]; intros Hthere done; simpl.
    + rewrite app_nil_r. reflexivity.
    + replace (done ++ result :: results) with ((done ++ [result]) ++ results)
        by (rewrite <- app_assoc; reflexivity).
      rewrite <- IH by (intros r d Hin; apply Hthere; right; exact Hin).
      f_equal. unfold processResult. simpl.
      rewrite !List.filter_app, !length_app. simpl.
      destruct (hasMedia result) eqn:Hm.
      * unfold hasMedia in Hm. apply andb_true_iff in Hm. destruct Hm as [Hs Hmedia].
        apply bool_decide_eq_true in Hmedia. destruct Hmedia as [d Hd].
        rewrite Hs, Hd.
        rewrite (saveMemory_skips World generateOutputPath dirname access mkdir
                   writeFile embedMetadata options (memory result) d w Hskip).
        -- simpl. rewrite !Nat.add_0_r, Nat.add_1_r. reflexivity.
        -- apply Hthere; [left | | exact Hd].
           unfold hasMedia. rewrite Hs, Hd. reflexivity.
      * assert (Hnone : (if success result then media result else None) = None).
        { unfold hasMedia in Hm. destruct (success result); [|reflexivity].
          destruct (media result); [|reflexivity].
          rewrite bool_decide_eq_true_2 in Hm by eauto. discriminate. }
        rewrite Hnone. simpl. rewrite !Nat.add_0_r, Nat.add_1_r. reflexivity.
  - intros Hskip access'. unfold processDownloadResults.
    generalize (length results). intros n.
    match goal with
    | |- fold_left _ _ ?init = _ => generalize init
    end.
    induction results as [|result results IH]; intros st; simpl; [reflexivity|].
    rewrite IH. f_equal. unfold processResult, saveMemory. rewrite Hskip. reflexivity.
Qed.

(* ===================================================================== *)
(** * Processing one memory                                               *)
(* ===================================================================== *)




Section ProcessMemoryFacts.

  Variable World : Type.
  Variable readZip : Buffer -> JsError + list ZipEntry.
  Variable compositeImage :
    Buffer -> Buffer -> World -> (CompositeFailure + CompositeResult) * World.
  Variable compositeVideo :
    Buffer -> Buffer -> World -> (CompositeFailure + CompositeResult) * World.
  Variable options : ExportOptions.t.
  Variable bundleNet : Network.
  Variable bundleRandom : nat -> Q.
  Variable net : Network.
  Variable random : nat -> Q.

  Local Abbreviation obtainMedia :=
    (obtainMedia World readZip compositeImage compositeVideo options
                 bundleNet bundleRandom net random).
  Local Abbreviation regularDownload := (regularDownload options net random).



End ProcessMemoryFacts.


(** X16.  Trouble with the bundle never costs a memory that the regular
    download can get: [processMemory] is left without media only when the
    regular download of the memory rejects, and then with that rejection.
    When the bundle is fetched, a failure of the compositing is not a
    failure of the memory: the base asset is used.  Without bundle URL, or
    with overlays skipped, the bundle and the compositor play no part.  And
    when [maxRetries] is [NaN] or negative, no request is made and no media
    is obtained, whatever the network would answer. *)
Theorem obtainMedia_falls_back
    (World : Type)
    (readZip : Buffer -> JsError + list ZipEntry)
    (compositeImage compositeVideo :
       Buffer -> Buffer -> World -> (CompositeFailure + CompositeResult) * World)
    (options : ExportOptions.t)
    (bundleNet : Network) (bundleRandom : nat -> Q)
    (net : Network) (random : nat -> Q)
    (memory : SnapchatMemory) (w : World) :
  let obtained :=
    obtainMedia World readZip compositeImage compositeVideo options
                bundleNet bundleRandom net random memory w in
  let regular := regularDownload options net random memory in
  let bundle :=
    withMaxRetries (ExportOptions.maxRetries options) (overlayUrlOf memory)
                   (downloadMediaWithOverlay readZip bundleNet bundleRandom memory) in
  (forall e, fst (fst obtained) = inl e -> fst regular = inl e)
  /\ (isMediaUrlOf memory && negb (ExportOptions.skipOverlay options) = false ->
      obtained = (fst regular, snd regular, w))
  /\ (isMediaUrlOf memory && negb (ExportOptions.skipOverlay options) = true ->
      (forall e, fst bundle = inl e ->
                 obtained = (fst regular, snd bundle ++ snd regular, w))
      /\ (forall extracted,
             fst bundle = inr extracted ->
             exists media,
               fst obtained = (inr media, snd bundle)
               /\ (data media = baseMedia extracted
                   \/ exists layer,
                        overlay extracted = Some layer
                        /\ fst (match mediaType memory with
                                | Image => compositeImage
                                | Video => compositeVideo
                                end (baseMedia extracted) layer w)
                           = inr media)))
  /\ ((forall n, ExportOptions.maxRetries options = Some n -> n < 0) ->
      exists e, obtained = (inl e, [], w)).
Proof.
  intros obtained regular bundle. subst obtained regular bundle.
  unfold obtainMedia.
  destruct (isMediaUrlOf memory && negb (ExportOptions.skipOverlay options)) eqn:Hb.
  - split; [|split; [discriminate|split]].
    + destruct (withMaxRetries _ _ _) as [[overlayError|extracted] ev].
      * destruct (regularDownload options net random memory) as [settled ev'].
        simpl. auto.
      * destruct (compositeMedia _ _ _ _ _ _ _) as [[compError|composited] w'];
          simpl; discriminate.
    + intros _. split.
      * intros e He. destruct (withMaxRetries _ _ _) as [[overlayError|extracted] ev];
          [|discriminate].
        destruct (regularDownload options net random memory) as [settled ev'].
        reflexivity.
      * intros extracted He.
        destruct (withMaxRetries _ _ _) as [[overlayError|x] ev]; [discriminate|].
        simpl in He. injection He as ->. unfold compositeMedia.
        destruct (overlay extracted) as [layer|] eqn:Hlayer.
        -- destruct (mediaType memory).
           ++ destruct (compositeImage (baseMedia extracted) layer w)
                as [[compError|[d c x]] w'] eqn:Hc; simpl; eexists;
                (split; [reflexivity|]); [left; reflexivity|].
              right. exists layer. split; [reflexivity|]. rewrite Hc. reflexivity.
           ++ destruct (compositeVideo (baseMedia extracted) layer w)
                as [[compError|[d c x]] w'] eqn:Hc; simpl; eexists;
                (split; [reflexivity|]); [left; reflexivity|].
              right. exists layer. split; [reflexivity|]. rewrite Hc. reflexivity.
        -- destruct (mediaType memory); simpl; eexists;
             (split; [reflexivity|]); left; reflexivity.
    + intros Hneg.
      assert (Hnever : forall (A : Type) url call,
                 @withMaxRetries A (ExportOptions.maxRetries options) url call
                 = neverAttempted url).
      { intros A url call. unfold withMaxRetries.
        destruct (ExportOptions.maxRetries options) as [n|]; [|reflexivity].
        specialize (Hneg n eq_refl). destruct (Z.leb_spec 0 n); [lia | reflexivity]. }
      unfold regularDownload. rewrite !Hnever. unfold neverAttempted.
      destruct (queryStringOf (overlayUrlOf memory)) as [q|];
        [destruct (JsString.truthy q)|];
        (destruct (queryStringOf (downloadUrl memory)) as [q'|];
         [destruct (JsString.truthy q')|]); simpl; eauto.
  - destruct (regularDownload options net random memory) as [settled ev] eqn:Hreg.
    simpl. split; [auto|]. split; [reflexivity|]. split; [discriminate|].
    intros Hneg. unfold regularDownload, withMaxRetries in Hreg.
    assert (Hnever : (settled, ev) = @neverAttempted DownloadedMedia (downloadUrl memory)).
    { destruct (ExportOptions.maxRetries options) as [n|]; [|congruence].
      specialize (Hneg n eq_refl). destruct (Z.leb_spec 0 n); [lia | congruence]. }
    unfold neverAttempted in Hnever.
    destruct (queryStringOf (downloadUrl memory)) as [q'|];
      [destruct (JsString.truthy q')|]; injection Hnever as -> ->; eauto.
Qed.

(* ===================================================================== *)
(** * What is left to download, and the limit                             *)
(* ===================================================================== *)

(** X17.  What [runExport] sets out to download is a prefix of the
    memories that [filterPendingMemories] keeps: memories of the input, in
    input order, none of which the manifest holds.  A limit [n >= 1] keeps
    the first [n] of them (all of them when there are fewer).  No limit
    ([null]), [NaN] and 0 all mean no limit.  A negative limit [-k] drops the
    last [k] of them, so that nothing is left to download when [k] reaches
    their number. *)
Theorem pendingMemoriesOf_limit
    (memories : list SnapchatMemory) (manifest : ExportManifest)
    (options : ExportOptions.t) :
  let pendingMemories := filterPendingMemories memories manifest in
  let planned := pendingMemoriesOf memories manifest options in
  planned = take (length planned) pendingMemories
  /\ (forall m, m ∈ planned ->
                m ∈ memories /\ mediaId m ∉ getDownloadedIds manifest)
  /\ (forall n, ExportOptions.limit options = Some (Some n) -> 1 <= n ->
                length planned = Nat.min (Z.to_nat n) (length pendingMemories))
  /\ (ExportOptions.limit options = None
      \/ ExportOptions.limit options = Some None
      \/ ExportOptions.limit options = Some (Some 0) ->
      planned = pendingMemories)
  /\ (forall k, ExportOptions.limit options = Some (Some (- Z.of_nat k)) ->
                length planned = (length pendingMemories - k)%nat
                /\ ((length pendingMemories <= k)%nat -> (1 <= k)%nat ->
                    planned = [])).
Proof.
  intros pendingMemories planned.
  assert (Hprefix : planned = take (length planned) pendingMemories).
  { subst planned. unfold pendingMemoriesOf. fold pendingMemories.
    destruct (ExportOptions.limit options) as [[n|]|];
      try (rewrite firstn_all; reflexivity).
    destruct (negb (n =? 0) && (n <? Z.of_nat (length pendingMemories)));
      [|rewrite firstn_all; reflexivity].
    unfold sliceFromStart. rewrite length_take.
    match goal with
    | |- take ?k ?l = _ =>
        destruct (Nat.min_spec k (length l)) as [[_ ->]|[Hge ->]];
        [reflexivity | rewrite firstn_all; apply take_ge; lia]
    end. }
  split; [exact Hprefix|]. split.
  { intros m Hin. rewrite Hprefix in Hin.
    apply elem_of_take in Hin. destruct Hin as (i & Hi & _).
    assert (Hm : m ∈ pendingMemories) by (apply list_elem_of_lookup; eauto).
    subst pendingMemories. unfold filterPendingMemories in Hm.
    apply list_elem_of_In, List.filter_In in Hm. destruct Hm as [Hm Hkeep].
    split; [apply list_elem_of_In; exact Hm|].
    apply negb_true_iff, bool_decide_eq_false in Hkeep. exact Hkeep. }
  subst planned. unfold pendingMemoriesOf. fold pendingMemories.
  split; [|split].
  - intros n -> Hn.
    destruct (Z.eqb_spec n 0) as [->|_]; [lia|]. simpl.
    destruct (Z.ltb_spec n (Z.of_nat (length pendingMemories))); [|lia].
    unfold sliceFromStart. destruct (Z.ltb_spec n 0); [lia|].
    rewrite length_take. lia.
  - intros [-> | [-> | ->]]; reflexivity.
  - intros k ->.
    destruct (Z.eqb_spec (- Z.of_nat k) 0) as [Hz|Hnz]; simpl.
    + assert (k = 0%nat) as -> by lia. split; [lia|]. intros _ ?. lia.
    + destruct (Z.ltb_spec (- Z.of_nat k) (Z.of_nat (length pendingMemories))); [|lia].
      unfold sliceFromStart. destruct (Z.ltb_spec (- Z.of_nat k) 0); [|lia].
      rewrite length_take. split; [lia|].
      intros Hle _.
      replace (Z.to_nat (Z.max (Z.of_nat (length pendingMemories) + - Z.of_nat k) 0))
        with 0%nat by lia.
      reflexivity.
Qed.

(* ===================================================================== *)
(** * The identity of a memory                                            *)
(* ===================================================================== *)

Lemma toInt32_range (z : Z) : - 2 ^ 31 <= toInt32 z < 2 ^ 31.
Proof.
  unfold toInt32. pose proof (Z.mod_pos_bound (z + 2 ^ 31) (2 ^ 32) ltac:(lia)). lia.
Qed.

Lemma toInt32_multiple (z : Z) : exists k, toInt32 z = z + 2 ^ 32 * k.
Proof.
  unfold toInt32. exists (- ((z + 2 ^ 31) / 2 ^ 32)).
  pose proof (Z.div_mod (z + 2 ^ 31) (2 ^ 32) ltac:(lia)). lia.
Qed.

Lemma toInt32_congruent (a b k : Z) : a = b + 2 ^ 32 * k -> toInt32 a = toInt32 b.
Proof.
  intros ->. unfold toInt32. f_equal.
  replace (b + 2 ^ 32 * k + 2 ^ 31) with (b + 2 ^ 31 + k * 2 ^ 32) by lia.
  apply Z_mod_plus_full.
Qed.

(** One step of the loop on a wrapped value is the wrap of one step of the
    polynomial. *)
Lemma hashStep_polynomial (p : Z) (c : ascii) :
  hashStep (toInt32 p) c = toInt32 (31 * p + Z.of_nat (nat_of_ascii c)).
Proof.
  unfold hashStep, shiftLeft5. rewrite Z.shiftl_mul_pow2 by lia.
  destruct (toInt32_multiple p) as [k1 H1].
  destruct (toInt32_multiple (toInt32 p)) as [k2 H2].
  destruct (toInt32_multiple (toInt32 (toInt32 p) * 2 ^ 5)) as [k3 H3].
  apply (toInt32_congruent _ _ (31 * k1 + 32 * k2 + k3)). lia.
Qed.

Lemma fold_hashStep_polynomial (l : list ascii) (p : Z) :
  fold_left hashStep l (toInt32 p)
  = toInt32 (fold_left (fun acc c => 31 * acc + Z.of_nat (nat_of_ascii c)) l p).
Proof.
  revert p. induction l as [|c l IH]; intros p; simpl; [reflexivity|].
  rewrite hashStep_polynomial. apply IH.
Qed.

Lemma hexDigit_hex (d : Z) : isHexDigit (hexDigit d).
Proof.
  unfold isHexDigit, hexDigit.
  destruct d as [|p|p]; simpl;
    [| do 4 (try destruct p as [p|p|]); simpl |];
    repeat first [apply list_elem_of_here | apply list_elem_of_further].
Qed.

Lemma length_list_ascii (s : string) :
  String.length s = length (list_ascii_of_string s).
Proof. induction s as [|c s IH]; simpl; [reflexivity | rewrite IH; reflexivity]. Qed.

(** The digits written: at least one, at most as many as [n] needs, all of
    base 16. *)
Lemma hexDigits_spec (fuel : nat) (n : Z) (acc : string) :
  0 <= n < 16 ^ Z.of_nat fuel ->
  (1 <= fuel)%nat ->
  exists digits,
    list_ascii_of_string (hexDigits fuel n acc)
    = digits ++ list_ascii_of_string acc
    /\ (1 <= length digits <= fuel)%nat
    /\ Forall isHexDigit digits.
Proof.
  revert n acc. induction fuel as [|fuel IH]; intros n acc Hn Hfuel; [lia|].
  simpl. destruct (Z.eqb_spec (n / 16) 0) as [Hz|Hnz].
  - exists [hexDigit (n mod 16)]. simpl. split; [reflexivity|]. split; [lia|].
    apply Forall_singleton, hexDigit_hex.
  - assert (Hfuel' : (1 <= fuel)%nat).
    { destruct fuel; [|lia]. simpl in Hn. exfalso. apply Hnz.
      apply Z.div_small. lia. }
    assert (Hn' : 0 <= n / 16 < 16 ^ Z.of_nat fuel).
    { split; [apply Z.div_pos; lia|].
      apply Z.div_lt_upper_bound; [lia|].
      replace (Z.of_nat (S fuel)) with (1 + Z.of_nat fuel) in Hn by lia.
      rewrite Z.pow_add_r in Hn by lia. lia. }
    destruct (IH (n / 16) (String (hexDigit (n mod 16)) acc) Hn' Hfuel')
      as (digits & Heq & Hlen & Hhex).
    exists (digits ++ [hexDigit (n mod 16)]). rewrite Heq. simpl.
    rewrite <- app_assoc. split; [reflexivity|].
    rewrite length_app. simpl. split; [lia|].
    apply Forall_app. split; [exact Hhex|]. apply Forall_singleton, hexDigit_hex.
Qed.

(** X18.  [extractMediaId] never fails and never answers the empty
    string.  It answers the [mid] parameter of the URL when the URL parses
    and has one that is not empty.  Otherwise it answers the absolute value,
    written in base 16, of the 32-bit wrap of the polynomial hash of the
    characters of the URL (the sum of [code(i) * 31^(n-1-i)]): one to eight
    digits of base 16 in lower case, the same for the same URL. *)
Theorem extractMediaId_mid_or_hash
    (newURL : string -> option (list (string * string))) (url : string) :
  (forall searchParams mid,
      newURL url = Some searchParams ->
      searchParamsGet searchParams "mid" = Some mid ->
      mid <> "" ->
      extractMediaId newURL url = mid)
  /\ ((forall searchParams mid,
          newURL url = Some searchParams ->
          searchParamsGet searchParams "mid" = Some mid ->
          mid = "") ->
      extractMediaId newURL url
      = toString16 (Z.abs (toInt32 (polynomialHash (list_ascii_of_string url)))))
  /\ extractMediaId newURL url <> ""
  /\ (let hashed :=
        toString16 (Z.abs (toInt32 (polynomialHash (list_ascii_of_string url)))) in
      (1 <= String.length hashed <= 8)%nat
      /\ Forall isHexDigit (list_ascii_of_string hashed)).
Proof.
  assert (Hhash : mediaIdFromHash url
                  = toString16 (Z.abs (toInt32 (polynomialHash
                                                  (list_ascii_of_string url))))).
  { unfold mediaIdFromHash, polynomialHash. f_equal. f_equal.
    change 0 with (toInt32 0) at 1. apply fold_hashStep_polynomial. }
  assert (Hdigits : let hashed :=
                      toString16 (Z.abs (toInt32 (polynomialHash
                                                    (list_ascii_of_string url)))) in
                    (1 <= String.length hashed <= 8)%nat
                    /\ Forall isHexDigit (list_ascii_of_string hashed)).
  { cbv zeta. unfold toString16.
    set (h := toInt32 (polynomialHash (list_ascii_of_string url))).
    pose proof (toInt32_range (polynomialHash (list_ascii_of_string url))) as Hr.
    fold h in Hr.
    destruct (hexDigits_spec 8 (Z.abs h) "") as (digits & Heq & Hlen & Hhex);
      [simpl; lia | lia |].
    change (list_ascii_of_string "") with (@nil ascii) in Heq.
    rewrite app_nil_r in Heq.
    rewrite length_list_ascii, Heq. split; [exact Hlen | exact Hhex]. }
  split; [|split; [|split; [|exact Hdigits]]].
  - intros searchParams mid Hurl Hmid Hne. unfold extractMediaId.
    rewrite Hurl, Hmid. unfold JsString.truthy.
    destruct (String.eqb_spec mid ""); [contradiction | reflexivity].
  - intros Hnone. rewrite <- Hhash. unfold extractMediaId.
    destruct (newURL url) as [searchParams|]; [|reflexivity].
    destruct (searchParamsGet searchParams "mid") as [mid|] eqn:Hmid; [|reflexivity].
    rewrite (Hnone searchParams mid eq_refl Hmid). reflexivity.
  - assert (Hfallback : mediaIdFromHash url <> "").
    { rewrite Hhash. destruct Hdigits as [Hlen _]. intros Hempty.
      rewrite Hempty in Hlen. simpl in Hlen. lia. }
    unfold extractMediaId.
    destruct (newURL url) as [searchParams|]; [|exact Hfallback].
    destruct (searchParamsGet searchParams "mid") as [mid|]; [|exact Hfallback].
    unfold JsString.truthy. destruct (String.eqb_spec mid ""); simpl; auto.
Qed.

(* ===================================================================== *)
(** * The entries of the export                                           *)
(* ===================================================================== *)



(* ===================================================================== *)
(** * Saving the manifest and finding it again                            *)
(* ===================================================================== *)

(** X20.  [saveManifest] changes [updatedAt] and nothing else of the
    manifest, whether the file can be written or not.  It writes where
    [loadManifest] looks for the directory that the manifest records: if
    the file system gives back what was written to it, and the text of a
    manifest of version 1 parses back to a value of version 1, then a
    manifest of version 1 that was saved is found again by [loadManifest]
    on its directory, as the value its text parses to, without warning,
    instead of a fresh manifest. *)
Theorem saveManifest_then_loadManifest
    (World : Type)
    (join : string -> string -> string)
    (stringify : ExportManifest -> string)
    (writeTextFile : string -> string -> World -> (JsError + unit) * World)
    (clock : World -> Z)
    (readFileIn : World -> string -> JsError + string)
    (jsonParse : string -> JsError + Json)
    (toJsString : option Json -> string)
    (now : Z) (manifest : ExportManifest) (w : World) :
  version manifest = MANIFEST_VERSION ->
  (forall m, version m = MANIFEST_VERSION ->
             exists data v,
               jsonParse (stringify m) = inr data
               /\ getProperty data "version" = inr v /\ isVersion1 v) ->
  (forall path content w0 w1,
      writeTextFile path content w0 = (inr tt, w1) ->
      readFileIn w1 path = inr content) ->
  let saving := saveManifest World join stringify writeTextFile clock manifest w in
  let saved := saving.1.1 in
  saved
  = {| version := version manifest; createdAt := createdAt manifest;
       updatedAt := clock w; outputDir := outputDir manifest;
       entries := entries manifest |}
  /\ (saving.1.2 = inr tt ->
      exists data,
        jsonParse (stringify saved) = inr data
        /\ loadManifest join (readFileIn saving.2) jsonParse toJsString now
                        (outputDir manifest)
           = (inr (FromFile data), [])).
Proof.
  intros Hversion Hjson Hfiles saving saved. subst saved saving.
  unfold saveManifest.
  destruct (writeTextFile _ _ w) as [settled w1] eqn:Hwrite. simpl.
  split; [reflexivity|].
  intros ->. apply Hfiles in Hwrite.
  destruct (Hjson {| version := version manifest; createdAt := createdAt manifest;
                     updatedAt := clock w; outputDir := outputDir manifest;
                     entries := entries manifest |} Hversion)
    as (data & v & Hparse & Hv & Hone).
  exists data. split; [exact Hparse|].
  unfold loadManifest, getManifestPath. rewrite Hwrite, Hparse, Hv.
  assert (isManifestVersion v = true) as -> by (apply isManifestVersion_spec; exact Hone).
  reflexivity.
Qed.

Lemma saveManifest_then_loadManifest_witness :
  let join := fun dir name => dir +:+ "/" +:+ name in
  let stringify := fun _ : ExportManifest => "{ version: 1 }" in
  let jsonParse := fun _ : string => @inr JsError Json (JObj [("version", JNum 1)]) in
  let manifest := createManifest 0 "out" in
  let saving :=
    saveManifest TextFiles join stringify writeText (fun _ => 5) manifest
                 (fun _ => None) in
  saving.1.1
  = {| version := 1; createdAt := 0; updatedAt := 5; outputDir := "out";
       entries := ∅ |}
  /\ (saving.1.2 = inr tt ->
      exists data,
        jsonParse (stringify saving.1.1) = inr data
        /\ loadManifest join (readText saving.2) jsonParse (fun _ => "1") 7 "out"
           = (inr (FromFile data), [])).
Proof.
  intros join stringify jsonParse manifest saving.
  apply (saveManifest_then_loadManifest TextFiles join stringify writeText (fun _ => 5)
           readText jsonParse (fun _ => "1") 7 manifest (fun _ => None)).
  - reflexivity.
  - intros m _. exists (JObj [("version", JNum 1)]), (Some (JNum 1)).
    split; [reflexivity|]. split; [reflexivity|].
    exists 1%Q. split; reflexivity.
  - intros path content w0 w1 [= <-]. unfold readText.
    rewrite String.eqb_refl. reflexivity.
Defined.

(* ===================================================================== *)
(** * The workers of the command line process each memory once            *)
(* ===================================================================== *)

Section CliPool.

  Variable memories : list SnapchatMemory.
  Variable options : ExportOptions.t.

  Local Abbreviation cliTurn := (cliTurn memories options).
  Local Abbreviation cliRunTurns := (cliRunTurns memories options).
  Local Abbreviation cliAllSettled := (cliAllSettled memories options).
  Local Abbreviation cliTurnsLeft := (cliTurnsLeft memories options).
  Local Abbreviation cliInvariant := (cliInvariant memories options).
  Local Abbreviation concurrency := (cliActualConcurrency memories options).

Lemma workerLoop_cases (st : CliRun) :
  cliQueue st = [] /\ workerLoop st = (Finished, st)
  \/ exists m rest,
       cliQueue st = m :: rest
       /\ workerLoop st
          = (Downloading m,
             {| cliQueue := rest; cliWorkers := cliWorkers st;
                processed := processed st ++ [m] |}).
Proof.
  unfold workerLoop. destruct (cliQueue st) as [|m rest]; [auto|]. right. eauto.
Qed.

(** What a turn does to the workers: one more, or one replaced. *)
Lemma cliTurn_cases (t : CliTurn) (st st' : CliRun) :
  cliTurn t st = Some st' ->
  exists x st1,
    workerLoop st = (x, st1) /\
    ((length (cliWorkers st) < concurrency)%nat
     /\ st' = {| cliQueue := cliQueue st1; cliWorkers := cliWorkers st1 ++ [x];
                 processed := processed st1 |}
     \/ exists w old,
          cliWorkers st !! w = Some old
          /\ (old = Sleeping /\ st' = cliSetWorker w x st1
              \/ (exists m, old = Downloading m)
                 /\ (cliQueue st <> [] /\ st' = cliSetWorker w Sleeping st
                     \/ cliQueue st = [] /\ st' = cliSetWorker w x st1))).
Proof.
  destruct (workerLoop st) as [x st1] eqn:Hloop. intros Ht. exists x, st1.
  split; [reflexivity|].
  destruct t as [|w|w]; simpl in Ht; rewrite ?Hloop in Ht.
  - destruct (Nat.ltb_spec (length (cliWorkers st)) concurrency); [|discriminate].
    injection Ht as <-. left. auto.
  - destruct (cliWorkers st !! w) as [[m| |]|] eqn:Hw; try discriminate.
    right. exists w, (Downloading m). split; [exact Hw|]. right.
    split; [eauto|].
    destruct (cliQueue st) as [|m' rest] eqn:Hq; simpl in Ht.
    + injection Ht as <-. right. auto.
    + injection Ht as <-. left. split; [discriminate | reflexivity].
  - destruct (cliWorkers st !! w) as [[m| |]|] eqn:Hw; try discriminate.
    injection Ht as <-. right. exists w, Sleeping. split; [exact Hw|]. left. auto.
Qed.

Lemma cliTurn_decreases (t : CliTurn) (st st' : CliRun) :
  cliTurn t st = Some st' -> (cliTurnsLeft st' < cliTurnsLeft st)%nat.
Proof.
  intros Ht. destruct (cliTurn_cases _ _ _ Ht) as (x & st1 & Hloop & Hcase).
  unfold cliTurnsLeft.
  destruct (workerLoop_cases st) as [[Hq Hl] | (m & rest & Hq & Hl)];
    rewrite Hl in Hloop; injection Hloop as <- <-;
    destruct Hcase as [[Hlt ->] | (w & old & Hw & [[-> ->] | [[m' ->] [[Hne ->] | [He ->]]]])];
    simpl; rewrite ?length_app, ?sum_list_snoc, ?length_insert, ?Hq; simpl;
    try pose proof (sum_list_insert _ _ _ Finished Hw) as Hs;
    try pose proof (sum_list_insert _ _ _ Sleeping Hw) as Hs';
    try pose proof (sum_list_insert _ _ _ (Downloading m) Hw) as Hs'';
    simpl in *; try lia; try congruence.
Qed.

Lemma cliTurn_invariant (t : CliTurn) (st st' : CliRun) :
  cliTurn t st = Some st' -> cliInvariant st -> cliInvariant st'.
Proof.
  intros Ht (Hmem & Hlen & Hfin).
  destruct (cliTurn_cases _ _ _ Ht) as (x & st1 & Hloop & Hcase).
  unfold cliInvariant.
  destruct (workerLoop_cases st) as [[Hq Hl] | (m & rest & Hq & Hl)];
    rewrite Hl in Hloop; injection Hloop as <- <-;
    destruct Hcase as [[Hlt ->] | (w & old & Hw & [[-> ->] | [[m' ->] [[Hne ->] | [He ->]]]])];
    simpl; rewrite ?length_app, ?length_insert; simpl;
    try congruence.
  - split; [exact Hmem|]. split; [lia|]. intros _. exact Hq.
  - split; [exact Hmem|]. split; [lia|]. intros _. exact Hq.
  - split; [exact Hmem|]. split; [lia|]. intros _. exact Hq.
  - split; [rewrite Hmem, Hq, <- app_assoc; reflexivity|]. split; [lia|].
    intros Hin. apply elem_of_app in Hin. destruct Hin as [Hin|Hin].
    + specialize (Hfin Hin). congruence.
    + apply list_elem_of_singleton in Hin. discriminate.
  - split; [rewrite Hmem, Hq, <- app_assoc; reflexivity|]. split; [lia|].
    intros Hin. apply elem_of_insert_inv in Hin. destruct Hin as [Hin|Hin];
      [discriminate|]. specialize (Hfin Hin). congruence.
  - split; [exact Hmem|]. split; [lia|].
    intros Hin. apply elem_of_insert_inv in Hin. destruct Hin as [Hin|Hin];
      [discriminate|]. auto.
Qed.

Lemma cliRunTurns_invariant (ts : list CliTurn) (st st' : CliRun) :
  cliRunTurns ts st = Some st' ->
  cliInvariant st ->
  cliInvariant st' /\ (length ts + cliTurnsLeft st' <= cliTurnsLeft st)%nat.
Proof.
  revert st. induction ts as [|t ts IH]; intros st; simpl.
  - intros [= ->]. split; [assumption | lia].
  - destruct (cliTurn t st) as [st1|] eqn:Ht; [|discriminate].
    intros Hrun Hinv.
    destruct (IH _ Hrun (cliTurn_invariant _ _ _ Ht Hinv)) as [Hinv' Hle].
    apply cliTurn_decreases in Ht. split; [assumption | lia].
Qed.

Lemma cliTurn_possible (st : CliRun) :
  (length (cliWorkers st) <= concurrency)%nat ->
  cliAllSettled st = false ->
  exists t st', cliTurn t st = Some st'.
Proof.
  intros Hle Hns. unfold cliAllSettled in Hns.
  destruct (Nat.eqb_spec (length (cliWorkers st)) concurrency) as [Heq|Hne].
  - simpl in Hns. destruct (unfinished_worker _ Hns) as (w & x & Hw & Hx).
    destruct x as [m| |]; [| |discriminate].
    + exists (CliSettle w). simpl. rewrite Hw.
      destruct (0 <? length (cliQueue st))%nat; [eauto|].
      destruct (workerLoop st). eauto.
    + exists (CliWake w). simpl. rewrite Hw. destruct (workerLoop st). eauto.
  - exists CliSpawn. simpl.
    destruct (Nat.ltb_spec (length (cliWorkers st)) concurrency); [|lia].
    destruct (workerLoop st). eauto.
Qed.

Lemma cliRun_completes (st : CliRun) :
  cliInvariant st ->
  exists ts st', cliRunTurns ts st = Some st' /\ cliAllSettled st' = true.
Proof.
  remember (cliTurnsLeft st) as n eqn:Hn. revert st Hn.
  induction n as [n IH] using lt_wf_ind. intros st -> Hinv.
  destruct (cliAllSettled st) eqn:Hs.
  - exists [], st. auto.
  - destruct Hinv as (Hmem & Hlen & Hfin).
    destruct (cliTurn_possible st Hlen Hs) as (t & st1 & Ht).
    destruct (IH (cliTurnsLeft st1) (cliTurn_decreases _ _ _ Ht) st1 eq_refl)
      as (ts & st' & Hrun & Hend).
    { eapply cliTurn_invariant; eauto. split; auto. }
    exists (t :: ts), st'. simpl. rewrite Ht. auto.
Qed.

Lemma cliInitialRun_invariant : cliInvariant (cliInitialRun memories).
Proof.
  unfold cliInvariant. simpl. split; [reflexivity|]. split; [lia|].
  intros Hin. inversion Hin.
Qed.

End CliPool.

(** X21.  The workers of [downloadWithProgress] hand each memory to
    [processMemory] exactly once, in input order: in every state of every
    run, the memories processed so far followed by the queue are the input.
    [min(concurrency, memories.length)] workers are started, never more.
    Every run is bounded, some run comes to the end of [Promise.all], and at
    that point, with at least one worker, every memory has been processed.
    With a concurrency that is [NaN], zero or negative no worker is started
    and no memory is ever processed. *)
Theorem downloadWithProgress_processes_each_memory_once
    (memories : list SnapchatMemory) (options : ExportOptions.t) :
  let n := cliActualConcurrency memories options in
  (n <= length memories)%nat
  /\ (n = 0%nat
      <-> memories = []
          \/ forall c, ExportOptions.concurrency options = Some c -> c <= 0)
  /\ (forall ts st,
         cliRunTurns memories options ts (cliInitialRun memories) = Some st ->
         memories = processed st ++ cliQueue st
         /\ (length (cliWorkers st) <= n)%nat
         /\ (length ts <= n + 3 * length memories)%nat
         /\ (cliAllSettled memories options st = true ->
             (1 <= n)%nat -> processed st = memories)
         /\ (n = 0%nat -> processed st = []))
  /\ exists ts st,
       cliRunTurns memories options ts (cliInitialRun memories) = Some st
       /\ cliAllSettled memories options st = true.
Proof.
  intros n. subst n.
  split; [|split; [|split]].
  - unfold cliActualConcurrency. destruct (ExportOptions.concurrency options); lia.
  - unfold cliActualConcurrency.
    destruct (ExportOptions.concurrency options) as [c|].
    + split.
      * intros Hz. destruct memories as [|m rest]; [left; reflexivity|].
        right. intros c' [= <-]. simpl length in Hz. lia.
      * intros [-> | Hc]; [simpl; lia|]. specialize (Hc c eq_refl). lia.
    + split; [intros _; right; intros c [=] | reflexivity].
  - intros ts st Hrun.
    destruct (cliRunTurns_invariant memories options ts _ _ Hrun
                (cliInitialRun_invariant memories options))
      as [(Hmem & Hlen & Hfin) Hbound].
    split; [exact Hmem|]. split; [exact Hlen|]. split.
    { unfold cliTurnsLeft in Hbound. simpl in Hbound. lia. }
    split.
    + intros Hend Hpos. unfold cliAllSettled in Hend.
      apply andb_true_iff in Hend. destruct Hend as [Hn Hall].
      apply Nat.eqb_eq in Hn.
      destruct (cliWorkers st) as [|x l] eqn:Hw; [simpl in Hn; lia|].
      assert (x = Finished) as ->.
      { simpl in Hall. apply andb_true_iff in Hall. destruct Hall as [Hx _].
        destruct x; try discriminate. reflexivity. }
      rewrite (Hfin ltac:(left)), app_nil_r in Hmem. auto.
    + intros Hzero. rewrite Hzero in Hlen.
      clear Hmem Hfin Hbound. revert Hlen.
      assert (Hgen : forall ts st0 st1,
                 cliRunTurns memories options ts st0 = Some st1 ->
                 cliWorkers st0 = [] -> st1 = st0).
      { clear -Hzero. induction ts as [|t ts IH]; intros st0 st1; simpl.
        - intros [= ->]. reflexivity.
        - intros Hrun Hnone. exfalso.
          destruct t as [|w|w]; simpl in Hrun; rewrite Hnone, ?Hzero in Hrun;
            simpl in Hrun; discriminate. }
      intros _. rewrite (Hgen ts _ _ Hrun eq_refl). reflexivity.
  - apply cliRun_completes. apply cliInitialRun_invariant.
Qed.

(* ===================================================================== *)
(** * The results of a batch are well formed                              *)
(* ===================================================================== *)

Lemma last_seq (start len : nat) :
  last (seq start (S len)) = Some (start + len)%nat.
Proof.
  revert start. induction len as [|len IH]; intros start; [simpl; f_equal; lia|].
  change (seq start (S (S len))) with (start :: seq (S start) (S len)).
  rewrite last_cons, IH. f_equal. lia.
Qed.

(** What one download leaves for the worker to record. *)
Lemma downloadMemory_to_record (net : Network) (random : nat -> Q)
    (memory : SnapchatMemory) (limit : nat) :
  let settled :=
    downloadMemory net random memory {| maxRetries := Some limit; onRetry := true |} in
  (default 0%nat ((fun c => fst (fst c)) <$> last (retryCalls (snd settled)))
   <= limit)%nat
  /\ forall downloaded, fst settled = inr downloaded -> data downloaded <> [].
Proof.
  set (options := {| maxRetries := Some limit; onRetry := true |}).
  destruct (hasQueryPayload_dec (downloadUrl memory))
    as [(queryString & Hq & Ht) | (_ & _ & Hdl)].
  - destruct (attemptLoop_trace net random memory options queryString Hq Ht
                                (maxRetriesOf options) 0 None eq_refl)
      as (j & Hj & Hres & _ & _ & Hev).
    unfold downloadMemory. rewrite Hq, Ht. cbv zeta in Hev |- *.
    destruct Hev as (_ & _ & _ & Hcb).
    replace (onRetry options) with true in Hcb by reflexivity. cbv iota in Hcb.
    split.
    + rewrite <- fmap_last, Hcb.
      replace (j - 0)%nat with j by lia.
      destruct j as [|j]; [simpl; lia|]. rewrite last_seq. simpl.
      unfold maxRetriesOf in Hj. simpl in Hj. lia.
    + intros downloaded Hok. rewrite Hres in Hok.
      apply attemptOutcome_fulfilled in Hok. tauto.
  - rewrite (Hdl net random memory options eq_refl). simpl.
    split; [lia | discriminate].
Qed.

Section Recorded.

  Variable memories : list SnapchatMemory.
  Variable options : DownloadOptions.

  Local Abbreviation turn := (turn memories options).
  Local Abbreviation runTurns := (runTurns memories options).
  Local Abbreviation loopHead := (loopHead options).
  Local Abbreviation afterDownload := (afterDownload memories options).
  Local Abbreviation limit := (batchMaxRetriesOf options).

(** The settling of a download records a well-formed result for its
    memory. *)
Lemma afterDownload_records (w : nat) (m : SnapchatMemory) (net : Network)
    (random : nat -> Q) (st : Run) :
  exists r,
    recordedResult limit r
    /\ results (afterDownload w m net random st) = mapSet (mediaId m) r (results st).
Proof.
  unfold afterDownload.
  pose proof (downloadMemory_to_record net random m limit) as [Hcount Hdata].
  cbv zeta in Hcount, Hdata.
  destruct (downloadMemory _ _ _ _) as [outcome ev].
  match goal with
  | |- context [mapSet (mediaId m) ?r (results st)] => exists r
  end.
  split.
  - unfold recordedResult. simpl in Hcount, Hdata.
    destruct outcome as [thrown|downloaded]; simpl.
    + split; [eauto|]. split; [reflexivity | eauto].
    + split; [eauto|]. split; [reflexivity|]. split; [reflexivity | auto].
  - match goal with
    | |- context [if ?b then _ else _] => destruct b
    end; [reflexivity|].
    match goal with
    | |- context [loopHead ?s] =>
        destruct (loopHead_pops options s (loopHead s).2 (loopHead s).1)
          as [(_ & Hsame & _) | (m' & _ & _ & _ & Hres & _)];
        [destruct (loopHead s); reflexivity | | ];
        destruct (loopHead s) as [x st2]; simpl in *
    end.
    + rewrite Hsame. reflexivity.
    + rewrite Hres. reflexivity.
Qed.

Lemma turn_recorded (t : Turn) (st st' : Run) :
  turn t st = Some st' ->
  Forall (fun kr => recordedResult limit kr.2) (results st) ->
  Forall (fun kr => recordedResult limit kr.2) (results st').
Proof.
  intros Ht Hall. destruct t as [|w net random|w|]; simpl in Ht.
  - destruct (length (workers st) <? actualConcurrency memories options)%nat;
      [|discriminate].
    destruct (loopHead st) as [x st1] eqn:Hhead. injection Ht as <-. simpl.
    destruct (loopHead_pops options _ _ _ Hhead)
      as [(_ & -> & _) | (m & _ & _ & _ & -> & _)]; exact Hall.
  - destruct (workers st !! w) as [[m| |]|] eqn:Hw; try discriminate.
    injection Ht as <-.
    destruct (afterDownload_records w m net random st) as (r & Hr & ->).
    apply Forall_mapSet; assumption.
  - destruct (workers st !! w) as [[m| |]|] eqn:Hw; try discriminate.
    destruct (loopHead st) as [x st1] eqn:Hhead. injection Ht as <-. simpl.
    destruct (loopHead_pops options _ _ _ Hhead)
      as [(_ & -> & _) | (m & _ & _ & _ & -> & _)]; exact Hall.
  - destruct (signal options && negb (aborted st)); [|discriminate].
    injection Ht as <-. exact Hall.
Qed.

Lemma runTurns_recorded (ts : list Turn) (st st' : Run) :
  runTurns ts st = Some st' ->
  Forall (fun kr => recordedResult limit kr.2) (results st) ->
  Forall (fun kr => recordedResult limit kr.2) (results st').
Proof.
  revert st. induction ts as [|t ts IH]; intros st; simpl.
  - intros [= ->]. auto.
  - destruct (turn t st) as [st1|] eqn:Ht; [|discriminate].
    intros Hrun Hall. apply (IH _ Hrun). eapply turn_recorded; eauto.
Qed.

End Recorded.

(* ===================================================================== *)
(** * The returned array, position by position                            *)
(* ===================================================================== *)

Section Outcomes.

  Variable memories : list SnapchatMemory.
  Variable options : DownloadOptions.

  Local Abbreviation turn := (turn memories options).
  Local Abbreviation runTurns := (runTurns memories options).
  Local Abbreviation loopHead := (loopHead options).
  Local Abbreviation afterDownload := (afterDownload memories options).
  Local Abbreviation limit := (batchMaxRetriesOf options).

(** The settling of the download of [m] records, under the identity of [m],
    the outcome of that download. *)
Lemma afterDownload_outcome (w : nat) (m : SnapchatMemory) (net : Network)
    (random : nat -> Q) (st : Run) :
  exists r,
    memory r = m
    /\ recordsOutcome limit r
    /\ results (afterDownload w m net random st) = mapSet (mediaId m) r (results st).
Proof.
  unfold afterDownload.
  destruct (downloadMemory net random m {| maxRetries := Some limit; onRetry := true |})
    as [outcome ev] eqn:Hdl.
  match goal with
  | |- context [mapSet (mediaId m) ?r (results st)] => exists r
  end.
  split; [destruct outcome; reflexivity|]. split.
  - exists net, random.
    replace (memory _) with m by (destruct outcome; reflexivity).
    rewrite Hdl. destruct outcome as [thrown|downloaded]; simpl; auto.
  - match goal with
    | |- context [if ?b then _ else _] => destruct b
    end; [reflexivity|].
    match goal with
    | |- context [loopHead ?s] =>
        destruct (loopHead_pops options s (loopHead s).2 (loopHead s).1)
          as [(_ & Hsame & _) | (m' & _ & _ & _ & Hres & _)];
        [destruct (loopHead s); reflexivity | | ];
        destruct (loopHead s) as [x st2]; simpl in *
    end.
    + rewrite Hsame. reflexivity.
    + rewrite Hres. reflexivity.
Qed.

Lemma turn_outcome (t : Turn) (st st' : Run) :
  turn t st = Some st' ->
  Forall (fun kr => recordsOutcome limit kr.2) (results st) ->
  Forall (fun kr => recordsOutcome limit kr.2) (results st').
Proof.
  intros Ht Hall. destruct t as [|w net random|w|]; simpl in Ht.
  - destruct (length (workers st) <? actualConcurrency memories options)%nat;
      [|discriminate].
    destruct (loopHead st) as [x st1] eqn:Hhead. injection Ht as <-. simpl.
    destruct (loopHead_pops options _ _ _ Hhead)
      as [(_ & -> & _) | (m & _ & _ & _ & -> & _)]; exact Hall.
  - destruct (workers st !! w) as [[m| |]|] eqn:Hw; try discriminate.
    injection Ht as <-.
    destruct (afterDownload_outcome w m net random st) as (r & _ & Hr & ->).
    apply Forall_mapSet; assumption.
  - destruct (workers st !! w) as [[m| |]|] eqn:Hw; try discriminate.
    destruct (loopHead st) as [x st1] eqn:Hhead. injection Ht as <-. simpl.
    destruct (loopHead_pops options _ _ _ Hhead)
      as [(_ & -> & _) | (m & _ & _ & _ & -> & _)]; exact Hall.
  - destruct (signal options && negb (aborted st)); [|discriminate].
    injection Ht as <-. exact Hall.
Qed.

Lemma runTurns_outcome (ts : list Turn) (st st' : Run) :
  runTurns ts st = Some st' ->
  Forall (fun kr => recordsOutcome limit kr.2) (results st) ->
  Forall (fun kr => recordsOutcome limit kr.2) (results st').
Proof.
  revert st. induction ts as [|t ts IH]; intros st; simpl.
  - intros [= ->]. auto.
  - destruct (turn t st) as [st1|] eqn:Ht; [|discriminate].
    intros Hrun Hall. apply (IH _ Hrun). eapply turn_outcome; eauto.
Qed.

End Outcomes.

(** C10.  Under every schedule of the event loop the call comes to its
    end: a run has at most [actualConcurrency + 3 * memories.length + 1]
    turns, and every run can be continued until all workers have returned.
    The array then returned has one element for each input memory, and the
    identities of its elements are those of the memories in input order.
    The input is the memories taken from the queue followed by those left
    in it.  At the position of a memory that was taken stands the result
    that the results [Map] holds under its identity at the end: one that a
    worker recorded for a memory of this identity, from the outcome of the
    download of that memory.  When the identities of the input are pairwise
    distinct, the elements carry the input memories themselves, in order,
    and every memory left in the queue has the failure [Download was
    cancelled] at its position. *)
Theorem downloadMemoriesConcurrent_in_input_order
    (memories : list SnapchatMemory) (options : DownloadOptions) :
  (forall ts st,
      runTurns memories options ts (initialRun memories) = Some st ->
      (length ts <= actualConcurrency memories options + 3 * length memories + 1)%nat
      /\ exists ts' out,
           downloadMemoriesConcurrent memories options (ts ++ ts') = Some out)
  /\ (forall ts out,
         downloadMemoriesConcurrent memories options ts = Some out ->
         length out = length memories
         /\ (fun r => mediaId (memory r)) <$> out = mediaId <$> memories
         /\ exists st taken,
              runTurns memories options ts (initialRun memories) = Some st
              /\ memories = taken ++ queue st
              /\ (forall i m,
                     taken !! i = Some m ->
                     exists r,
                       out !! i = Some r
                       /\ mapGet (mediaId m) (results st) = Some r
                       /\ mediaId (memory r) = mediaId m
                       /\ memory r ∈ taken
                       /\ recordedResult (batchMaxRetriesOf options) r
                       /\ recordsOutcome (batchMaxRetriesOf options) r)
              /\ (forall j m,
                     queue st !! j = Some m ->
                     mediaId m ∉ mediaId <$> taken ->
                     out !! (length taken + j)%nat = Some (cancelledResult m))
              /\ (NoDup (mediaId <$> memories) ->
                  memory <$> out = memories
                  /\ forall j m,
                       queue st !! j = Some m ->
                       mapGet (mediaId m) (results st) = None
                       /\ out !! (length taken + j)%nat
                          = Some (cancelledResult m))).
Proof.
  split.
  - intros ts st Hrun. split.
    + pose proof (runTurns_bounded _ _ _ _ _ Hrun) as Hb.
      unfold turnsLeft in Hb at 2. simpl in Hb.
      destruct (signal options && true); lia.
    + assert (Hle : (length (workers st) <= actualConcurrency memories options)%nat).
      { apply (runTurns_workers _ _ _ _ _ Hrun). simpl. lia. }
      destruct (run_completes memories options st Hle) as (ts' & st' & Hrun' & Hend).
      exists ts', (collectResults memories st').
      unfold downloadMemoriesConcurrent.
      rewrite runTurns_app, Hrun. simpl. rewrite Hrun', Hend. reflexivity.
  - intros ts out Hout. unfold downloadMemoriesConcurrent in Hout.
    destruct (runTurns memories options ts (initialRun memories)) as [st|] eqn:Hrun;
      [|discriminate].
    destruct (allSettled memories options st) eqn:Hend; [|discriminate].
    injection Hout as <-.
    destruct (runTurns_consistent _ _ _ _ _ _ Hrun (initialRun_consistent memories))
      as [taken Hc].
    destruct (collectResults_consistent _ _ _ Hc) as (Hlen & Hids & Hsame & Hcancel).
    destruct Hc as (Hmem & _ & Hresults).
    destruct (runTurns_accounted _ _ _ _ _ _ Hrun (initialRun_accounted memories options))
      as (taken' & Hmem' & Hcov & _ & _ & _).
    assert (taken' = taken) as ->.
    { apply (app_inv_tail (queue st)). rewrite <- Hmem, <- Hmem'. reflexivity. }
    pose proof (runTurns_recorded memories options ts _ _ Hrun (Forall_nil_2 _))
      as Hshape.
    pose proof (runTurns_outcome memories options ts _ _ Hrun (Forall_nil_2 _))
      as Houtcome.
    unfold allSettled in Hend. apply andb_true_iff in Hend. destruct Hend as [_ Hall].
    rewrite forallb_forall in Hall.
    rewrite Forall_forall in Hcov. rewrite Forall_forall in Hresults.
    rewrite Forall_forall in Hshape. rewrite Forall_forall in Houtcome.
    repeat (split; [assumption|]).
    exists st, taken. split; [reflexivity|]. split; [exact Hmem|].
    split; [|split; [exact Hcancel|]].
    + intros i m Hi.
      assert (Hin : m ∈ taken) by (apply list_elem_of_lookup; eauto).
      destruct (Hcov m Hin) as [Hd|Hr].
      { exfalso. apply list_elem_of_In in Hd. specialize (Hall _ Hd). discriminate. }
      destruct (mapGet_is_Some _ _ Hr) as [r Hget].
      exists r. split.
      { unfold collectResults. rewrite list_lookup_fmap.
        rewrite Hmem at 1. rewrite (lookup_app_l_Some _ _ _ _ Hi). simpl.
        rewrite Hget. reflexivity. }
      split; [exact Hget|].
      apply mapGet_Some in Hget.
      destruct (Hresults _ Hget) as [Hid Htaken].
      split; [exact Hid|]. split; [exact Htaken|].
      split; [exact (Hshape _ Hget) | exact (Houtcome _ Hget)].
    + intros Hnd. split; [exact (Hsame Hnd)|]. intros j m Hj.
      assert (Hfresh : mediaId m ∉ mediaId <$> taken).
      { rewrite Hmem, fmap_app in Hnd. apply NoDup_app in Hnd.
        destruct Hnd as (_ & Hdisj & _). intros Hin. apply (Hdisj _ Hin).
        apply list_elem_of_fmap_2. apply list_elem_of_lookup. eauto. }
      split; [|exact (Hcancel j m Hj Hfresh)].
      destruct (mapGet (mediaId m) (results st)) as [r|] eqn:Hget; [|reflexivity].
      exfalso. apply mapGet_Some in Hget.
      destruct (Hresults _ Hget) as [Hid Htaken]. simpl in Hid.
      apply Hfresh. rewrite <- Hid. apply list_elem_of_fmap_2. exact Htaken.
Qed.

(** C10 as stated fails for a list in which an identity is repeated: the
    results are kept by identity, so a memory that was never taken from the
    queue before the cancellation is returned with the successful result of
    the other memory of its identity, and with that memory in it. *)
Lemma downloadMemoriesConcurrent_repeated_identity :
  let a := someMemory in
  let a' :=
    {| date := 1; mediaType := Video; location := None;
       downloadUrl := "https://app.snapchat.com/dmd/memories?mid=a1&v=2";
       mediaDownloadUrl := None; mediaId := "a1" |} in
  let options := {| delay := Some 0; concurrency := Some 1;
                    batchMaxRetries := Some 1%nat; onProgress := true;
                    batchOnRetry := true; signal := true |} in
  let ts := [Spawn; Abort; Settle 0 servesJpeg (fun _ => 0%Q)] in
  exists st r,
    runTurns [a; a'] options ts (initialRun [a; a']) = Some st
    /\ queue st = [a']
    /\ downloadMemoriesConcurrent [a; a'] options ts = Some [r; r]
    /\ memory r = a
    /\ a <> a'
    /\ success r = true
    /\ r <> cancelledResult a'.
Proof.
  intros a a' options ts. eexists. eexists.
  split; [vm_compute; reflexivity|].
  split; [reflexivity|].
  split; [vm_compute; reflexivity|].
  split; [reflexivity|]. split; [discriminate|]. split; [reflexivity | discriminate].
Qed.

(** X22.  Every element of the array that [downloadMemoriesConcurrent]
    returns is well formed.  It is either a result that a worker recorded:
    a success with a media that is not empty and no error message, or a
    failure with an error message and no media, and in both cases a count of
    retries that does not exceed [maxRetries]; or it is the cancellation
    failure of the memory at its position, which has an error message, no
    media and no count of retries.  So [success] tells whether there is a
    media, and whether there is no error message. *)
Theorem downloadMemoriesConcurrent_results_well_formed
    (memories : list SnapchatMemory) (options : DownloadOptions) (ts : list Turn)
    (out : list BatchDownloadResult) :
  downloadMemoriesConcurrent memories options ts = Some out ->
  forall i r,
    out !! i = Some r ->
    (recordedResult (batchMaxRetriesOf options) r
     \/ exists m, memories !! i = Some m /\ r = cancelledResult m)
    /\ (success r = true <-> is_Some (media r))
    /\ (success r = false <-> is_Some (error r))
    /\ hasMedia r = success r
    /\ (forall k, retries r = Some k -> (k <= batchMaxRetriesOf options)%nat).
Proof.
  unfold downloadMemoriesConcurrent.
  destruct (runTurns memories options ts (initialRun memories)) as [st|] eqn:Hrun;
    [|discriminate].
  destruct (allSettled memories options st); [|discriminate].
  intros [= <-] i r Hi.
  pose proof (runTurns_recorded memories options ts _ _ Hrun (Forall_nil_2 _)) as Hall.
  unfold collectResults in Hi. rewrite list_lookup_fmap in Hi.
  destruct (memories !! i) as [m|] eqn:Hm; [|discriminate].
  simpl in Hi. injection Hi as <-.
  destruct (mapGet (mediaId m) (results st)) as [r|] eqn:Hget; simpl.
  - apply mapGet_Some in Hget. rewrite Forall_forall in Hall.
    pose proof (Hall _ Hget) as Hr. simpl in Hr.
    split; [left; exact Hr|].
    destruct Hr as [(k & Hk & Hle) Hshape]. unfold hasMedia.
    destruct (media r) as [downloaded|].
    + destruct Hshape as (-> & -> & _).
      split; [split; eauto|]. split; [split; [discriminate | intros [? [=]]]|].
      split; [rewrite bool_decide_eq_true_2 by eauto; reflexivity|].
      intros k' Hk'. rewrite Hk in Hk'. injection Hk' as <-. exact Hle.
    + destruct Hshape as (-> & Herr).
      split; [split; [discriminate | intros [? [=]]]|]. split; [split; auto|].
      split; [reflexivity|].
      intros k' Hk'. rewrite Hk in Hk'. injection Hk' as <-. exact Hle.
  - split; [right; eauto|]. unfold hasMedia. simpl.
    split; [split; [discriminate | intros [? [=]]]|].
    split; [split; eauto|]. split; [reflexivity | discriminate].
Qed.

Lemma downloadMemoriesConcurrent_results_well_formed_witness :
  let memories := [someMemory] in
  let options := {| delay := Some 0; concurrency := Some 1; batchMaxRetries := None;
                    onProgress := true; batchOnRetry := false; signal := false |} in
  let ts := [Spawn; Settle 0 servesJpeg (fun _ => 0%Q)] in
  exists out,
    downloadMemoriesConcurrent memories options ts = Some out
    /\ forall i r,
         out !! i = Some r ->
         (recordedResult (batchMaxRetriesOf options) r
          \/ exists m, memories !! i = Some m /\ r = cancelledResult m)
         /\ (success r = true <-> is_Some (media r))
         /\ (success r = false <-> is_Some (error r))
         /\ hasMedia r = success r
         /\ (forall k, retries r = Some k -> (k <= batchMaxRetriesOf options)%nat).
Proof.
  intros memories options ts. eexists. split; [vm_compute; reflexivity|].
  apply (downloadMemoriesConcurrent_results_well_formed memories options ts).
  vm_compute. reflexivity.
Defined.

(* ===================================================================== *)
(** * Progress is reported for the download that completed                *)
(* ===================================================================== *)

Lemma underWay_cons (x : Worker) (ws : list Worker) :
  underWay (x :: ws) = underWay [x] ++ underWay ws.
Proof. destruct x; reflexivity. Qed.

Lemma underWay_insert (ws : list Worker) (w : nat) (old x : Worker) :
  ws !! w = Some old ->
  underWay (<[w := x]> ws) ++ underWay [old] ≡ₚ underWay [x] ++ underWay ws.
Proof.
  revert w. induction ws as [|y ws IH]; intros [|w]; try discriminate.
  - intros [= ->]. change (<[0%nat := x]> (old :: ws)) with (x :: ws).
    rewrite (underWay_cons x ws), (underWay_cons old ws), <- app_assoc.
    f_equiv. apply Permutation_app_comm.
  - intros Hw. change (<[S w := x]> (y :: ws)) with (y :: <[w := x]> ws).
    change ((y :: ws) !! S w) with (ws !! w) in Hw.
    rewrite (underWay_cons y (<[w := x]> ws)), (underWay_cons y ws), <- app_assoc.
    rewrite (IH w Hw). rewrite !app_assoc. f_equiv. apply Permutation_app_comm.
Qed.

Lemma underWay_snoc (ws : list Worker) (x : Worker) :
  underWay (ws ++ [x]) = underWay ws ++ underWay [x].
Proof. unfold underWay. rewrite omap_app. reflexivity. Qed.

Lemma progressOfResults_snoc (total : nat) (rs : JsMap BatchDownloadResult)
    (k : string) (r : BatchDownloadResult) :
  progressOfResults total (rs ++ [(k, r)])
  = progressOfResults total rs ++ [(S (length rs), total, memory r)].
Proof.
  unfold progressOfResults. rewrite imap_app. simpl. rewrite Nat.add_0_r. reflexivity.
Qed.

Section Reported.

  Variable memories : list SnapchatMemory.
  Variable options : DownloadOptions.

  Local Abbreviation turn := (turn memories options).
  Local Abbreviation runTurns := (runTurns memories options).
  Local Abbreviation loopHead := (loopHead options).
  Local Abbreviation afterDownload := (afterDownload memories options).
  Local Abbreviation reported := (reported memories options).

(** The loop head moves at most one identity, from the queue to the
    worker. *)
Lemma loopHead_moves (x : Worker) (st st' : Run) :
  loopHead st = (x, st') ->
  (mediaId <$> underWay [x]) ++ (mediaId <$> queue st') = mediaId <$> queue st
  /\ results st' = results st /\ completed st' = completed st
  /\ progressLog st' = progressLog st /\ workers st' = workers st.
Proof.
  unfold loopHead. intros Hhead.
  destruct (queue st) as [|m rest] eqn:Hq.
  - injection Hhead as <- <-. rewrite Hq. auto.
  - destruct (signal options && aborted st).
    + injection Hhead as <- <-. rewrite Hq. auto.
    + injection Hhead as <- <-. simpl. auto.
Qed.

(** A worker that holds no download passes the loop head. *)
Lemma idle_reported (w : nat) (old x : Worker) (st st' : Run) :
  workers st !! w = Some old ->
  underWay [old] = [] ->
  loopHead st = (x, st') ->
  reported st ->
  reported (setWorker w x st').
Proof.
  intros Hw Hidle Hhead (Hnd & Hc & Hlog).
  destruct (loopHead_moves _ _ _ Hhead) as (Hq & Hr & Hc' & Hl & Hw').
  unfold reported. simpl. rewrite Hr, Hc', Hl, Hw'.
  split; [|auto].
  pose proof (underWay_insert _ _ _ x Hw) as Hperm.
  rewrite Hidle, app_nil_r in Hperm.
  rewrite <- Hq in Hnd. rewrite Hperm, fmap_app.
  rewrite (Permutation_app_comm (mediaId <$> underWay [x])), <- app_assoc.
  exact Hnd.
Qed.

Lemma turn_reported (t : Turn) (st st' : Run) :
  turn t st = Some st' -> reported st -> reported st'.
Proof.
  intros Ht Hrep. destruct t as [|w net random|w|]; simpl in Ht.
  - destruct (length (workers st) <? actualConcurrency memories options)%nat;
      [|discriminate].
    destruct (loopHead st) as [x st1] eqn:Hhead. injection Ht as <-.
    destruct Hrep as (Hnd & Hc & Hlog).
    destruct (loopHead_moves _ _ _ Hhead) as (Hq & Hr & Hc' & Hl & Hw').
    unfold reported. simpl. rewrite Hr, Hc', Hl, Hw'. split; [|auto].
    rewrite <- Hq in Hnd. rewrite underWay_snoc, fmap_app, <- app_assoc. exact Hnd.
  - destruct (workers st !! w) as [[m| |]|] eqn:Hw; try discriminate.
    injection Ht as <-. destruct Hrep as (Hnd & Hc & Hlog).
    pose proof (underWay_insert _ _ _ Sleeping Hw) as Hperm. csimpl in Hperm.
    assert (Hfresh : mediaId m ∉ (results st).*1).
    { intros Hin. apply NoDup_app in Hnd. destruct Hnd as (_ & Hnd & _).
      apply (Hnd _ Hin). apply elem_of_app. left.
      rewrite <- Hperm, fmap_app. apply elem_of_app. right. csimpl. left. }
    destruct (afterDownload_progress memories options w m net random st)
      as (r & st1 & Hr & Hq1 & Hw1 & Hc1 & Hres1 & Hlog1 & Hcase).
    rewrite (mapSet_fresh _ _ _ Hfresh) in Hres1.
    assert (Hw1' : workers (setWorker w Sleeping st1) !! w = Some Sleeping).
    { simpl. rewrite Hw1. apply list_lookup_insert_eq. eapply lookup_lt_Some; eauto. }
    assert (Hsleep : reported (setWorker w Sleeping st1)).
    { unfold reported. simpl. rewrite Hres1, Hw1, Hq1, Hc1, Hc, length_app. simpl.
      split; [|split; [lia|]].
      - rewrite <- Hperm in Hnd. rewrite fmap_app in Hnd. rewrite fmap_app.
        csimpl in Hnd. csimpl.
        rewrite <- !app_assoc.
        rewrite <- !app_assoc in Hnd.
        rewrite (Permutation_app_comm [mediaId m]
                   ((mediaId <$> underWay (<[w:=Sleeping]> (workers st)))
                    ++ (mediaId <$> queue st))).
        rewrite <- app_assoc.
        rewrite (Permutation_app_comm (mediaId <$> queue st) [mediaId m]).
        exact Hnd.
      - rewrite Hlog1, Hres1, length_app, fmap_app. csimpl. rewrite last_snoc. simpl.
        replace (0 <? length (results st) + 1)%nat with true
          by (symmetry; apply Nat.ltb_lt; lia).
        rewrite andb_true_r, Hlog, Hc. destruct (onProgress options); [|reflexivity].
        rewrite progressOfResults_snoc. reflexivity. }
    destruct Hcase as [-> | (x & st2 & Hhead & ->)]; [exact Hsleep|].
    apply (loopHead_setWorker options w Sleeping) in Hhead.
    pose proof (idle_reported w Sleeping x _ _ Hw1' eq_refl Hhead Hsleep) as Hfinal.
    rewrite setWorker_setWorker in Hfinal. exact Hfinal.
  - destruct (workers st !! w) as [[m| |]|] eqn:Hw; try discriminate.
    destruct (loopHead st) as [x st1] eqn:Hhead. injection Ht as <-.
    eapply idle_reported; eauto.
  - destruct (signal options && negb (aborted st)); [|discriminate].
    injection Ht as <-. exact Hrep.
Qed.

Lemma runTurns_reported (ts : list Turn) (st st' : Run) :
  runTurns ts st = Some st' -> reported st -> reported st'.
Proof.
  revert st. induction ts as [|t ts IH]; intros st; simpl.
  - intros [= ->]. auto.
  - destruct (turn t st) as [st1|] eqn:Ht; [|discriminate].
    intros Hrun Hrep. apply (IH _ Hrun). eapply turn_reported; eauto.
Qed.

End Reported.

(** X23.  With memories of pairwise distinct identities, and whatever the
    concurrency and the schedule, the progress callback of
    [downloadMemoriesConcurrent] is told of each download as it completes:
    it is called once for each recorded result, in the order of the
    recording, with the running count 1, 2, ..., the total, and the memory
    of the download that just completed.  No identity is recorded twice, the
    count of completed downloads is the number of recorded results, and it
    never exceeds the number of memories. *)
Theorem downloadMemoriesConcurrent_reports_progress
    (memories : list SnapchatMemory) (options : DownloadOptions)
    (ts : list Turn) (st : Run) :
  NoDup (mediaId <$> memories) ->
  runTurns memories options ts (initialRun memories) = Some st ->
  completed st = length (results st)
  /\ (completed st <= length memories)%nat
  /\ NoDup (results st).*1
  /\ progressLog st
     = (if onProgress options
        then progressOfResults (length memories) (results st) else [])
  /\ forall i kr,
       results st !! i = Some kr ->
       kr.1 = mediaId (memory kr.2)
       /\ memory kr.2 ∈ memories
       /\ (onProgress options = true ->
           progressLog st !! i = Some (S i, length memories, memory kr.2)).
Proof.
  intros Hdistinct Hrun.
  assert (Hinit : reported memories options (initialRun memories)).
  { unfold reported. simpl. split; [exact Hdistinct|]. split; [reflexivity|].
    destruct (onProgress options); reflexivity. }
  destruct (runTurns_reported memories options ts _ _ Hrun Hinit) as (Hnd & Hc & Hlog).
  destruct (runTurns_consistent memories options ts _ _ [] Hrun
              (initialRun_consistent memories))
    as (taken & Hmem & _ & Hres).
  assert (Hkeys : NoDup (results st).*1) by (apply NoDup_app in Hnd; tauto).
  assert (Hin : forall i kr, results st !! i = Some kr ->
                             kr.1 = mediaId (memory kr.2) /\ memory kr.2 ∈ memories).
  { intros i kr Hi. rewrite Forall_forall in Hres.
    destruct (Hres kr) as [Hk Ht]; [apply list_elem_of_lookup; eauto|].
    split; [auto|]. rewrite Hmem. apply elem_of_app. left. exact Ht. }
  split; [exact Hc|]. split.
  { rewrite Hc. rewrite <- (length_fmap fst).
    assert (Hsub : (results st).*1 ⊆ mediaId <$> memories).
    { intros k Hk. apply list_elem_of_fmap in Hk. destruct Hk as (kr & -> & Hkr).
      apply list_elem_of_lookup in Hkr. destruct Hkr as [i Hi].
      destruct (Hin i kr Hi) as [-> Hm]. apply list_elem_of_fmap_2. exact Hm. }
    rewrite <- (length_fmap mediaId memories).
    apply submseteq_length, NoDup_submseteq; assumption. }
  split; [exact Hkeys|]. split; [exact Hlog|].
  intros i kr Hi. destruct (Hin i kr Hi) as [Hk Hm].
  split; [exact Hk|]. split; [exact Hm|].
  intros Hon. rewrite Hlog, Hon. unfold progressOfResults.
  assert (Hlookup : forall (f : nat -> string * BatchDownloadResult
                                -> nat * nat * SnapchatMemory)
                           (l : list (string * BatchDownloadResult)),
             l !! i = Some kr -> imap f l !! i = Some (f i kr)).
  { intros f l Hl. rewrite list_lookup_imap, Hl. reflexivity. }
  exact (Hlookup (fun i kr => (S i, length memories, memory kr.2)) _ Hi).
Qed.

Lemma downloadMemoriesConcurrent_reports_progress_witness :
  let memories :=
    [someMemory;
     {| date := 1; mediaType := Video; location := None;
        downloadUrl := "https://app.snapchat.com/dmd/memories?mid=b2";
        mediaDownloadUrl := None; mediaId := "b2" |}] in
  let options := {| delay := Some 0; concurrency := Some 3; batchMaxRetries := None;
                    onProgress := true; batchOnRetry := false; signal := false |} in
  let ts := [Spawn; Spawn; Settle 1 servesJpeg (fun _ => 0%Q);
             Settle 0 always503 (fun _ => 0%Q)] in
  exists st,
    runTurns memories options ts (initialRun memories) = Some st
    /\ completed st = length (results st)
    /\ (completed st <= length memories)%nat
    /\ NoDup (results st).*1
    /\ progressLog st
       = (if onProgress options
          then progressOfResults (length memories) (results st) else [])
    /\ forall i kr,
         results st !! i = Some kr ->
         kr.1 = mediaId (memory kr.2)
         /\ memory kr.2 ∈ memories
         /\ (onProgress options = true ->
             progressLog st !! i = Some (S i, length memories, memory kr.2)).
Proof.
  intros memories options ts. eexists. split; [vm_compute; reflexivity|].
  apply (downloadMemoriesConcurrent_reports_progress memories options ts).
  - apply NoDup_cons_2; [|apply NoDup_singleton].
    intros Hin. apply elem_of_cons in Hin. destruct Hin as [Hin|Hin];
      [discriminate | inversion Hin].
  - vm_compute. reflexivity.
Defined.

(* ===================================================================== *)
(** * The backoff schedule of one download                                *)
(* ===================================================================== *)

Lemma sleepDelays_app (ev ev' : list Event) :
  sleepDelays (ev ++ ev') = sleepDelays ev ++ sleepDelays ev'.
Proof. induction ev as [|[] ev IH]; simpl; rewrite ?IH; reflexivity. Qed.

Lemma sleepDelays_length (ev : list Event) : length (sleepDelays ev) = sleepsMade ev.
Proof.
  unfold sleepsMade. induction ev as [|[] ev IH]; simpl; rewrite ?IH; reflexivity.
Qed.

Section Backoff.

  Variable net : Network.
  Variable random : nat -> Q.
  Variable memory : SnapchatMemory.
  Variable options : DownloadMemoryOptions.

  Local Arguments isRetryableError : simpl never.
  Local Arguments calculateBackoffDelay : simpl never.

(** An iteration that goes round again sleeps the delay of its attempt,
    which is the one it told the callback; another iteration does not
    sleep. *)
Lemma iteration_delay (url baseUrl queryString : string) (attempt : nat) :
  let '(r, ev) := iteration net random memory options url baseUrl queryString attempt in
  sleepDelays ev
  = match r with
    | Continue _ =>
        [calculateBackoffDelay (random attempt) attempt BACKOFF_BASE_DELAY_MS]
    | _ => []
    end
  /\ toldDelays ev = if onRetry options then sleepDelays ev else [].
Proof.
  unfold iteration, tryBlock, catchBlock, retryOrThrow, scheduleRetry, toldDelays.
  destruct (post net attempt baseUrl queryString) as [thrown|proxyResponse].
  { destruct thrown as [u c m|c m|]; simpl isDownloadError; simpl isError; cbv iota.
    - destruct ((attempt <? maxRetriesOf options)%nat
                && isRetryableError (DownloadError u c m));
        destruct (onRetry options); simpl; auto.
    - rewrite andb_true_l.
      destruct ((attempt <? maxRetriesOf options)%nat
                && isRetryableError (OtherError c m));
        destruct (onRetry options); simpl; auto.
    - rewrite !andb_false_r. simpl. destruct (onRetry options); auto. }
  destruct (negb (ok proxyResponse)).
  { simpl isDownloadError.
    destruct ((attempt <? maxRetriesOf options)%nat && isRetryableError _) eqn:Hr;
      simpl; [|rewrite Hr]; destruct (onRetry options); simpl; auto. }
  destruct (negb (JsString.truthy (text proxyResponse))
            || negb (JsString.startsWith (text proxyResponse) "http")).
  { simpl isDownloadError. cbv iota.
    destruct ((attempt <? maxRetriesOf options)%nat && isRetryableError _);
      destruct (onRetry options); simpl; auto. }
  destruct (get net attempt (JsString.trim (text proxyResponse))) as [thrown|fileResponse].
  { destruct thrown as [u c m|c m|]; simpl isDownloadError; simpl isError; cbv iota.
    - destruct ((attempt <? maxRetriesOf options)%nat
                && isRetryableError (DownloadError u c m));
        destruct (onRetry options); simpl; auto.
    - rewrite andb_true_l.
      destruct ((attempt <? maxRetriesOf options)%nat
                && isRetryableError (OtherError c m));
        destruct (onRetry options); simpl; auto.
    - rewrite !andb_false_r. simpl. destruct (onRetry options); auto. }
  destruct (negb (ok fileResponse)).
  { simpl isDownloadError.
    destruct ((attempt <? maxRetriesOf options)%nat && isRetryableError _) eqn:Hr;
      simpl; [|rewrite Hr]; destruct (onRetry options); simpl; auto. }
  destruct (length (body fileResponse) =? 0)%nat.
  { simpl isDownloadError. cbv iota.
    destruct ((attempt <? maxRetriesOf options)%nat && isRetryableError _);
      destruct (onRetry options); simpl; auto. }
  simpl. destruct (onRetry options); auto.
Qed.

Lemma attemptLoop_delays (url baseUrl queryString : string)
    (remaining attempt : nat) (lastError : option JsError) :
  let ev := snd (attemptLoop net random memory options url baseUrl queryString
                             remaining attempt lastError) in
  sleepDelays ev
  = (fun a => calculateBackoffDelay (random a) a BACKOFF_BASE_DELAY_MS)
      <$> seq attempt (sleepsMade ev)
  /\ toldDelays ev = if onRetry options then sleepDelays ev else [].
Proof.
  revert attempt lastError.
  induction remaining as [|remaining IH]; intros attempt lastError.
  { simpl. destruct (onRetry options); auto. }
  cbn [attemptLoop].
  pose proof (iteration_delay url baseUrl queryString attempt) as Hit.
  destruct (iteration net random memory options url baseUrl queryString attempt)
    as [[media|error|error] ev]; destruct Hit as [Hsleep Htold]; cbn [snd].
  - rewrite <- sleepDelays_length, Hsleep. simpl. rewrite Htold, Hsleep. auto.
  - rewrite <- sleepDelays_length, Hsleep. simpl. rewrite Htold, Hsleep. auto.
  - specialize (IH (S attempt) (Some error)). cbv zeta in IH.
    destruct (attemptLoop net random memory options url baseUrl queryString
                          remaining (S attempt) (Some error)) as [r ev'].
    cbn [snd] in IH |- *. destruct IH as [IHsleep IHtold].
    assert (Hone : sleepsMade ev = 1%nat)
      by (rewrite <- sleepDelays_length, Hsleep; reflexivity).
    split.
    + rewrite sleepDelays_app, sleepsMade_app, Hone, Hsleep, IHsleep. reflexivity.
    + unfold toldDelays in *. rewrite retryCalls_app, fmap_app, Htold, IHtold.
      rewrite sleepDelays_app. destruct (onRetry options); reflexivity.
Qed.

End Backoff.

Lemma calculateBackoffDelay_range (r : Q) (attempt : nat) :
  (0 <= r)%Q -> (r < 1)%Q ->
  let d := calculateBackoffDelay r attempt BACKOFF_BASE_DELAY_MS in
  (0 < d)%Q
  /\ (d <= BACKOFF_MAX_DELAY_MS)%Q
  /\ (Qmin (BACKOFF_BASE_DELAY_MS * 2 ^ Z.of_nat attempt * (75 # 100))
           BACKOFF_MAX_DELAY_MS <= d)%Q
  /\ (d <= BACKOFF_BASE_DELAY_MS * 2 ^ Z.of_nat attempt * (125 # 100))%Q.
Proof.
  intros Hr0 Hr1 d. subst d. unfold calculateBackoffDelay.
  assert (Hb : (0 < BACKOFF_BASE_DELAY_MS)%Q) by reflexivity.
  pose proof (exponentialDelay_pos attempt BACKOFF_BASE_DELAY_MS Hb) as He.
  set (e := (BACKOFF_BASE_DELAY_MS * 2 ^ Z.of_nat attempt)%Q) in *.
  destruct (jitter_range e r He Hr0 Hr1) as [Hlo Hhi]. cbv zeta.
  assert (Hpos : (0 < e * (75 # 100))%Q) by lra.
  split.
  { apply Q.min_glb_lt; [lra | reflexivity]. }
  split; [apply Q.le_min_r|].
  split; [apply Q.min_le_compat_r; exact Hlo|].
  apply Qle_trans with (e + e * (25 # 100) * (r * 2 - 1))%Q;
    [apply Q.le_min_l | apply Qlt_le_weak; exact Hhi].
Qed.

(** X24.  The sleeps of one call of [downloadMemory] follow the backoff
    schedule: the sleep after attempt [k] lasts
    [calculateBackoffDelay(k)], for [k = 0, 1, ...] without a gap, and there
    are at most [maxRetries] of them.  The retry callback is told, each
    time, the delay that is slept next.  With [Math.random()] in its range,
    every sleep after an attempt [k] whose exponential delay [1000 * 2^k]
    is within the finite numbers of the code (the attempts up to 1013) is
    positive and at most 30 seconds, and it is between 75% and 125% of
    [1000 * 2^k] ms, or at the ceiling. *)
Theorem downloadMemory_backoff_schedule
    (net : Network) (random : nat -> Q) (memory : SnapchatMemory)
    (options : DownloadMemoryOptions) :
  (forall a, (0 <= random a)%Q /\ (random a < 1)%Q) ->
  let ev := snd (downloadMemory net random memory options) in
  sleepDelays ev
  = (fun a => calculateBackoffDelay (random a) a BACKOFF_BASE_DELAY_MS)
      <$> seq 0 (sleepsMade ev)
  /\ (sleepsMade ev <= maxRetriesOf options)%nat
  /\ toldDelays ev = (if onRetry options then sleepDelays ev else [])
  /\ forall k d,
       sleepDelays ev !! k = Some d ->
       finiteBackoff k BACKOFF_BASE_DELAY_MS ->
       (0 < d)%Q
       /\ (d <= BACKOFF_MAX_DELAY_MS)%Q
       /\ (Qmin (BACKOFF_BASE_DELAY_MS * 2 ^ Z.of_nat k * (75 # 100))
                BACKOFF_MAX_DELAY_MS <= d)%Q
       /\ (d <= BACKOFF_BASE_DELAY_MS * 2 ^ Z.of_nat k * (125 # 100))%Q.
Proof.
  intros Hrandom ev.
  assert (Hschedule :
            sleepDelays ev
            = (fun a => calculateBackoffDelay (random a) a BACKOFF_BASE_DELAY_MS)
                <$> seq 0 (sleepsMade ev)
            /\ toldDelays ev = (if onRetry options then sleepDelays ev else [])).
  { subst ev. unfold downloadMemory.
    destruct (queryStringOf (downloadUrl memory)) as [queryString|];
      [|simpl; destruct (onRetry options); auto].
    destruct (JsString.truthy queryString);
      [|simpl; destruct (onRetry options); auto].
    apply attemptLoop_delays. }
  assert (Hcount : (sleepsMade ev <= maxRetriesOf options)%nat).
  { subst ev.
    destruct (hasQueryPayload_dec (downloadUrl memory))
      as [(queryString & Hq & Ht) | (_ & _ & Hdl)].
    - destruct (attemptLoop_trace net random memory options queryString Hq Ht
                                  (maxRetriesOf options) 0 None eq_refl)
        as (j & Hj & _ & _ & _ & Hev).
      unfold downloadMemory. rewrite Hq, Ht. cbv zeta in Hev.
      destruct Hev as (_ & -> & _). lia.
    - rewrite (Hdl net random memory options eq_refl). unfold sleepsMade. simpl. lia. }
  destruct Hschedule as [Hsleep Htold].
  split; [exact Hsleep|]. split; [exact Hcount|]. split; [exact Htold|].
  intros k d Hk _. rewrite Hsleep, list_lookup_fmap in Hk.
  destruct (seq 0 (sleepsMade ev) !! k) as [a|] eqn:Ha; [|discriminate].
  apply lookup_seq in Ha. destruct Ha as [-> _]. simpl in Hk. injection Hk as <-.
  destruct (Hrandom k) as [Hr0 Hr1].
  exact (calculateBackoffDelay_range (random k) k Hr0 Hr1).
Qed.

Lemma downloadMemory_backoff_schedule_witness :
  let random := fun _ : nat => (1 # 2)%Q in
  let options := {| maxRetries := Some 2%nat; onRetry := true |} in
  let ev := snd (downloadMemory always503 random someMemory options) in
  sleepDelays ev
  = (fun a => calculateBackoffDelay (random a) a BACKOFF_BASE_DELAY_MS)
      <$> seq 0 (sleepsMade ev)
  /\ (sleepsMade ev <= maxRetriesOf options)%nat
  /\ toldDelays ev = (if onRetry options then sleepDelays ev else [])
  /\ forall k d,
       sleepDelays ev !! k = Some d ->
       finiteBackoff k BACKOFF_BASE_DELAY_MS ->
       (0 < d)%Q
       /\ (d <= BACKOFF_MAX_DELAY_MS)%Q
       /\ (Qmin (BACKOFF_BASE_DELAY_MS * 2 ^ Z.of_nat k * (75 # 100))
                BACKOFF_MAX_DELAY_MS <= d)%Q
       /\ (d <= BACKOFF_BASE_DELAY_MS * 2 ^ Z.of_nat k * (125 # 100))%Q.
Proof.
  apply (downloadMemory_backoff_schedule always503 (fun _ => (1 # 2)%Q) someMemory
           {| maxRetries := Some 2%nat; onRetry := true |}).
  intros a. split; [discriminate | reflexivity].
Defined.

(* ===================================================================== *)
(** * Cancellation lets the downloads under way finish                    *)
(* ===================================================================== *)

Section Cancellation.

  Variable memories : list SnapchatMemory.
  Variable options : DownloadOptions.
  Hypothesis withSignal : signal options = true.

  Local Abbreviation turn := (turn memories options).
  Local Abbreviation runTurns := (runTurns memories options).
  Local Abbreviation loopHead := (loopHead options).
  Local Abbreviation afterDownload := (afterDownload memories options).

(** Once the signal is raised the loop head ends the worker. *)
Lemma loopHead_aborted (st : Run) :
  aborted st = true -> loopHead st = (Finished, st).
Proof.
  intros Ha. unfold loopHead. destruct (queue st); [reflexivity|].
  rewrite withSignal, Ha. reflexivity.
Qed.

Lemma turn_windingDown (t : Turn) (st0 st st' : Run) :
  turn t st = Some st' ->
  windingDown st0 st ->
  windingDown st0 st'.
Proof.
  intros Ht (Hq & Ha & Hnew & Hold & Hkeys).
  destruct t as [|w net random|w|]; simpl in Ht.
  - destruct (length (workers st) <? actualConcurrency memories options)%nat;
      [|discriminate].
    rewrite (loopHead_aborted st Ha) in Ht. injection Ht as <-.
    unfold windingDown. simpl. split; [exact Hq|]. split; [exact Ha|]. split; [|split].
    + intros m Hin. apply elem_of_app in Hin. destruct Hin as [Hin|Hin]; [auto|].
      apply list_elem_of_singleton in Hin. discriminate.
    + intros m Hin. destruct (Hold m Hin) as [H|H]; [left; apply elem_of_app|]; auto.
    + exact Hkeys.
  - destruct (workers st !! w) as [[m| |]|] eqn:Hw; try discriminate.
    injection Ht as <-.
    destruct (afterDownload_accounts memories options w m net random st)
      as (r & st1 & Hr & _ & Hq1 & Hw1 & Ha1 & _ & Hres1 & Hcase).
    assert (Hstep : exists x,
               isDownloading x = false
               /\ afterDownload w m net random st = setWorker w x st1).
    { destruct Hcase as [[-> _] | (x & st2 & Hhead & ->)]; [exists Sleeping; auto|].
      rewrite (loopHead_aborted st1) in Hhead by congruence.
      injection Hhead as <- <-. exists Finished. auto. }
    destruct Hstep as (x & Hx & ->).
    unfold windingDown. simpl. rewrite Hq1, Ha1, Hw1, Hres1.
    split; [exact Hq|]. split; [exact Ha|]. split; [|split].
    + intros m' Hin. apply elem_of_insert_inv in Hin. destruct Hin as [Hin|Hin]; [|auto].
      subst x. discriminate.
    + intros m' Hin. destruct (Hold m' Hin) as [H|H].
      * destruct (decide (mediaId m' = mediaId m)) as [Heq|Hne].
        -- right. apply fst_mapSet. auto.
        -- left. eapply elem_of_insert_other; eauto; congruence.
      * right. apply fst_mapSet. auto.
    + intros k Hk. apply fst_mapSet. auto.
  - destruct (workers st !! w) as [[m| |]|] eqn:Hw; try discriminate.
    rewrite (loopHead_aborted st Ha) in Ht. injection Ht as <-.
    unfold windingDown. simpl. split; [exact Hq|]. split; [exact Ha|]. split; [|split].
    + intros m Hin. apply elem_of_insert_inv in Hin. destruct Hin as [Hin|Hin];
        [discriminate | auto].
    + intros m Hin. destruct (Hold m Hin) as [H|H]; [left|auto].
      eapply elem_of_insert_other; eauto; discriminate.
    + exact Hkeys.
  - rewrite withSignal, Ha in Ht. discriminate.
Qed.

Lemma runTurns_windingDown (ts : list Turn) (st0 st st' : Run) :
  runTurns ts st = Some st' ->
  windingDown st0 st ->
  windingDown st0 st'.
Proof.
  revert st. induction ts as [|t ts IH]; intros st; simpl.
  - intros [= ->]. auto.
  - destruct (turn t st) as [st1|] eqn:Ht; [|discriminate].
    intros Hrun Hwd. apply (IH _ Hrun). eapply turn_windingDown; eauto.
Qed.

End Cancellation.

(** X25.  Raising the signal stops the workers from taking memories and
    nothing else.  From a state in which the signal is raised on: the queue
    stays as it is and no download is started (the signal cannot be lowered
    again); the downloads under way at that moment are not interrupted:
    each is still under way or has its result recorded, and when the call
    comes to its end all of them are recorded; and no recorded result is
    lost. *)
Theorem downloadMemoriesConcurrent_cancellation
    (memories : list SnapchatMemory) (options : DownloadOptions)
    (ts : list Turn) (st st' : Run) :
  signal options = true ->
  aborted st = true ->
  runTurns memories options ts st = Some st' ->
  queue st' = queue st
  /\ aborted st' = true
  /\ (forall m, Downloading m ∈ workers st' -> Downloading m ∈ workers st)
  /\ (forall m, Downloading m ∈ workers st ->
                Downloading m ∈ workers st' \/ mediaId m ∈ (results st').*1)
  /\ (forall k, k ∈ (results st).*1 -> k ∈ (results st').*1)
  /\ (allSettled memories options st' = true ->
      forall m, Downloading m ∈ workers st ->
                is_Some (mapGet (mediaId m) (results st'))).
Proof.
  intros Hsignal Haborted Hrun.
  assert (Hstart : windingDown st st).
  { unfold windingDown. repeat split; auto. }
  destruct (runTurns_windingDown memories options Hsignal ts st st st' Hrun Hstart)
    as (Hq & Ha & Hnew & Hold & Hkeys).
  repeat (split; [assumption|]).
  intros Hend m Hin. apply mapGet_is_Some.
  destruct (Hold m Hin) as [Hstill|Hrec]; [|exact Hrec].
  unfold allSettled in Hend. apply andb_true_iff in Hend. destruct Hend as [_ Hall].
  rewrite forallb_forall in Hall. apply list_elem_of_In in Hstill.
  specialize (Hall _ Hstill). discriminate.
Qed.

Lemma downloadMemoriesConcurrent_cancellation_witness :
  let memories := [someMemory; someMemory] in
  let options := {| delay := Some 0; concurrency := Some 1; batchMaxRetries := Some 0%nat;
                    onProgress := false; batchOnRetry := false; signal := true |} in
  let st := {| queue := [someMemory]; results := []; completed := 0;
               workers := [Downloading someMemory]; aborted := true;
               progressLog := []; retryLog := [] |} in
  let ts := [Settle 0 servesJpeg (fun _ => 0%Q)] in
  exists st',
    runTurns memories options ts st = Some st'
    /\ queue st' = queue st
    /\ aborted st' = true
    /\ (forall m, Downloading m ∈ workers st' -> Downloading m ∈ workers st)
    /\ (forall m, Downloading m ∈ workers st ->
                  Downloading m ∈ workers st' \/ mediaId m ∈ (results st').*1)
    /\ (forall k, k ∈ (results st).*1 -> k ∈ (results st').*1)
    /\ (allSettled memories options st' = true ->
        forall m, Downloading m ∈ workers st ->
                  is_Some (mapGet (mediaId m) (results st'))).
Proof.
  intros memories options st ts. eexists. split; [vm_compute; reflexivity|].
  apply (downloadMemoriesConcurrent_cancellation memories options ts st).
  - reflexivity.
  - reflexivity.
  - vm_compute. reflexivity.
Defined.
